(** * Htxt-GrokAPI-Translate: the batch-translation orchestrator

    A shallow embedding of [2_Trans_JP_to_ZH_grok-4-fast-reasoning.py] and
    [6_Trans_EN_to_ZH_grok-4-fast-reasoning.py], with the numbering of the
    input by [5_stepa_txt_to_stepb_html(en).py] and the cleaning of the sound
    glossary by [3_sound_dictionary_clean.py].

    - Python [str] values are lists of Unicode code points ([list N]).
    - The regular expressions of the program are terms of [regex], run by a
      backtracking matcher with Python's priorities (greedy and lazy
      quantifiers, leftmost match).
    - Glossary entries are flat JSON objects with string values
      ([gmap (list N) (list N)]); glossaries are Python lists of them.
    - The external service, the random generator, the interpreter's Unicode
      table of decimal digits, the JSON decoding of dictionary blocks and
      the write of the request file belong to the environment: they are
      the fields of [environment].
    - Exceptions are modelled where the program catches them: a document
      that cannot be read, a request that fails, a request file that
      cannot be written, the ValueError of [int] on a token of more than
      4300 digits and the division by a batch size of zero.  The other
      file operations (the glossaries, the response and error files, the
      write of the document) are taken to succeed. *)

From Stdlib Require Import NArith ZArith Lia Bool List String Ascii Sorted DecimalNat.
From stdpp Require Import base option list gmap.
Import ListNotations.

Local Open Scope N_scope.

(** ** Python strings *)

Abbreviation str := (list N).

(** An ASCII literal as a Python string. *)
Definition py (s : string) : str :=
  List.map N_of_ascii (list_ascii_of_string s).

Definition LF : N := 10.
Definition CR : N := 13.

(** [str.isspace] on one code point, which is also the class [\s] of [re]
    on [str] patterns. *)
Definition isspace (c : N) : bool :=
  ((0x09 <=? c) && (c <=? 0x0D)) || ((0x1C <=? c) && (c <=? 0x20))
  || (c =? 0x85) || (c =? 0xA0) || (c =? 0x1680)
  || ((0x2000 <=? c) && (c <=? 0x200A))
  || (c =? 0x2028) || (c =? 0x2029) || (c =? 0x202F) || (c =? 0x205F)
  || (c =? 0x3000).

Definition in_range (lo hi c : N) : bool := (lo <=? c) && (c <=? hi).

Definition is_lower (c : N) : bool := in_range 0x61 0x7A c.
Definition is_upper (c : N) : bool := in_range 0x41 0x5A c.
Definition is_alpha (c : N) : bool := is_lower c || is_upper c.
Definition is_ascii_digit (c : N) : bool := in_range 0x30 0x39 c.

Fixpoint dropwhile (p : N -> bool) (s : str) : str :=
  match s with
  | c :: s' => if p c then dropwhile p s' else s
  | [] => []
  end.

(** [s.strip()] *)
Definition lstrip (s : str) : str := dropwhile isspace s.
Definition rstrip (s : str) : str := rev (dropwhile isspace (rev s)).
Definition strip (s : str) : str := rstrip (lstrip s).

(** [s.endswith(t)] *)
Definition endswith (s t : str) : bool :=
  bool_decide (drop (length s - length t)%nat s = t).

(** [needle in haystack] on strings. *)
Fixpoint is_prefix (p s : str) : bool :=
  match p, s with
  | [], _ => true
  | a :: p', b :: s' => (a =? b) && is_prefix p' s'
  | _ :: _, [] => false
  end.

Fixpoint contains (needle hay : str) : bool :=
  is_prefix needle hay ||
  match hay with
  | [] => false
  | _ :: hay' => contains needle hay'
  end.

(** ** Regular expressions

    Every quantifier of the program's patterns applies to a one-character
    class or to an optional group, and every pattern has at most one
    capturing group, so a quantified class and a single capture slot are
    all the matcher needs. *)

Inductive regex : Type :=
| Eps                         (* the empty pattern *)
| Cls (p : N -> bool)         (* one character of a class; a literal is a class *)
| Cat (r1 r2 : regex)         (* r1 r2 *)
| Opt (r : regex)             (* r?   greedy *)
| Star (p : N -> bool)        (* [p]* greedy *)
| Lazy (p : N -> bool)        (* [p]*? lazy *)
| Grp (r : regex)             (* ( r ), the capture slot *)
| Dollar.                     (* $ without MULTILINE *)

Definition Plus (p : N -> bool) : regex := Cat (Cls p) (Star p).
Definition Chr (c : N) : regex := Cls (N.eqb c).
Definition Lit (s : str) : regex := foldr (fun c r => Cat (Chr c) r) Eps s.

(** [ [p]{2,} ] and [ [p]{3,} ] *)
Definition AtLeast2 (p : N -> bool) : regex := Cat (Cls p) (Plus p).
Definition AtLeast3 (p : N -> bool) : regex := Cat (Cls p) (AtLeast2 p).

(** A literal character under [re.IGNORECASE]: sre lowers the pattern's
    character and the text's one, and looks the latter up in the case-fix
    set of the former.  For an ASCII letter this set holds the letter, its
    capital, and for i, s and k the code points U+0130, U+0131, U+017F and
    U+212A. *)
Definition ascii_lower (c : N) : N := if is_upper c then c + 32 else c.

Definition ci (l c : N) : bool :=
  let lo := ascii_lower l in
  (c =? lo) || (is_lower lo && (c =? lo - 32))
  || ((lo =? 0x69) && ((c =? 0x130) || (c =? 0x131)))
  || ((lo =? 0x73) && (c =? 0x17F))
  || ((lo =? 0x6B) && (c =? 0x212A)).

Definition LitI (s : str) : regex := foldr (fun c r => Cat (Cls (ci c)) r) Eps s.

(** The result of a successful attempt: the captured group and the text
    left after the match. *)
Abbreviation capture := (option (list N)).
Abbreviation outcome := (option (option (list N) * list N)).

Fixpoint star (k : list N -> capture -> outcome) (p : N -> bool)
    (s : str) (g : capture) : outcome :=
  match s with
  | c :: s' =>
      if p c then
        match star k p s' g with
        | Some x => Some x
        | None => k s g
        end
      else k s g
  | [] => k [] g
  end.

Fixpoint lazy (k : list N -> capture -> outcome) (p : N -> bool)
    (s : str) (g : capture) : outcome :=
  match k s g with
  | Some x => Some x
  | None =>
      match s with
      | c :: s' => if p c then lazy k p s' g else None
      | [] => None
      end
  end.

(** [$]: the end of the text, or just before a final newline. *)
Definition at_end (s : str) : bool :=
  match s with
  | [] => true
  | [c] => c =? LF
  | _ => false
  end.

(** [run r k s g]: match [r] at the head of [s], then continue with [k];
    alternatives are tried in Python's order and the first success wins. *)
Fixpoint run (r : regex) (k : list N -> capture -> outcome)
    (s : str) (g : capture) : outcome :=
  match r with
  | Eps => k s g
  | Cls p =>
      match s with
      | c :: s' => if p c then k s' g else None
      | [] => None
      end
  | Cat a b => run a (run b k) s g
  | Opt a =>
      match run a k s g with
      | Some x => Some x
      | None => k s g
      end
  | Star p => star k p s g
  | Lazy p => lazy k p s g
  | Grp a =>
      run a (fun s' _ => k s' (Some (take (length s - length s')%nat s))) s g
  | Dollar => if at_end s then k s g else None
  end.

Definition accept : list N -> capture -> outcome := fun s g => Some (g, s).

(** [pattern.match(s)]: an attempt anchored at the head of [s]. *)
Definition match_at (r : regex) (s : str) : outcome := run r accept s None.

(** One match object: the captured group and the matched text. *)
Record hit := Hit { hit_group : capture; hit_text : str }.

(** [match.group(1)] / [match.group("line")] *)
Definition group (h : hit) : str := default [] (hit_group h).

(** [pattern.search(s)]: the leftmost match. *)
Fixpoint search (r : regex) (s : str) : option hit :=
  match match_at r s with
  | Some (g, rest) => Some (Hit g (take (length s - length rest)%nat s))
  | None =>
      match s with
      | [] => None
      | _ :: s' => search r s'
      end
  end.

Definition found (r : regex) (s : str) : bool := bool_decide (is_Some (search r s)).

(** The left-to-right scan behind [finditer] and [sub]: the text is cut
    into copied characters and non-overlapping matches.  After an empty
    match the scan copies one character and goes on, as [re] does; the
    fuel [S (length s)] covers every position of the text. *)
Inductive piece :=
| Copy (c : N)
| Match (h : hit).

Fixpoint scan_fuel (fuel : nat) (r : regex) (s : str) : list piece :=
  match fuel with
  | O => []
  | S fuel' =>
      let step :=
        match s with
        | [] => []
        | c :: s' => Copy c :: scan_fuel fuel' r s'
        end in
      match match_at r s with
      | Some (g, rest) =>
          match (length s - length rest)%nat with
          | O => Match (Hit g []) :: step
          | n => Match (Hit g (take n s)) :: scan_fuel fuel' r rest
          end
      | None => step
      end
  end.

Definition scan (r : regex) (s : str) : list piece :=
  scan_fuel (S (length s)) r s.

Definition hit_of (p : piece) : option hit :=
  match p with
  | Match h => Some h
  | Copy _ => None
  end.

(** [pattern.finditer(s)] *)
Definition finditer (r : regex) (s : str) : list hit := omap hit_of (scan r s).

(** [pattern.sub(repl, s)] with a callable replacement. *)
Definition render (repl : hit -> str) (p : piece) : str :=
  match p with
  | Copy c => [c]
  | Match h => repl h
  end.

Definition sub (r : regex) (repl : hit -> str) (s : str) : str :=
  concat (List.map (render repl) (scan r s)).

(** [re.sub(pattern, '', s)] *)
Definition remove (r : regex) (s : str) : str := sub r (fun _ => []) s.

(** ** Glossary entries, requests and the environment *)

(** One glossary entry: a flat JSON object, as [json.load] returns it. *)
Abbreviation entry := (gmap (list N) (list N)).

(** [entry.get(key, '')] *)
Definition get (e : entry) (key : str) : str := default [] (e !! key).

(** The request sent to the service: the selected glossary subsets and the
    raw batch content, under a fixed instruction text. *)
Record prompt := Prompt {
  prompt_translations : list entry;
  prompt_sounds : list entry;
  prompt_content : str
}.

(** What one call of [client.chat.completions.create] does: it raises, or
    it returns the message content. *)
Inductive reply :=
| TransportFailure
| Content (text : str).

(** What the program takes from outside the repository. *)
Class environment := Environment {
  (** [unicodedata.decimal]: the value of a code point of category Nd;
      the class [\d] of [re] and [int] read it. *)
  decimal : N -> option N;
  (** The answer of the service to the n-th request sent. *)
  service : nat -> prompt -> reply;
  (** [random.sample(population, k)], [random.shuffle] and
      [random.choice] at the n-th draw. *)
  random_sample : nat -> list entry -> nat -> list entry;
  random_shuffle : nat -> list entry -> list entry;
  random_choice : nat -> list entry -> entry;
  (** The dictionary part of [parse_response], which needs a JSON decoder:
      the new translation entries, the new sound entries, and the offset
      [sound_end] at which the last dictionary block consumed ends. *)
  dictionary_blocks : str -> list entry * list entry * nat;
  (** The statements of the per-batch [try] that come before the inner
      [try], for the n-th batch handled: the glossaries are loaded, the
      entries selected, the prompt built and the request file written
      ([with open(request_file, 'w', encoding='utf-8') as f:
      f.write(prompt)]).  On glossaries of the entry type only the file
      operations can fail; the field tells whether they go through.
      Otherwise the statement raises and the handler of the per-batch
      [try] ends the batch. *)
  request_saved : nat -> prompt -> bool
}.

(** An environment for examples: ASCII digits, a service that echoes the
    batch, draws that take the first elements, no dictionary block. *)
Definition ascii_decimal (c : N) : option N :=
  if is_ascii_digit c then Some (c - 0x30) else None.

Definition echo_environment : environment := {|
  decimal := ascii_decimal;
  service := fun _ p => Content (prompt_content p);
  random_sample := fun _ population k => take k population;
  random_shuffle := fun _ population => population;
  random_choice := fun _ population => default ∅ (head population);
  dictionary_blocks := fun _ => ([], [], O);
  request_saved := fun _ _ => true
|}.

(** ** The tagged-line patterns *)

Definition QUOTE : N := 0x22.
Definition APOSTROPHE : N := 0x27.
Definition BACKSLASH : N := 0x5C.

Definition is_quote (c : N) : bool := (c =? QUOTE) || (c =? APOSTROPHE).
Definition any_char (c : N) : bool := true.
Definition not_gt (c : N) : bool := negb (c =? 0x3E).
Definition not_space (c : N) : bool := negb (isspace c).

(** [(?:\\?[\x22'])?], with \x22 for the double quote *)
Definition OPTIONAL_QUOTE : regex := Opt (Cat (Opt (Chr BACKSLASH)) (Cls is_quote)).

Section Patterns.
Context {E : environment}.

(** [\d] *)
Definition isdecimal (c : N) : bool := bool_decide (is_Some (decimal c)).

(** [int(digits)] on a text of decimal digits.  The conversion raises
    ValueError when the text has more digits than the interpreter's limit
    [sys.get_int_max_str_digits()], which is 4300 and which the program
    does not change ([int_raises]; leading zeros count); otherwise it
    returns the number the digits denote ([int]).  Every caller of [int]
    below comes with the test of [int_raises]. *)
Definition INT_MAX_STR_DIGITS : nat := 4300.

Definition int_raises (digits : str) : bool := (INT_MAX_STR_DIGITS <? length digits)%nat.

Definition int (digits : str) : Z :=
  fold_left (fun acc c => (10 * acc + Z.of_N (default 0%N (decimal c)))%Z) digits 0%Z.

(** [data-line\s*=\s*(?:\\?[\x22'])?(?P<line>\d+)(?:\\?[\x22'])?], IGNORECASE *)
Definition DATA_LINE_ATTR_PATTERN : regex :=
  Cat (LitI (py "data-line"))
 (Cat (Star isspace)
 (Cat (Chr 0x3D)
 (Cat (Star isspace)
 (Cat OPTIONAL_QUOTE
 (Cat (Grp (Plus isdecimal))
      OPTIONAL_QUOTE))))).

(** [<p[^>]*data-line\s*=\s*(?:\\?[\x22'])?(?P<line>\d+)(?:\\?[\x22'])?[^>]*>.*?</p>],
    DOTALL | IGNORECASE *)
Definition P_TAG_WITH_LINE_PATTERN : regex :=
  Cat (LitI (py "<p"))
 (Cat (Star not_gt)
 (Cat DATA_LINE_ATTR_PATTERN
 (Cat (Star not_gt)
 (Cat (Chr 0x3E)
 (Cat (Lazy any_char)
      (LitI (py "</p>"))))))).

(** The canonical attribute [data-line="N"]. *)
Definition canonical (digits : str) : str :=
  py "data-line=" ++ [QUOTE] ++ digits ++ [QUOTE].

Definition normalize_data_line_attribute (text : str) : str :=
  sub DATA_LINE_ATTR_PATTERN (fun m => canonical (group m)) text.

(** [extract_line_number]: the identity token, or -1; the call raises
    when [int] does ([extract_line_number_raises]). *)
Definition extract_line_number (line : str) : Z :=
  match search DATA_LINE_ATTR_PATTERN line with
  | Some m => int (group m)
  | None => (-1)%Z
  end.

Definition extract_line_number_raises (line : str) : bool :=
  match search DATA_LINE_ATTR_PATTERN line with
  | Some m => int_raises (group m)
  | None => false
  end.

End Patterns.

(** [<p[^>]*>(.*?)</p>], DOTALL *)
Definition P_TEXT_PATTERN : regex :=
  Cat (Lit (py "<p"))
 (Cat (Star not_gt)
 (Cat (Chr 0x3E)
 (Cat (Grp (Lazy any_char))
      (Lit (py "</p>"))))).

Definition extract_text_from_tags (line : str) : str :=
  match search P_TEXT_PATTERN line with
  | Some m => group m
  | None => []
  end.

(** [https?://[^\s]+], [www\.[^\s]+] and the e-mail pattern
    [[a-zA-Z0-9._%+-]+@[a-zA-Z0-9.-]+\.[a-zA-Z]{2,}] *)
Definition URL_PATTERN : regex :=
  Cat (Lit (py "http")) (Cat (Opt (Chr 0x73)) (Cat (Lit (py "://")) (Plus not_space))).

Definition WWW_PATTERN : regex := Cat (Lit (py "www.")) (Plus not_space).

Definition is_local_part (c : N) : bool :=
  is_alpha c || is_ascii_digit c
  || (c =? 0x2E) || (c =? 0x5F) || (c =? 0x25) || (c =? 0x2B) || (c =? 0x2D).

Definition is_domain_part (c : N) : bool :=
  is_alpha c || is_ascii_digit c || (c =? 0x2E) || (c =? 0x2D).

Definition EMAIL_PATTERN : regex :=
  Cat (Plus is_local_part)
 (Cat (Chr 0x40)
 (Cat (Plus is_domain_part)
 (Cat (Chr 0x2E)
      (AtLeast2 is_alpha)))).

(** The character classes of the language predicates. *)
Definition is_kana (c : N) : bool := in_range 0x3040 0x309F c || in_range 0x30A0 0x30FF c.
Definition is_cjk (c : N) : bool := in_range 0x4E00 0x9FFF c.
Definition is_cjk_blank (c : N) : bool :=
  isspace c || in_range 0x3000 0x303F c || in_range 0xFF00 0xFFEF c.

(** [is_pure_chinese]: only ideographs once blanks and full-width
    punctuation are removed. *)
Definition is_pure_chinese (text : str) : bool :=
  let cleaned := remove (Cls is_cjk_blank) text in
  match cleaned with
  | [] => false
  | _ => bool_decide (is_Some (match_at (Cat (Plus is_cjk) Dollar) cleaned))
  end.

(** [sep.join(parts)] *)
Fixpoint join (sep : str) (parts : list str) : str :=
  match parts with
  | [] => []
  | [p] => p
  | p :: parts' => p ++ sep ++ join sep parts'
  end.

(** [s.split(sep, 1)[1]] when [sep in s]: the text after the first
    occurrence of [sep]. *)
Fixpoint after_first (sep s : str) : option str :=
  if is_prefix sep s then Some (drop (length sep) s)
  else
    match s with
    | [] => None
    | _ :: s' => after_first sep s'
    end.

(** The keys of the glossary entries. *)
Definition KEY_JP : str := py "jp".
Definition KEY_EN : str := py "en".
Definition KEY_ZH : str := py "zh".
Definition KEY_SOUND_JP : str := py "sound_jp".
Definition KEY_SOUND_ZH : str := py "sound_zh".

(** The section divider of the prompt, U+539F U+6587 U+5167 U+5BB9 and a
    colon. *)
Definition DIVIDER : str := [0x539F; 0x6587; 0x5167; 0x5BB9; 0x3A].

(** The code fences removed by [parse_response]. *)
Definition FENCE : str := py "```".
Definition FENCE_JSON : regex := Cat (Lit (FENCE ++ py "json")) (Star isspace).
Definition FENCE_HTML : regex := Cat (Lit (FENCE ++ py "html")) (Star isspace).
Definition FENCE_ANY : regex := Cat (Lit FENCE) (Star isspace).

Definition strip_fences (response_text : str) : str :=
  remove FENCE_ANY (remove FENCE_HTML (remove FENCE_JSON response_text)).

(** The refusal phrases: two apologies, one plain phrase and three English
    ones, searched with IGNORECASE. *)
Definition SORRY : str := [0x62B1; 0x6B49].
Definition CANNOT_HELP : str := [0x6211; 0x7121; 0x6CD5; 0x5354; 0x52A9].
Definition MAY_NOT_HELP : str := [0x6211; 0x4E0D; 0x80FD; 0x5354; 0x52A9].
Definition CANNOT_SATISFY : str := [0x7121; 0x6CD5; 0x5354; 0x52A9; 0x6EFF; 0x8DB3].

Definition english_refusals : list regex :=
  [ LitI (py "I cannot assist");
    LitI (py "I'm unable to");
    LitI (py "I can't help") ].

Section Parsing.
Context {E : environment}.

(** The tail of [parse_response]: the text after the last dictionary
    block, cut at the divider, and reduced to its tagged lines when it has
    some.  ([sound_end] starts at [dict_end], so the branch on [dict_end]
    alone is never taken with a different offset.) *)
Definition translated_part (response_text : str) (sound_end : nat) : str :=
  let translated_content :=
    if (0 <? sound_end)%nat then strip (drop sound_end response_text)
    else response_text in
  let translated_content :=
    match after_first DIVIDER translated_content with
    | Some tail => strip tail
    | None => translated_content
    end in
  let p_tags :=
    List.map (fun m => normalize_data_line_attribute (hit_text m))
      (finditer P_TAG_WITH_LINE_PATTERN translated_content) in
  match p_tags with
  | [] => translated_content
  | _ => join [LF] p_tags
  end.

End Parsing.

(** ** The Japanese-to-Chinese program *)

Module JP.

Definition is_japanese (text : str) : bool :=
  found (Cls (fun c => is_kana c || is_cjk c)) text.

Definition has_english_or_japanese (text : str) : bool :=
  if found (Cls is_kana) text then true
  else
    let text_clean := remove URL_PATTERN text in
    let text_clean := remove EMAIL_PATTERN text_clean in
    found (AtLeast2 is_alpha) text_clean.

Definition valid_pair (jp zh : str) : bool :=
  let jp_text := strip jp in
  let zh_text := strip zh in
  match jp_text, zh_text with
  | [], _ | _, [] => false
  | _, _ =>
      if negb (is_japanese jp_text) then false
      else if negb (is_pure_chinese zh_text) then false
      else if has_english_or_japanese zh_text then false
      else true
  end.

Definition validate_translation_entry (e : entry) : bool :=
  match e !! KEY_JP, e !! KEY_ZH with
  | Some jp, Some zh => valid_pair jp zh
  | _, _ => false
  end.

Definition validate_sound_entry (e : entry) : bool :=
  match e !! KEY_SOUND_JP, e !! KEY_SOUND_ZH with
  | Some jp, Some zh => valid_pair jp zh
  | _, _ => false
  end.

(** [merge_dictionaries]: one turn of the loop over [new], on the pair
    ([merged], [existing_jp]). *)
Definition merge_step (acc : list entry * gset (list N)) (item : entry)
    : list entry * gset (list N) :=
  let '(merged, existing_jp) := acc in
  if validate_translation_entry item then
    if bool_decide (get item KEY_JP ∈ existing_jp) then acc
    else (merged ++ [item], existing_jp ∪ {[ get item KEY_JP ]})
  else acc.

Definition merge_dictionaries (original new : list entry) : list entry :=
  let existing_jp : gset (list N) := list_to_set (omap (fun item => item !! KEY_JP) original) in
  fst (foldl merge_step (original, existing_jp) new).

Definition merge_sound_step (acc : list entry * gset (list N)) (item : entry)
    : list entry * gset (list N) :=
  let '(merged, existing_jp) := acc in
  if validate_sound_entry item then
    if bool_decide (get item KEY_SOUND_JP ∈ existing_jp) then acc
    else (merged ++ [item], existing_jp ∪ {[ get item KEY_SOUND_JP ]})
  else acc.

Definition merge_sound_dictionaries (original new : list entry) : list entry :=
  let existing_jp : gset (list N) :=
    list_to_set (omap (fun item => item !! KEY_SOUND_JP) original) in
  fst (foldl merge_sound_step (original, existing_jp) new).

(** [sort_by_gojuon]: a stable sort on the key (rank of the first kana,
    text), katakana first folded onto hiragana. *)
Definition gojuon_order : list N :=
  [ 0x3042; 0x3044; 0x3046; 0x3048; 0x304A;
    0x304B; 0x304D; 0x304F; 0x3051; 0x3053; 0x304C; 0x304E; 0x3050; 0x3052; 0x3054;
    0x3055; 0x3057; 0x3059; 0x305B; 0x305D; 0x3056; 0x3058; 0x305A; 0x305C; 0x305E;
    0x305F; 0x3061; 0x3064; 0x3066; 0x3068; 0x3060; 0x3062; 0x3065; 0x3067; 0x3069;
    0x306A; 0x306B; 0x306C; 0x306D; 0x306E;
    0x306F; 0x3072; 0x3075; 0x3078; 0x307B; 0x3070; 0x3073; 0x3076; 0x3079; 0x307C;
    0x3071; 0x3074; 0x3077; 0x307A; 0x307D;
    0x307E; 0x307F; 0x3080; 0x3081; 0x3082;
    0x3084; 0x3086; 0x3088;
    0x3089; 0x308A; 0x308B; 0x308C; 0x308D;
    0x308F; 0x3092; 0x3093 ].

Fixpoint index_of (c : N) (l : list N) : option nat :=
  match l with
  | [] => None
  | x :: l' => if x =? c then Some O else S <$> index_of c l'
  end.

Definition get_sort_key (item : entry) : nat * str :=
  let text := get item KEY_SOUND_JP in
  match text with
  | [] => (999%nat, text)
  | first_char :: _ =>
      let first_char :=
        if in_range 0x30A0 0x30FF first_char then first_char - 0x60 else first_char in
      match index_of first_char gojuon_order with
      | Some index => (index, text)
      | None => (999%nat, text)
      end
  end.

(** [a <= b] on strings: the order of the code points. *)
Fixpoint str_le (a b : str) : bool :=
  match a, b with
  | [], _ => true
  | _ :: _, [] => false
  | x :: a', y :: b' => (x <? y) || ((x =? y) && str_le a' b')
  end.

Definition key_le (a b : nat * str) : bool :=
  (fst a <? fst b)%nat || ((fst a =? fst b)%nat && str_le (snd a) (snd b)).

Fixpoint insert_by_key (item : entry) (sorted : list entry) : list entry :=
  match sorted with
  | [] => [item]
  | x :: sorted' =>
      if key_le (get_sort_key x) (get_sort_key item)
      then x :: insert_by_key item sorted'
      else item :: sorted
  end.

Definition sort_by_gojuon (sound_dict : list entry) : list entry :=
  foldl (fun sorted item => insert_by_key item sorted) [] sound_dict.

Definition contains_japanese (text : str) : bool := found (Cls is_kana) text.

Definition contains_english (text : str) : bool :=
  let text_without_urls := remove URL_PATTERN text in
  let text_without_urls := remove WWW_PATTERN text_without_urls in
  let text_without_emails := remove EMAIL_PATTERN text_without_urls in
  found (AtLeast3 is_lower) text_without_emails.

Definition source_detected (text_content : str) : bool :=
  contains_japanese text_content || contains_english text_content.

Definition needs_translation (line : str) : bool :=
  let text_content := extract_text_from_tags line in
  match text_content, strip text_content with
  | [], _ | _, [] => false
  | _, _ => source_detected text_content
  end.

Definition refusal_patterns : list regex :=
  [ Cat (Lit SORRY) (Cat (Cls (fun c => (c =? 0x2C) || (c =? 0xFF0C))) (Lit CANNOT_HELP));
    Cat (Lit SORRY) (Cat (Cls (fun c => (c =? 0x2C) || (c =? 0xFF0C))) (Lit MAY_NOT_HELP));
    Lit CANNOT_SATISFY ] ++ english_refusals.

Definition is_refusal_response (response_text : str) : bool :=
  existsb (fun pattern => found pattern response_text) refusal_patterns.

Section Selection.
Context {E : environment}.

(** The first loop of [select_relevant_translations], on the pair
    ([relevant], [seen_jp]). *)
Definition relevant_step (batch_text batch_raw : str)
    (acc : list entry * gset (list N)) (e : entry) : list entry * gset (list N) :=
  let '(relevant, seen_jp) := acc in
  if negb (validate_translation_entry e) then acc
  else
    let jp_value := strip (get e KEY_JP) in
    if bool_decide (jp_value = []) || bool_decide (jp_value ∈ seen_jp) then acc
    else if contains jp_value batch_text || contains jp_value batch_raw
    then (relevant ++ [e], seen_jp ∪ {[ jp_value ]})
    else acc.

(** The entries the second loop collects into [remaining]. *)
Definition is_remaining (seen_jp : gset (list N)) (e : entry) : bool :=
  validate_translation_entry e
  && negb (bool_decide (strip (get e KEY_JP) = []))
  && negb (bool_decide (strip (get e KEY_JP) ∈ seen_jp)).

Definition select_relevant_translations (draw : nat) (batch_lines : list str)
    (all_translations : list entry) (target_count : nat) : list entry :=
  match all_translations with
  | [] => []
  | _ =>
      let batch_raw := concat batch_lines in
      let batch_text := concat (List.map extract_text_from_tags batch_lines) in
      let '(relevant, seen_jp) :=
        foldl (relevant_step batch_text batch_raw) ([], ∅) all_translations in
      if (length relevant <? target_count)%nat then
        let remaining := List.filter (is_remaining seen_jp) all_translations in
        match remaining with
        | [] => relevant
        | _ =>
            let needed := Nat.min (target_count - length relevant) (length remaining) in
            if (0 <? needed)%nat
            then relevant ++ random_sample draw remaining needed
            else relevant
        end
      else relevant
  end.

Definition select_relevant_sounds (draw : nat) (batch_lines : list str)
    (all_sounds : list entry) (min_count : nat) : list entry :=
  let batch_text := concat batch_lines in
  let relevant :=
    List.filter (fun sound =>
      let sound_jp := get sound KEY_SOUND_JP in
      negb (bool_decide (sound_jp = [])) && contains sound_jp batch_text) all_sounds in
  if (length relevant <? min_count)%nat && (0 <? length all_sounds)%nat then
    let remaining := List.filter (fun s => negb (bool_decide (s ∈ relevant))) all_sounds in
    let needed := Nat.min (min_count - length relevant) (length remaining) in
    relevant ++ random_sample draw remaining needed
  else relevant.

Definition create_prompt (lines : list str) (translation_dict sound_dict : list entry)
    : prompt :=
  Prompt translation_dict sound_dict (concat lines).

(** The request of one batch, as [process_file] builds it. *)
Definition build_request (draw : nat) (batch_lines : list str)
    (translation_dict_full sound_dict_global : list entry) : prompt :=
  let relevant_translations :=
    select_relevant_translations (2 * draw) batch_lines translation_dict_full 5 in
  let relevant_sounds :=
    select_relevant_sounds (2 * draw + 1) batch_lines sound_dict_global 3 in
  create_prompt batch_lines relevant_translations relevant_sounds.

Definition parse_response (response_text : str) : list entry * list entry * str :=
  let response_text := strip_fences response_text in
  let '(translation_dict, sound_dict, sound_end) := dictionary_blocks response_text in
  (translation_dict, sound_dict, translated_part response_text sound_end).

End Selection.

End JP.

(** ** The English-to-Chinese program *)

Module EN.

Definition has_english (text : str) : bool :=
  let text_clean := remove URL_PATTERN text in
  let text_clean := remove EMAIL_PATTERN text_clean in
  found (AtLeast2 is_alpha) text_clean.

Definition valid_pair (en zh : str) : bool :=
  let en_text := strip en in
  let zh_text := strip zh in
  match en_text, zh_text with
  | [], _ | _, [] => false
  | _, _ =>
      if negb (is_pure_chinese zh_text) then false
      else if has_english zh_text then false
      else true
  end.

Definition validate_translation_entry (e : entry) : bool :=
  match e !! KEY_EN, e !! KEY_ZH with
  | Some en, Some zh => valid_pair en zh
  | _, _ => false
  end.

Definition merge_step (acc : list entry * gset (list N)) (item : entry)
    : list entry * gset (list N) :=
  let '(merged, existing_en) := acc in
  if validate_translation_entry item then
    if bool_decide (get item KEY_EN ∈ existing_en) then acc
    else (merged ++ [item], existing_en ∪ {[ get item KEY_EN ]})
  else acc.

Definition merge_dictionaries (original new : list entry) : list entry :=
  let existing_en : gset (list N) := list_to_set (omap (fun item => item !! KEY_EN) original) in
  fst (foldl merge_step (original, existing_en) new).

Definition contains_english (text : str) : bool :=
  let text_without_urls := remove URL_PATTERN text in
  let text_without_urls := remove WWW_PATTERN text_without_urls in
  let text_without_emails := remove EMAIL_PATTERN text_without_urls in
  found (AtLeast3 is_alpha) text_without_emails.

Definition needs_translation (line : str) : bool :=
  let text_content := extract_text_from_tags line in
  match text_content, strip text_content with
  | [], _ | _, [] => false
  | _, _ => contains_english text_content
  end.

Definition refusal_patterns : list regex :=
  [ Cat (Lit SORRY) (Cat (Chr 0x2C) (Lit CANNOT_HELP));
    Cat (Lit SORRY) (Cat (Chr 0x2C) (Lit MAY_NOT_HELP));
    Lit CANNOT_SATISFY ] ++ english_refusals.

Definition is_refusal_response (response_text : str) : bool :=
  existsb (fun pattern => found pattern response_text) refusal_patterns.

Section Selection.
Context {E : environment}.

(** The loop of [create_prompt] over the batch lines, on the pair
    ([selected_entries], [used_en]). *)
Definition lookup_step (en_lookup : gmap (list N) entry)
    (acc : list entry * gset (list N)) (line : str) : list entry * gset (list N) :=
  let '(selected_entries, used_en) := acc in
  let text_content := strip (extract_text_from_tags line) in
  match text_content with
  | [] => acc
  | _ =>
      match en_lookup !! text_content with
      | Some e =>
          if bool_decide (get e KEY_EN ∈ used_en) then acc
          else (selected_entries ++ [e], used_en ∪ {[ get e KEY_EN ]})
      | None => acc
      end
  end.

(** The glossary subset [create_prompt] serializes into the request. *)
Definition selected_entries (draw : nat) (lines : list str)
    (translation_dict : list entry) : list entry :=
  let valid_entries := List.filter validate_translation_entry translation_dict in
  let en_lookup : gmap (list N) entry :=
    foldl (fun m e => <[ strip (get e KEY_EN) := e ]> m) ∅ valid_entries in
  let '(selected, used_en) := foldl (lookup_step en_lookup) ([], ∅) lines in
  if (length selected <? 5)%nat && negb (bool_decide (valid_entries = [])) then
    let remaining :=
      List.filter (fun e => negb (bool_decide (get e KEY_EN ∈ used_en))) valid_entries in
    let shuffled := random_shuffle draw remaining in
    (* remaining.pop() takes from the end *)
    let selected := selected ++ take (5 - length selected) (rev shuffled) in
    (* random.choice pads what is still missing *)
    selected ++
      List.map (fun i => random_choice (draw + i) valid_entries)
        (seq 0 (5 - length selected))
  else selected.

Definition create_prompt (draw : nat) (lines : list str) (translation_dict : list entry)
    : prompt :=
  Prompt (selected_entries draw lines translation_dict) [] (concat lines).

Definition build_request (draw : nat) (batch_lines : list str)
    (translation_dict sound_dict_global : list entry) : prompt :=
  create_prompt draw batch_lines translation_dict.

(** This program has no sound dictionary: its parser returns none. *)
Definition parse_response (response_text : str) : list entry * list entry * str :=
  let response_text := strip_fences response_text in
  let '(translation_dict, _, dict_end) := dictionary_blocks response_text in
  (translation_dict, [], translated_part response_text dict_end).

End Selection.

End EN.

(** ** The file orchestrator *)

Inductive tracker_status := Waiting | Processing | Completed | Failed | Skipped.

(** One entry of [progress_tracker]. *)
Record progress := Progress {
  pg_total : nat;
  pg_translation_total : nat;
  pg_skipped : nat;
  pg_success : nat;
  pg_failed : nat;
  pg_pending : nat;
  pg_dict_count : nat;
  pg_status : tracker_status
}.

Inductive file_status := FileSuccess | FilePartial | FileFailed | FileSkipped.

(** The dictionary [process_file] returns. *)
Record result := Result {
  res_total_lines : nat;
  res_source_lines : nat;
  res_success : nat;
  res_failed : nat;
  res_status : file_status
}.

(** What the program does to the outside, in order. *)
Inductive event :=
| ApiRequest (n : nat) (p : prompt)
| Backoff (seconds : N)
| ParserCall (response_text : str)
| RequestArtifact
| ResponseArtifact
| RefusalArtifact
| FailureArtifact
| GlossarySaved
| SoundSaved
| DocumentWritten
| PlainTextExported.

(** The files and shared state one run of [process_file] touches. *)
Record world := World {
  document : option str;          (* the text file; None when it cannot be read *)
  glossary_file : list entry;     (* what load_translation_dictionary returns *)
  sound_file : list entry;        (* what load_sound_dictionary returns *)
  tracker : option progress;      (* progress_tracker.get(filename) *)
  requests : nat;                 (* requests sent so far *)
  draws : nat;                    (* batches that drew random numbers so far *)
  trace : list event
}.

Definition log (ev : event) (w : world) : world :=
  World (document w) (glossary_file w) (sound_file w) (tracker w)
        (requests w) (draws w) (trace w ++ [ev]).

Definition set_document (content : str) (w : world) : world :=
  World (Some content) (glossary_file w) (sound_file w) (tracker w)
        (requests w) (draws w) (trace w).

Definition set_glossary_file (d : list entry) (w : world) : world :=
  World (document w) d (sound_file w) (tracker w) (requests w) (draws w) (trace w).

Definition set_sound_file (d : list entry) (w : world) : world :=
  World (document w) (glossary_file w) d (tracker w) (requests w) (draws w) (trace w).

Definition set_tracker (t : option progress) (w : world) : world :=
  World (document w) (glossary_file w) (sound_file w) t (requests w) (draws w) (trace w).

Definition count_request (w : world) : world :=
  World (document w) (glossary_file w) (sound_file w) (tracker w)
        (S (requests w)) (draws w) (trace w).

Definition count_draw (w : world) : world :=
  World (document w) (glossary_file w) (sound_file w) (tracker w)
        (requests w) (S (draws w)) (trace w).

(** [f.readlines()] in text mode: a line ends after LF, CR LF or CR, and
    every line end is read as LF. *)
Fixpoint readlines_from (current : str) (s : str) : list str :=
  match s with
  | [] =>
      match current with
      | [] => []
      | _ => [rev current]
      end
  | c :: s' =>
      if c =? LF then rev (LF :: current) :: readlines_from [] s'
      else if c =? CR then
        match s' with
        | c' :: s'' =>
            if c' =? LF then rev (LF :: current) :: readlines_from [] s''
            else rev (LF :: current) :: readlines_from [] s'
        | [] => [rev (LF :: current)]
        end
      else readlines_from (c :: current) s'
  end.

Definition readlines (content : str) : list str := readlines_from [] content.

(** [f.writelines(lines)] *)
Definition writelines (lines : list str) : str := concat lines.

(** [init_progress], [update_progress], [complete_progress] and
    [update_dict_count]. *)
Definition init_progress (total_lines translation_lines : nat) (w : world) : world :=
  set_tracker
    (Some (Progress total_lines translation_lines (total_lines - translation_lines)
             0 0 translation_lines 0 Processing)) w.

Definition update_progress (success failed pending : nat) (w : world) : world :=
  match tracker w with
  | Some p =>
      set_tracker
        (Some (Progress (pg_total p) (pg_translation_total p) (pg_skipped p)
                 success failed pending (pg_dict_count p)
                 (match pg_status p with Waiting => Processing | s => s end))) w
  | None => w
  end.

Definition complete_progress (status : tracker_status) (w : world) : world :=
  match tracker w with
  | Some p =>
      set_tracker
        (Some (Progress (pg_total p) (pg_translation_total p) (pg_skipped p)
                 (pg_success p) (pg_failed p) (pg_pending p) (pg_dict_count p) status)) w
  | None => w
  end.

Definition update_dict_count (count : nat) (w : world) : world :=
  match tracker w with
  | Some p =>
      set_tracker
        (Some (Progress (pg_total p) (pg_translation_total p) (pg_skipped p)
                 (pg_success p) (pg_failed p) (pg_pending p) count (pg_status p))) w
  | None => w
  end.

(** The two programs as instances of one orchestrator. *)
Record variant := Variant {
  needs_translation : str -> bool;
  source_detected : str -> bool;
  is_refusal_response : str -> bool;
  build_request : nat -> list str -> list entry -> list entry -> prompt;
  parse_response : str -> list entry * list entry * str;
  merge_dictionaries : list entry -> list entry -> list entry
}.

(** How a call ends: with a value, or with an exception. *)
Inductive completion :=
| Returns (text : str)
| Raises.

(** The local variables of [process_file] that live across batches.
    ([result['success']] and [result['failed']] are incremented together
    with [total_success] and [total_failed] and always equal them.) *)
Record locals := Locals {
  lines : list str;
  translation_dict_full : list entry;
  total_success : nat;
  total_failed : nat
}.

(** [l[start:stop]] *)
Definition slice {A} (start stop : nat) (l : list A) : list A :=
  take (stop - start) (drop start l).

Section Orchestrator.
Context {E : environment}.
Variable V : variant.
Variable batch_size : nat.

(** [call_grok_api]: the attempts of [range(max_retries)] still to make. *)
Fixpoint call_attempts (attempts : list nat) (max_retries : nat) (p : prompt)
    (w : world) : completion * world :=
  match attempts with
  | [] => (Returns [], w)
  | attempt :: later =>
      let w := if (0 <? attempt)%nat then log (Backoff (2 ^ N.of_nat attempt)) w else w in
      let answer := service (requests w) p in
      let w := count_request (log (ApiRequest (requests w) p) w) in
      match answer with
      | Content text => (Returns text, w)
      | TransportFailure =>
          if (attempt =? max_retries - 1)%nat then (Raises, w)
          else call_attempts later max_retries p w
      end
  end.

Definition call_grok_api (p : prompt) (max_retries : nat) (w : world)
    : completion * world :=
  call_attempts (seq 0 max_retries) max_retries p w.

(** [get_translation_lines]: (index, line, identity token) of every line
    that needs translation.  The call raises when [extract_line_number]
    does on one of these lines ([get_translation_lines_raises]). *)
Definition get_translation_lines (lines : list str) : list (nat * str * Z) :=
  omap (fun '(idx, line) =>
          if needs_translation V line
          then Some (idx, line, extract_line_number line)
          else None)
       (imap pair lines).

Definition get_translation_lines_raises (lines : list str) : bool :=
  existsb (fun line => needs_translation V line && extract_line_number_raises line) lines.

(** The loop that fills [line_translation_map]; it raises when [int] does
    on the token of a unit ([line_translation_map_raises]). *)
Definition line_translation_map (translated_content : str) : gmap Z (list N) :=
  foldl (fun m h => <[ int (group h) := normalize_data_line_attribute (hit_text h) ]> m)
        ∅ (finditer P_TAG_WITH_LINE_PATTERN translated_content).

Definition line_translation_map_raises (translated_content : str) : bool :=
  existsb (fun h => int_raises (group h))
    (finditer P_TAG_WITH_LINE_PATTERN translated_content).

(** [if not translated_line.endswith('\n'): translated_line += '\n'] *)
Definition with_newline (translated_line : str) : str :=
  if endswith translated_line [LF] then translated_line else translated_line ++ [LF].

(** One turn of the reinsertion loop, on ([lines], [batch_success],
    [batch_failed]).  The index comes from [enumerate], so the list update
    is always in range. *)
Definition reinsert_step (map : gmap Z (list N))
    (acc : list str * nat * nat) (item : nat * str * Z) : list str * nat * nat :=
  let '(lines, batch_success, batch_failed) := acc in
  let '(original_idx, _, html_line_num) := item in
  if (html_line_num =? -1)%Z then acc
  else
    match map !! html_line_num with
    | None => (lines, batch_success, S batch_failed)
    | Some line_html =>
        let translated_line := normalize_data_line_attribute line_html in
        match strip translated_line with
        | [] => (lines, batch_success, S batch_failed)
        | _ =>
            let translated_line := with_newline translated_line in
            let text_content := extract_text_from_tags translated_line in
            if source_detected V text_content
            then (<[ original_idx := translated_line ]> lines, batch_success, S batch_failed)
            else (<[ original_idx := translated_line ]> lines, S batch_success, batch_failed)
        end
    end.

Definition reinsert (map : gmap Z (list N)) (lines : list str)
    (batch_data : list (nat * str * Z)) : list str * nat * nat :=
  foldl (reinsert_step map) (lines, O, O) batch_data.

(** [len([idx for idx in batch_html_nums if idx != -1])] *)
Definition batch_failed_count (batch_html_nums : list Z) : nat :=
  length (List.filter (fun idx => negb (idx =? -1)%Z) batch_html_nums).

(** The refusal branch and the handler of the inner [try]: the batch adds
    to the failed count and nothing else changes. *)
Definition fail_batch (artifact : event) (batch_html_nums : list Z)
    (pending : nat) (translation_dict_full : list entry) (loc : locals) (w : world)
    : locals * world :=
  let w := log artifact w in
  let total_failed := (total_failed loc + batch_failed_count batch_html_nums)%nat in
  let w := update_progress (total_success loc) total_failed pending w in
  (Locals (lines loc) translation_dict_full (total_success loc) total_failed, w).

(** [japanese_lines[start_idx:end_idx]] for the batch [batch_idx]. *)
Definition batch_data_of (japanese_lines : list (nat * str * Z)) (batch_idx : nat)
    : list (nat * str * Z) :=
  let start_idx := (batch_idx * batch_size)%nat in
  let end_idx := Nat.min (start_idx + batch_size) (length japanese_lines) in
  slice start_idx end_idx japanese_lines.

(** [total_japanese_lines - end_idx] *)
Definition pending_after (japanese_lines : list (nat * str * Z)) (batch_idx : nat) : nat :=
  (length japanese_lines
   - Nat.min (batch_idx * batch_size + batch_size) (length japanese_lines))%nat.

(** The glossary a batch works with: reloaded from its file from the
    second batch on. *)
Definition batch_dictionary (batch_idx : nat) (loc : locals) (w : world) : list entry :=
  if (0 <? batch_idx)%nat then glossary_file w else translation_dict_full loc.

(** The request of a batch. *)
Definition batch_request (japanese_lines : list (nat * str * Z)) (batch_idx : nat)
    (loc : locals) (w : world) : prompt :=
  let batch_lines :=
    List.map (fun item => snd (fst item)) (batch_data_of japanese_lines batch_idx) in
  build_request V (draws w) batch_lines (batch_dictionary batch_idx loc w) (sound_file w).

(** What follows a response that is no refusal: parsing, the glossary
    updates, the reinsertion, and the write of the document.  When the
    loop that fills the map raises, the glossaries are saved already and
    the handler of the inner [try] counts the batch as failed. *)
Definition apply_response (batch_data : list (nat * str * Z)) (pending : nat)
    (translation_dict_full : list entry) (response_text : str)
    (loc : locals) (w : world) : locals * world :=
  let w := log ResponseArtifact w in
  let w := log (ParserCall response_text) w in
  let '(new_dict, new_sound_dict, translated_content) :=
    parse_response V response_text in
  let '(translation_dict_full, w) :=
    match new_dict with
    | [] => (translation_dict_full, w)
    | _ =>
        let merged := merge_dictionaries V translation_dict_full new_dict in
        (merged,
         update_dict_count (length merged)
           (log GlossarySaved (set_glossary_file merged w)))
    end in
  let w :=
    match new_sound_dict with
    | [] => w
    | _ =>
        let merged := JP.merge_sound_dictionaries (sound_file w) new_sound_dict in
        log SoundSaved (set_sound_file (JP.sort_by_gojuon merged) w)
    end in
  if line_translation_map_raises translated_content then
    fail_batch FailureArtifact (List.map snd batch_data) pending translation_dict_full loc w
  else
  let map := line_translation_map translated_content in
  let '(lines, batch_success, batch_failed) := reinsert map (lines loc) batch_data in
  let total_success := (total_success loc + batch_success)%nat in
  let total_failed := (total_failed loc + batch_failed)%nat in
  let w := update_progress total_success total_failed pending w in
  let w := log DocumentWritten (set_document (writelines lines) w) in
  (Locals lines translation_dict_full total_success total_failed, w).

(** The per-batch [try] once the request file is written: the request,
    and the refusal branch, the handler of the inner [try] or the
    reinsertion. *)
Definition process_batch (japanese_lines : list (nat * str * Z)) (batch_idx : nat)
    (st : locals * world) : locals * world :=
  let '(loc, w) := st in
  let batch_data := batch_data_of japanese_lines batch_idx in
  let batch_html_nums := List.map snd batch_data in
  let translation_dict_full := batch_dictionary batch_idx loc w in
  let prompt := batch_request japanese_lines batch_idx loc w in
  let w := log RequestArtifact (count_draw w) in
  let pending := pending_after japanese_lines batch_idx in
  match call_grok_api prompt 3 w with
  | (Raises, w) =>
      fail_batch FailureArtifact batch_html_nums pending translation_dict_full loc w
  | (Returns response_text, w) =>
      if is_refusal_response V response_text then
        fail_batch RefusalArtifact batch_html_nums pending translation_dict_full loc w
      else
        apply_response batch_data pending translation_dict_full response_text loc w
  end.

(** The handler of the per-batch [try]: every line of the batch is
    counted as failed, with or without identity token. *)
Definition abandon_batch (japanese_lines : list (nat * str * Z)) (batch_idx : nat)
    (st : locals * world) : locals * world :=
  let '(loc, w) := st in
  let batch_data := batch_data_of japanese_lines batch_idx in
  let translation_dict_full := batch_dictionary batch_idx loc w in
  let w := count_draw w in
  let batch_failed_count := length batch_data in
  let total_failed := (total_failed loc + batch_failed_count)%nat in
  let pending := pending_after japanese_lines batch_idx in
  let w := update_progress (total_success loc) total_failed pending w in
  (Locals (lines loc) translation_dict_full (total_success loc) total_failed, w).

(** The body of the loop over the batches: the per-batch [try] and its
    handler, which is reached when the statements before the inner [try]
    do not go through ([request_saved]). *)
Definition batch_turn (japanese_lines : list (nat * str * Z)) (batch_idx : nat)
    (st : locals * world) : locals * world :=
  let '(loc, w) := st in
  if request_saved (draws w) (batch_request japanese_lines batch_idx loc w)
  then process_batch japanese_lines batch_idx st
  else abandon_batch japanese_lines batch_idx st.

(** [process_file].  The last handler catches the ValueError of
    [get_translation_lines] and the ZeroDivisionError of the number of
    batches; [result] then holds what was assigned before. *)
Definition process_file (w : world) : result * world :=
  match document w with
  | None => (Result 0 0 0 0 FileFailed, complete_progress Failed w)
  | Some content =>
      let lines := readlines content in
      if get_translation_lines_raises lines
      then (Result 0 0 0 0 FileFailed, complete_progress Failed w)
      else
      let japanese_lines := get_translation_lines lines in
      let total_japanese_lines := length japanese_lines in
      let total_lines := length lines in
      match total_japanese_lines with
      | O => (Result total_lines 0 0 0 FileSkipped, complete_progress Skipped w)
      | _ =>
          let w := init_progress total_lines total_japanese_lines w in
          let translation_dict_full := glossary_file w in
          let w := update_dict_count (length translation_dict_full) w in
          match batch_size with
          | O =>
              (* ZeroDivisionError, caught by the last handler *)
              (Result total_lines total_japanese_lines 0 0 FileFailed,
               complete_progress Failed w)
          | _ =>
              let num_batches :=
                ((total_japanese_lines + batch_size - 1) / batch_size)%nat in
              let '(loc, w) :=
                foldl (fun st batch_idx => batch_turn japanese_lines batch_idx st)
                      (Locals lines translation_dict_full 0 0, w)
                      (seq 0 num_batches) in
              let w := complete_progress Completed w in
              let w := log PlainTextExported w in
              (Result total_lines total_japanese_lines
                 (total_success loc) (total_failed loc)
                 (if (0 <? total_failed loc)%nat then FilePartial else FileSuccess),
               w)
          end
      end
  end.

End Orchestrator.

Section Variants.
Context {E : environment}.

Definition JP_variant : variant := {|
  needs_translation := JP.needs_translation;
  source_detected := JP.source_detected;
  is_refusal_response := JP.is_refusal_response;
  build_request := JP.build_request;
  parse_response := JP.parse_response;
  merge_dictionaries := JP.merge_dictionaries
|}.


End Variants.

(** ** Specification vocabulary *)

(** [derives r u rest g g']: the pattern [r] can consume [u] when [rest]
    follows, turning the capture slot from [g] into [g']. *)
Fixpoint derives (r : regex) (u rest : str) (g g' : capture) : Prop :=
  match r with
  | Eps => u = [] /\ g' = g
  | Cls p => (exists c, u = [c] /\ p c = true) /\ g' = g
  | Cat a b =>
      exists v w g1, u = v ++ w /\ derives a v (w ++ rest) g g1 /\ derives b w rest g1 g'
  | Opt a => (u = [] /\ g' = g) \/ derives a u rest g g'
  | Star p => forallb p u = true /\ g' = g
  | Lazy p => forallb p u = true /\ g' = g
  | Grp a => (exists g1, derives a u rest g g1) /\ g' = Some u
  | Dollar => u = [] /\ at_end rest = true /\ g' = g
  end.

(** A pattern none of whose matches is empty. *)
Definition never_empty (r : regex) : Prop :=
  forall s g rest, match_at r s = Some (g, rest) -> (length rest < length s)%nat.

(** The character [d] of [data-line] under IGNORECASE. *)
Definition d_like (c : N) : bool := ci 0x64 c.

(** The shapes of an optional, possibly escaped, quote. *)
Definition quote_shape (q : str) : Prop :=
  q = [] \/ (exists c, is_quote c = true /\ (q = [c] \/ q = [BACKSLASH; c])).

(** What the program needs of the interpreter's table of decimal digits:
    within ASCII the digits are 0 to 9, and no digit is white space. *)
Definition digits_well_formed {E : environment} : Prop :=
  (forall c, is_Some (decimal c) -> c < 128 -> is_ascii_digit c = true)
  /\ (forall c, is_Some (decimal c) -> isspace c = false).

(** A list of lines as [readlines] returns it: no line is empty, a line
    break stands only at the end of a line, and only the last line may
    lack one. *)
Definition is_break (c : N) : bool := (c =? LF) || (c =? CR).

Definition line_shaped (l : str) : Prop :=
  exists body, l = body ++ [LF] /\ forallb (fun c => negb (is_break c)) body = true.

Definition last_line_shaped (l : str) : Prop :=
  l <> [] /\ forallb (fun c => negb (is_break c)) l = true.

Fixpoint lines_shaped (ls : list str) : Prop :=
  match ls with
  | [] => True
  | [l] => line_shaped l \/ last_line_shaped l
  | l :: ls' => line_shaped l /\ lines_shaped ls'
  end.

(** [random.sample(population, k)] returns [k] elements standing at
    distinct positions of the population, in any order. *)
Definition is_sample {A} (population : list A) (k : nat) (drawn : list A) : Prop :=
  length drawn = k /\ exists chosen, drawn ≡ₚ chosen /\ sublist chosen population.

(** The texts [DATA_LINE_ATTR_PATTERN] accepts, with their digits: the
    attribute name in any case, blanks around the equal sign, and quotes
    that may be single, double, escaped or missing. *)
Definition dl_shape {E : environment} (u ds : str) : Prop :=
  exists h w1 w2 oq cq,
    u = h ++ w1 ++ [0x3D] ++ w2 ++ oq ++ ds ++ cq
    /\ Forall2 (fun l c => ci l c = true) (py "data-line") h
    /\ forallb isspace w1 = true /\ forallb isspace w2 = true
    /\ quote_shape oq
    /\ ds <> [] /\ forallb isdecimal ds = true
    /\ quote_shape cq.

(** The translated line units of a response that carry a given identity
    token, in the order of the text. *)
Definition units_carrying {E : environment} (token : Z) (translated_content : str)
    : list hit :=
  List.filter (fun h => (int (group h) =? token)%Z)
    (finditer P_TAG_WITH_LINE_PATTERN translated_content).

(** A text without line break. *)
Definition unbroken (s : str) : bool := forallb (fun c => negb (is_break c)) s.

(** The document positions of the lines of a batch, and its lines that
    carry an identity token. *)
Definition indices (batch : list (nat * str * Z)) : list nat :=
  List.map (fun item => fst (fst item)) batch.

Definition identified (batch : list (nat * str * Z)) : list (nat * str * Z) :=
  List.filter (fun item => negb (snd item =? -1)%Z) batch.

(** What the reinsertion loop decides for one line of the batch: it is
    counted as translated ([Some true]), counted as failed ([Some false])
    or not counted; and it is replaced by a new line or kept. *)
Section Verdicts.
Context {E : environment}.
Variable V : variant.

Definition verdict (map : gmap Z (list N)) (item : nat * str * Z) : option bool :=
  if (snd item =? -1)%Z then None
  else
    match map !! snd item with
    | None => Some false
    | Some line_html =>
        let translated_line := normalize_data_line_attribute line_html in
        match strip translated_line with
        | [] => Some false
        | _ =>
            Some (negb (source_detected V
                          (extract_text_from_tags (with_newline translated_line))))
        end
    end.

Definition replacement (map : gmap Z (list N)) (item : nat * str * Z) : option str :=
  if (snd item =? -1)%Z then None
  else
    match map !! snd item with
    | None => None
    | Some line_html =>
        let translated_line := normalize_data_line_attribute line_html in
        match strip translated_line with
        | [] => None
        | _ => Some (with_newline translated_line)
        end
    end.

Definition tally (v : option bool) (counts : nat * nat) : nat * nat :=
  match v with
  | Some true => (S (fst counts), snd counts)
  | Some false => (fst counts, S (snd counts))
  | None => counts
  end.

End Verdicts.

(** The events of one attempt of [call_grok_api], the events of its first
    [n] attempts, and the world after them: only the count of requests and
    the trace have changed. *)
Definition attempt_events (first_request : nat) (p : prompt) (attempt : nat) : list event :=
  (if (0 <? attempt)%nat then [Backoff (2 ^ N.of_nat attempt)] else [])
  ++ [ApiRequest (first_request + attempt) p].

Definition attempts_trace (first_request : nat) (p : prompt) (n : nat) : list event :=
  flat_map (attempt_events first_request p) (seq 0 n).

Definition after_attempts (w : world) (p : prompt) (n : nat) : world :=
  World (document w) (glossary_file w) (sound_file w) (tracker w)
        (requests w + n) (draws w) (trace w ++ attempts_trace (requests w) p n).

(** How often the response parser ran, and how often a request was sent. *)
Definition parser_calls (tr : list event) : nat :=
  length (List.filter (fun ev => match ev with ParserCall _ => true | _ => false end) tr).

Definition api_requests (tr : list event) : nat :=
  length (List.filter (fun ev => match ev with ApiRequest _ _ => true | _ => false end) tr).

(** Environments for examples: a service that refuses, and one that is
    down. *)
Definition refusing_environment : environment := {|
  decimal := ascii_decimal;
  service := fun _ _ => Content (py "I cannot assist with that request.");
  random_sample := fun _ population k => take k population;
  random_shuffle := fun _ population => population;
  random_choice := fun _ population => default ∅ (head population);
  dictionary_blocks := fun _ => ([], [], O);
  request_saved := fun _ _ => true
|}.

Definition failing_environment : environment := {|
  decimal := ascii_decimal;
  service := fun _ _ => TransportFailure;
  random_sample := fun _ population k => take k population;
  random_shuffle := fun _ population => population;
  random_choice := fun _ population => default ∅ (head population);
  dictionary_blocks := fun _ => ([], [], O);
  request_saved := fun _ _ => true
|}.

(** A document of two lines that need translation, the second without
    identity attribute, and a world that holds it. *)
Definition sample_document : str :=
  py "<p data-line=" ++ [QUOTE] ++ py "1" ++ [QUOTE] ++ py ">hello world</p>" ++ [LF]
  ++ py "<p>more words</p>" ++ [LF].

Definition sample_world : world :=
  World (Some sample_document) [] [] None 0 0 [].

(** The same world once [init_progress] has registered the file; and a
    document whose only line needs translation and has no identity
    attribute. *)
Definition tracked_sample_world : world := init_progress 2 2 sample_world.

Definition plain_document : str := py "<p>more words</p>" ++ [LF].

Definition plain_world : world := World (Some plain_document) [] [] None 0 0 [].




(** The source terms of a glossary: the values its entries hold under
    [key], in order. *)
Definition terms (key : list N) (l : list entry) : list (list N) :=
  omap (fun item : entry => item !! key) l.

(** The source term of an entry as the selector compares it: trimmed. *)
Definition trimmed (key : list N) (e : entry) : str := strip (get e key).

(** What the selectors need of [random.sample] and [random.shuffle]: the
    sample stands at distinct positions of the population, the shuffle
    permutes it. *)
Definition sampling {E : environment} : Prop :=
  forall draw population k,
    (k <= length population)%nat -> is_sample population k (random_sample draw population k).

Definition shuffling {E : environment} : Prop :=
  forall draw population, random_shuffle draw population ≡ₚ population.

(** Glossary entries of the two programs, and a glossary for examples. *)
Definition jp_entry (jp zh : str) : entry := <[ KEY_JP := jp ]> (<[ KEY_ZH := zh ]> ∅).
Definition en_entry (en zh : str) : entry := <[ KEY_EN := en ]> (<[ KEY_ZH := zh ]> ∅).

Definition sample_glossary : list entry :=
  [ jp_entry [0x3042; 0x3044]%N [0x611B]%N;
    jp_entry [0x304B; 0x306A]%N [0x5047; 0x540D]%N;
    en_entry (py "Tom") [0x6E6F; 0x59C6]%N ].

(** The order of [sorted(sound_dict, key=get_sort_key)], and the entries
    of a list that have a given sort key. *)
Definition in_key_order (a b : entry) : Prop :=
  JP.key_le (JP.get_sort_key a) (JP.get_sort_key b) = true.

Definition with_key (k : nat * str) (l : list entry) : list entry :=
  List.filter (fun e => bool_decide (JP.get_sort_key e = k)) l.

(** An entry of the sound dictionary. *)
Definition sound_entry (sound_jp sound_zh : str) : entry :=
  <[ KEY_SOUND_JP := sound_jp ]> (<[ KEY_SOUND_ZH := sound_zh ]> ∅).

(** A sound dictionary of two entries and a batch that holds the second
    sound, for examples. *)
Definition sample_sounds : list entry :=
  [ sound_entry [0x3042]%N [0x554A]%N; sound_entry [0x30C9; 0x30F3]%N [0x549A]%N ].

Definition sample_sound_batch : list str := [ [0x30C9; 0x30F3; 0x3068]%N ].

(** The world after the attempts number [a] to [a + k - 1] of a call whose
    first request has the number [first_request]. *)
Definition advanced (first_request : nat) (p : prompt) (w : world) (a k : nat) : world :=
  World (document w) (glossary_file w) (sound_file w) (tracker w)
        (requests w + k) (draws w)
        (trace w ++ flat_map (attempt_events first_request p) (seq a k)).

(** The entry of the progress tracker agrees with the local counts of
    [process_file]: the totals are those of the file, the success and
    failure counts are the running ones, and the glossary count is the
    size of the glossary file. *)
Definition tracked (total translation_total : nat) (loc : locals) (pending : nat)
    (w : world) : Prop :=
  exists pg,
    tracker w = Some pg
    /\ pg_total pg = total /\ pg_translation_total pg = translation_total
    /\ pg_skipped pg = (total - translation_total)%nat
    /\ pg_success pg = total_success loc /\ pg_failed pg = total_failed loc
    /\ pg_pending pg = pending
    /\ pg_dict_count pg = length (glossary_file w)
    /\ pg_status pg = Processing.

(** [(n + batch_size - 1) // batch_size] *)
Definition num_batches (batch_size n : nat) : nat := ((n + batch_size - 1) / batch_size)%nat.

(** A pattern without [$]: whether it matches a text does not depend on
    what follows the match. *)
Fixpoint anchor_free (r : regex) : bool :=
  match r with
  | Eps | Cls _ | Star _ | Lazy _ => true
  | Cat a b => anchor_free a && anchor_free b
  | Opt a | Grp a => anchor_free a
  | Dollar => false
  end.

(** ** The program [5_stepa_txt_to_stepb_html(en).py]

    [str(n)] for a natural number: its decimal digits. *)
Fixpoint uint_codes (d : Decimal.uint) : str :=
  match d with
  | Decimal.Nil => []
  | Decimal.D0 d => 0x30 :: uint_codes d
  | Decimal.D1 d => 0x31 :: uint_codes d
  | Decimal.D2 d => 0x32 :: uint_codes d
  | Decimal.D3 d => 0x33 :: uint_codes d
  | Decimal.D4 d => 0x34 :: uint_codes d
  | Decimal.D5 d => 0x35 :: uint_codes d
  | Decimal.D6 d => 0x36 :: uint_codes d
  | Decimal.D7 d => 0x37 :: uint_codes d
  | Decimal.D8 d => 0x38 :: uint_codes d
  | Decimal.D9 d => 0x39 :: uint_codes d
  end.

Definition str_of_nat (n : nat) : str := uint_codes (Nat.to_uint n).

(** The line [<p data-line="N">text</p>] written for a line of text. *)
Definition formatted_line (line_number : nat) (stripped_line : str) : str :=
  py "<p data-line=" ++ [QUOTE] ++ str_of_nat line_number ++ [QUOTE] ++ py ">"
  ++ stripped_line ++ py "</p>" ++ [LF].

(** One turn of the loop of [process_txt_file], on the pair
    ([processed_lines], [line_number]). *)
Definition number_step (acc : list str * nat) (line : str) : list str * nat :=
  let '(processed_lines, line_number) := acc in
  match strip line with
  | [] => acc
  | stripped_line =>
      (processed_lines ++ [formatted_line line_number stripped_line], S line_number)
  end.

Definition processed_lines (lines : list str) : list str :=
  fst (foldl number_step ([], 1%nat) lines).

(** [process_txt_file]: the flag returned and the file written, from the
    file read ([None] when it cannot be read). *)
Definition process_txt_file (input : option str) : bool * option str :=
  match input with
  | None => (false, None)
  | Some content => (true, Some (writelines (processed_lines (readlines content))))
  end.

(** What reading the numbers back needs of the interpreter's table of
    decimal digits: the ASCII digits have their values. *)
Definition ascii_digits_read {E : environment} : Prop :=
  forall c, is_ascii_digit c = true -> decimal c = Some (c - 0x30).

(** The lines of a text that are not blank, trimmed. *)
Definition nonblank_lines (lines : list str) : list str :=
  List.filter (fun s => negb (bool_decide (s = []))) (List.map strip lines).

(** ** The program [3_sound_dictionary_clean.py]

    [clean_sound_dictionary] on the list read from the file: the number of
    entries removed, and the list written back ([None] when the file is
    left alone). *)
Definition same_sound (e : entry) : bool :=
  bool_decide (e !! KEY_SOUND_JP = e !! KEY_SOUND_ZH).

Definition clean_sound_dictionary (data : list entry) : nat * option (list entry) :=
  let original_len := length data in
  let filtered := List.filter (fun e => negb (same_sound e)) data in
  let removed := (original_len - length filtered)%nat in
  (removed, if (0 <? removed)%nat then Some filtered else None).

(** ** The plain-text export

    [<[^>]+>] *)
Definition TAG_PATTERN : regex := Cat (Chr 0x3C) (Cat (Plus not_gt) (Chr 0x3E)).

Definition remove_html_tags (text : str) : str :=
  let clean_text := remove TAG_PATTERN text in
  strip (List.filter (fun c => negb (c =? CR))
           (List.filter (fun c => negb (c =? LF)) clean_text)).

Definition convert_to_plain_text (content : str) : str :=
  let lines := readlines content in
  let plain_lines :=
    List.filter (fun s => negb (bool_decide (s = [])))
      (List.map remove_html_tags lines) in
  join [LF; LF] plain_lines.

(** A text in which an opening bracket is closed at once or not at all:
    the pattern of tags finds nothing in it. *)
Definition brackets_open (t : str) : Prop :=
  forall pre post,
    t = pre ++ 0x3C :: post ->
    post = [] \/ (exists post', post = 0x3E :: post') \/ existsb (N.eqb 0x3E) post = false.

(** ** Tactics *)

Ltac break_match :=
  match goal with
  | |- context [match ?x with _ => _ end] => destruct x eqn:?
  | H : context [match ?x with _ => _ end] |- _ => destruct x eqn:?
  end.

(** Membership of a code point in ranges, by arithmetic. *)
Ltac decide_ranges :=
  repeat match goal with
  | H : _ = true |- _ =>
      rewrite ?orb_true_iff, ?andb_true_iff, ?N.leb_le, ?N.eqb_eq in H
  end;
  try (apply not_true_is_false; intros ?);
  repeat match goal with
  | H : _ = true |- _ =>
      progress rewrite ?orb_true_iff, ?andb_true_iff, ?N.leb_le, ?N.eqb_eq in H
  end;
  lia.

(** * Properties *)

(** ** The matcher against the declarative reading of a pattern *)

Lemma star_sound k p s g x :
  star k p s g = Some x ->
  exists u rest, s = u ++ rest /\ forallb p u = true /\ k rest g = Some x.
Proof.
  induction s as [|c s IH]; simpl; intros H.
  - exists [], []. auto.
  - destruct (p c) eqn:Hp.
    + destruct (star k p s g) eqn:Hs.
      * inv H. destruct (IH eq_refl) as (u & rest & -> & Hu & Hk).
        exists (c :: u), rest. simpl. rewrite Hp, Hu. auto.
      * exists [], (c :: s). auto.
    + exists [], (c :: s). auto.
Qed.

Lemma lazy_sound k p s g x :
  lazy k p s g = Some x ->
  exists u rest, s = u ++ rest /\ forallb p u = true /\ k rest g = Some x.
Proof.
  induction s as [|c s IH]; simpl; intros H.
  - destruct (k [] g) eqn:Hk; [|discriminate]. inv H. exists [], []. auto.
  - destruct (k (c :: s) g) eqn:Hk.
    + inv H. exists [], (c :: s). auto.
    + destruct (p c) eqn:Hp; [|discriminate].
      destruct (IH H) as (u & rest & -> & Hu & Hk').
      exists (c :: u), rest. simpl. rewrite Hp, Hu. auto.
Qed.

Lemma run_sound r : forall k s g x,
  run r k s g = Some x ->
  exists u rest g', s = u ++ rest /\ derives r u rest g g' /\ k rest g' = Some x.
Proof.
  induction r as [|p|a IHa b IHb|a IHa|p|p|a IHa|]; simpl; intros k s g x H.
  - exists [], s, g. auto.
  - destruct s as [|c s]; [discriminate|]. destruct (p c) eqn:Hp; [|discriminate].
    exists [c], s, g. repeat split; eauto.
  - apply IHa in H as (v & rest1 & g1 & -> & Ha & H).
    apply IHb in H as (w & rest & g' & -> & Hb & H).
    exists (v ++ w), rest, g'. rewrite <- app_assoc. repeat split; eauto 10.
  - destruct (run a k s g) eqn:Ha.
    + inv H. apply IHa in Ha as (u & rest & g' & -> & Ha & Hk).
      exists u, rest, g'. auto.
    + exists [], s, g. auto.
  - apply star_sound in H as (u & rest & -> & Hu & Hk). exists u, rest, g. auto.
  - apply lazy_sound in H as (u & rest & -> & Hu & Hk). exists u, rest, g. auto.
  - apply IHa in H as (u & rest & g1 & -> & Ha & Hk).
    rewrite length_app, Nat.add_sub, take_app_length in Hk.
    exists u, rest, (Some u). repeat split; eauto.
  - destruct (at_end s) eqn:He; [|discriminate]. exists [], s, g. auto.
Qed.

Lemma star_fallback k p s g : is_Some (k s g) -> is_Some (star k p s g).
Proof.
  intros Hk. destruct s as [|c s]; simpl; [done|].
  destruct (p c); [|done]. destruct (star k p s g); [eauto|done].
Qed.

Lemma star_complete k p u rest g :
  forallb p u = true -> is_Some (k rest g) -> is_Some (star k p (u ++ rest) g).
Proof.
  induction u as [|c u IH]; simpl; intros Hu Hk.
  - by apply star_fallback.
  - apply andb_true_iff in Hu as [-> Hu].
    destruct (IH Hu Hk) as [x ->]. eauto.
Qed.

Lemma lazy_complete k p u rest g :
  forallb p u = true -> is_Some (k rest g) -> is_Some (lazy k p (u ++ rest) g).
Proof.
  induction u as [|c u IH]; simpl; intros Hu Hk.
  - destruct rest; simpl; destruct Hk as [x ->]; eauto.
  - apply andb_true_iff in Hu as [-> Hu].
    destruct (k (c :: u ++ rest) g); [eauto|]. by apply IH.
Qed.

Lemma run_complete r : forall k u rest g g',
  derives r u rest g g' -> is_Some (k rest g') -> is_Some (run r k (u ++ rest) g).
Proof.
  induction r as [|p|a IHa b IHb|a IHa|p|p|a IHa|]; simpl; intros k u rest g g' H Hk.
  - destruct H as [-> ->]. done.
  - destruct H as [(c & -> & Hp) ->]. simpl. by rewrite Hp.
  - destruct H as (v & w & g1 & -> & Ha & Hb). rewrite <- app_assoc.
    eapply IHa; [exact Ha|]. eapply IHb; eauto.
  - destruct H as [[-> ->]|H].
    + simpl. destruct (run a k rest g); [eauto|done].
    + destruct (IHa k u rest g g' H Hk) as [x ->]. eauto.
  - destruct H as [Hu ->]. by apply star_complete.
  - destruct H as [Hu ->]. by apply lazy_complete.
  - destruct H as [[g1 Ha] ->]. eapply IHa; [exact Ha|].
    by rewrite length_app, Nat.add_sub, take_app_length.
  - destruct H as (-> & He & ->). simpl. by rewrite He.
Qed.

Lemma match_at_sound r s g rest :
  match_at r s = Some (g, rest) ->
  exists u, s = u ++ rest /\ derives r u rest None g.
Proof.
  intros H. apply run_sound in H as (u & rest' & g' & -> & Hd & Hk).
  inv Hk. eauto.
Qed.

Lemma match_at_complete r u rest g :
  derives r u rest None g -> is_Some (match_at r (u ++ rest)).
Proof. intros H. eapply run_complete; [exact H|]. done. Qed.

(** ** The scan of [finditer] and [sub] *)

Arguments scan_fuel : simpl never.

Lemma match_at_suffix r s g rest :
  match_at r s = Some (g, rest) -> exists u, s = u ++ rest.
Proof. intros H. apply match_at_sound in H as (u & -> & _). eauto. Qed.

Lemma scan_fuel_S n r s :
  scan_fuel (S n) r s =
  match match_at r s with
  | Some (g, rest) =>
      match (length s - length rest)%nat with
      | O => Match (Hit g []) ::
             match s with [] => [] | c :: s' => Copy c :: scan_fuel n r s' end
      | k => Match (Hit g (take k s)) :: scan_fuel n r rest
      end
  | None => match s with [] => [] | c :: s' => Copy c :: scan_fuel n r s' end
  end.
Proof. reflexivity. Qed.

Lemma scan_fuel_enough r : forall n m s,
  (length s < n)%nat -> (length s < m)%nat -> scan_fuel n r s = scan_fuel m r s.
Proof.
  induction n as [|n IH]; intros m s Hn Hm; [lia|].
  destruct m as [|m]; [lia|]. rewrite !scan_fuel_S.
  assert (Hstep : match s with [] => [] | c :: s' => Copy c :: scan_fuel n r s' end
                = match s with [] => [] | c :: s' => Copy c :: scan_fuel m r s' end).
  { destruct s as [|c s']; [done|]. simpl in *. f_equal. apply IH; lia. }
  destruct (match_at r s) as [[g rest]|] eqn:Hm'; [|done].
  destruct (match_at_suffix _ _ _ _ Hm') as [u ->].
  rewrite length_app, Nat.add_sub in *.
  destruct u as [|c u]; simpl in *.
  - by rewrite Hstep.
  - f_equal. apply IH; rewrite ?length_app in *; lia.
Qed.

Lemma scan_nil r : match_at r [] = None -> scan r [] = [].
Proof. unfold scan. rewrite scan_fuel_S. by intros ->. Qed.

Lemma scan_miss r c s :
  match_at r (c :: s) = None -> scan r (c :: s) = Copy c :: scan r s.
Proof. unfold scan. rewrite scan_fuel_S. by intros ->. Qed.

Lemma scan_hit r g c u rest :
  match_at r (c :: u ++ rest) = Some (g, rest) ->
  scan r (c :: u ++ rest) = Match (Hit g (c :: u)) :: scan r rest.
Proof.
  unfold scan. rewrite scan_fuel_S. intros ->.
  replace (length (c :: u ++ rest) - length rest)%nat with (length (c :: u))
    by (simpl; rewrite length_app; lia).
  pose proof (take_app_length (c :: u) rest) as Ht. simpl in Ht |- *.
  rewrite Ht. f_equal. apply scan_fuel_enough; simpl; rewrite ?length_app; lia.
Qed.

(** Induction along the scan of a pattern that never matches the empty
    text. *)
Lemma scan_ind r (P : str -> Prop) :
  never_empty r ->
  P [] ->
  (forall c s, match_at r (c :: s) = None -> P s -> P (c :: s)) ->
  (forall g c u rest,
      match_at r (c :: u ++ rest) = Some (g, rest) -> P rest -> P (c :: u ++ rest)) ->
  forall s, P s.
Proof.
  intros Hne Hnil Hmiss Hhit s.
  induction s as [s IH] using (induction_ltof1 _ (@length N)). unfold ltof in IH.
  destruct s as [|c s]; [done|].
  destruct (match_at r (c :: s)) as [[g rest]|] eqn:Hm.
  - pose proof (Hne _ _ _ Hm) as Hlt.
    destruct (match_at_suffix _ _ _ _ Hm) as [u Hu].
    destruct u as [|c' u]; simpl in Hu.
    + subst rest. lia.
    + inv Hu. apply (Hhit g); [done|]. apply IH. simpl. rewrite length_app. lia.
  - apply Hmiss; [done|]. apply IH. simpl. lia.
Qed.

Lemma never_empty_nil r : never_empty r -> match_at r [] = None.
Proof.
  intros Hne. destruct (match_at r []) as [[g rest]|] eqn:Hm; [|done].
  apply Hne in Hm. simpl in Hm. lia.
Qed.

Lemma sub_nil r f : never_empty r -> sub r f [] = [].
Proof. intros Hne. unfold sub. by rewrite scan_nil by by apply never_empty_nil. Qed.

Lemma sub_miss r f c s :
  match_at r (c :: s) = None -> sub r f (c :: s) = c :: sub r f s.
Proof. intros H. unfold sub. by rewrite scan_miss. Qed.

Lemma sub_hit r f g c u rest :
  match_at r (c :: u ++ rest) = Some (g, rest) ->
  sub r f (c :: u ++ rest) = f (Hit g (c :: u)) ++ sub r f rest.
Proof. intros H. unfold sub. by rewrite (scan_hit _ _ _ _ _ H). Qed.

Lemma finditer_nil r : never_empty r -> finditer r [] = [].
Proof. intros Hne. unfold finditer. by rewrite scan_nil by by apply never_empty_nil. Qed.

Lemma finditer_miss r c s :
  match_at r (c :: s) = None -> finditer r (c :: s) = finditer r s.
Proof. intros H. unfold finditer. by rewrite scan_miss. Qed.

Lemma finditer_hit r g c u rest :
  match_at r (c :: u ++ rest) = Some (g, rest) ->
  finditer r (c :: u ++ rest) = Hit g (c :: u) :: finditer r rest.
Proof. intros H. unfold finditer. by rewrite (scan_hit _ _ _ _ _ H). Qed.

(** ** The identity attribute *)

Lemma derives_LitI l : forall u rest g g',
  derives (LitI l) u rest g g' <-> Forall2 (fun a c => ci a c = true) l u /\ g' = g.
Proof.
  induction l as [|a l IH]; intros u rest g g'; cbn [LitI foldr derives].
  - split.
    + intros [-> ->]. split; [constructor|done].
    + intros [H ->]. inv H. done.
  - split.
    + intros (v & w & g1 & -> & [(c & -> & Hc) ->] & Hw).
      apply IH in Hw as [Hw ->]. split; [|done]. simpl. by constructor.
    + intros [H ->]. inv H. exists [y], l', g. simpl.
      repeat split; eauto. apply IH. done.
Qed.

Lemma derives_Plus p u rest g g' :
  derives (Plus p) u rest g g' <-> u <> [] /\ forallb p u = true /\ g' = g.
Proof.
  unfold Plus. cbn [derives]. split.
  - intros (v & w & g1 & -> & [(c & -> & Hc) ->] & Hw & ->).
    simpl. rewrite Hc, Hw. done.
  - intros (Hne & Hu & ->). destruct u as [|c u]; [done|].
    simpl in Hu. apply andb_true_iff in Hu as [Hc Hu].
    exists [c], u, g. repeat split; eauto.
Qed.

Lemma derives_OPTIONAL_QUOTE u rest g g' :
  derives OPTIONAL_QUOTE u rest g g' <-> quote_shape u /\ g' = g.
Proof.
  unfold OPTIONAL_QUOTE, quote_shape, Chr. cbn [derives]. split.
  - intros [[-> ->]|(v & w & g1 & -> & Hv & [(c & -> & Hc) ->])]; [auto|].
    split; [|by destruct Hv as [[_ ->]|[_ ->]]]. right. exists c. split; [done|].
    destruct Hv as [[-> _]|[(b & -> & Hb) _]]; [by left|].
    apply N.eqb_eq in Hb. subst b. by right.
  - intros [[->|(c & Hc & [->| ->])] ->].
    + by left.
    + right. exists [], [c], g. repeat split; eauto.
    + right. exists [BACKSLASH], [c], g. split; [done|]. split.
      * right. split; [|done]. exists BACKSLASH. split; [done|]. apply N.eqb_refl.
      * split; [|done]. eauto.
Qed.

Section DataLine.
Context {E : environment}.

Lemma derives_DATA_LINE u rest g g' :
  derives DATA_LINE_ATTR_PATTERN u rest g g' <-> exists ds, dl_shape u ds /\ g' = Some ds.
Proof.
  unfold DATA_LINE_ATTR_PATTERN, dl_shape. cbn [derives]. split.
  - intros (h & u1 & g1 & -> & Hh & w1 & u2 & g2 & -> & [Hw1 ->] & e & u3 & g3 & ->
            & [(c & -> & Hc) ->] & w2 & u4 & g4 & -> & [Hw2 ->] & oq & u5 & g5 & ->
            & Hoq & ds & cq & g6 & -> & [[g7 Hds] ->] & Hcq).
    apply derives_LitI in Hh as [Hh ->].
    apply derives_OPTIONAL_QUOTE in Hoq as [Hoq ->].
    apply derives_OPTIONAL_QUOTE in Hcq as [Hcq ->].
    apply derives_Plus in Hds as (Hne & Hds & _).
    apply N.eqb_eq in Hc. subst c.
    exists ds. split; [|done]. exists h, w1, w2, oq, cq. repeat split; auto.
  - intros (ds & (h & w1 & w2 & oq & cq & -> & Hh & Hw1 & Hw2 & Hoq & Hne & Hds & Hcq) & ->).
    exists h, (w1 ++ [0x3D] ++ w2 ++ oq ++ ds ++ cq), g. split; [done|].
    split; [by apply derives_LitI|].
    exists w1, ([0x3D] ++ w2 ++ oq ++ ds ++ cq), g. split; [done|]. split; [done|].
    exists [0x3D], (w2 ++ oq ++ ds ++ cq), g. split; [done|].
    split; [split; [|done]; exists 0x3D; done|].
    exists w2, (oq ++ ds ++ cq), g. split; [done|]. split; [done|].
    exists oq, (ds ++ cq), g. split; [done|]. split; [by apply derives_OPTIONAL_QUOTE|].
    exists ds, cq, (Some ds). split; [done|]. split.
    + split; [|done]. exists g. by apply derives_Plus.
    + by apply derives_OPTIONAL_QUOTE.
Qed.

Lemma take_consumed (u z : str) : take (length (u ++ z) - length z) (u ++ z) = u.
Proof. by rewrite length_app, Nat.add_sub, take_app_length. Qed.

Lemma star_greedy k p u z g x :
  forallb p u = true ->
  (forall c t, z = c :: t -> p c = false) ->
  k z g = Some x ->
  star k p (u ++ z) g = Some x.
Proof.
  intros Hu Hz Hk. induction u as [|c u IH]; simpl in *.
  - destruct z as [|c t]; [done|]. simpl. by rewrite (Hz c t eq_refl).
  - apply andb_true_iff in Hu as [-> Hu]. by rewrite IH.
Qed.

Lemma run_LitI_app l : forall h k s g,
  Forall2 (fun a c => ci a c = true) l h -> run (LitI l) k (h ++ s) g = k s g.
Proof.
  induction l as [|a l IH]; intros h k s g H; inv H; cbn [LitI foldr run app].
  - done.
  - rewrite H2. by apply IH.
Qed.

Lemma run_OPTIONAL_QUOTE_skip k s g :
  (forall c t, s = c :: t -> c <> BACKSLASH /\ is_quote c = false) ->
  run OPTIONAL_QUOTE k s g = k s g.
Proof.
  intros Hs. unfold OPTIONAL_QUOTE, Chr. cbn [run].
  destruct s as [|c t]; [done|]. destruct (Hs c t eq_refl) as [Hb Hq].
  apply N.eqb_neq in Hb. rewrite N.eqb_sym in Hb. by rewrite Hb, Hq.
Qed.

Lemma run_OPTIONAL_QUOTE_take k q s g x :
  quote_shape q -> q <> [] -> k s g = Some x ->
  run OPTIONAL_QUOTE k (q ++ s) g = Some x.
Proof.
  intros [->|(c & Hc & [->| ->])] Hne Hk; [done|..];
    unfold OPTIONAL_QUOTE, Chr; cbn [run app].
  - destruct (BACKSLASH =? c) eqn:Hb.
    + apply N.eqb_eq in Hb. subst c. discriminate.
    + by rewrite Hc, Hk.
  - rewrite N.eqb_refl. by rewrite Hc, Hk.
Qed.

Lemma quote_shape_head q c t :
  quote_shape q -> q = c :: t -> c = BACKSLASH \/ is_quote c = true.
Proof.
  intros [->|(c' & Hc & [->| ->])] Hq; inv Hq; auto.
Qed.

Lemma decimal_not_quote c :
  digits_well_formed -> isdecimal c = true -> c <> BACKSLASH /\ is_quote c = false.
Proof.
  intros [Hascii _] Hc. apply bool_decide_eq_true in Hc.
  destruct (N.ltb_spec c 128) as [Hlt|Hge].
  - pose proof (Hascii c Hc Hlt) as Hd. unfold is_ascii_digit, in_range in Hd.
    apply andb_true_iff in Hd as [Hlo Hhi]. apply N.leb_le in Hlo, Hhi.
    unfold BACKSLASH, is_quote, QUOTE, APOSTROPHE. split; [lia|].
    apply orb_false_iff. split; apply N.eqb_neq; lia.
  - unfold BACKSLASH, is_quote, QUOTE, APOSTROPHE. split; [lia|].
    apply orb_false_iff. split; apply N.eqb_neq; lia.
Qed.

Lemma decimal_not_space c : digits_well_formed -> isdecimal c = true -> isspace c = false.
Proof. intros [_ Hs] Hc. apply Hs. by apply bool_decide_eq_true in Hc. Qed.

(** The attempt is deterministic on a text of the accepted shape that is
    closed by a quote or ends the text. *)
Lemma match_at_DATA_LINE_exact h w1 w2 oq ds cq rest :
  digits_well_formed ->
  Forall2 (fun l c => ci l c = true) (py "data-line") h ->
  forallb isspace w1 = true -> forallb isspace w2 = true ->
  quote_shape oq -> ds <> [] -> forallb isdecimal ds = true -> quote_shape cq ->
  cq <> [] \/ rest = [] ->
  match_at DATA_LINE_ATTR_PATTERN (h ++ w1 ++ [0x3D] ++ w2 ++ oq ++ ds ++ cq ++ rest)
  = Some (Some ds, rest).
Proof.
  intros Hwf Hh Hw1 Hw2 Hoq Hne Hds Hcq Hcq'.
  unfold match_at, DATA_LINE_ATTR_PATTERN. cbn [run].
  rewrite run_LitI_app by done.
  (* the closing quote *)
  assert (H6 : forall g, run OPTIONAL_QUOTE accept (cq ++ rest) g = Some (g, rest)).
  { intros g. destruct cq as [|c cq].
    - destruct Hcq' as [?| ->]; [done|]. done.
    - by apply run_OPTIONAL_QUOTE_take. }
  (* the digits *)
  assert (H5 : forall g, run (Grp (Plus isdecimal)) (run OPTIONAL_QUOTE accept)
                 (ds ++ cq ++ rest) g = Some (Some ds, rest)).
  { intros g. destruct ds as [|d ds]; [done|]. simpl in Hds.
    apply andb_true_iff in Hds as [Hd Hds].
    unfold Plus. cbn [run app]. rewrite Hd.
    apply star_greedy; [done| |].
    - intros c t Hct. destruct cq as [|c' cq'].
      + destruct Hcq' as [?| ->]; [done|]. discriminate.
      + inv Hct. destruct (quote_shape_head _ _ _ Hcq eq_refl) as [->|Hq].
        * destruct (isdecimal BACKSLASH) eqn:Hx; [|done].
          by destruct (decimal_not_quote _ Hwf Hx).
        * destruct (isdecimal c) eqn:Hx; [|done].
          destruct (decimal_not_quote _ Hwf Hx) as [_ Hq']. congruence.
    - cbv beta. change (d :: ds ++ cq ++ rest) with ((d :: ds) ++ (cq ++ rest)).
      rewrite take_consumed. apply H6. }
  (* the opening quote *)
  assert (H4 : forall g, run OPTIONAL_QUOTE
                 (run (Grp (Plus isdecimal)) (run OPTIONAL_QUOTE accept))
                 (oq ++ ds ++ cq ++ rest) g = Some (Some ds, rest)).
  { intros g. destruct oq as [|c oq].
    - rewrite run_OPTIONAL_QUOTE_skip; [apply H5|].
      intros c t Hct. destruct ds as [|d ds]; [done|]. inv Hct.
      simpl in Hds. apply andb_true_iff in Hds as [Hd _].
      by apply decimal_not_quote.
    - by apply run_OPTIONAL_QUOTE_take. }
  assert (Hhead : forall c t, oq ++ ds ++ cq ++ rest = c :: t -> isspace c = false).
  { intros c t Hct. destruct oq as [|c' oq'].
    - destruct ds as [|d ds]; [done|]. inv Hct.
      simpl in Hds. apply andb_true_iff in Hds as [Hd _].
      by apply decimal_not_space.
    - inv Hct. by destruct (quote_shape_head _ _ _ Hoq eq_refl) as [->|[->%N.eqb_eq| ->%N.eqb_eq]%orb_true_iff]. }
  apply star_greedy; [done|by intros c t [= <- <-]|].
  unfold Chr. cbn [run app]. rewrite N.eqb_refl.
  apply star_greedy; [done|done|]. apply H4.
Qed.

Lemma d_like_spec c : d_like c = true -> c = 0x64 \/ c = 0x44.
Proof.
  unfold d_like, ci. change (ascii_lower 100) with 100. change (100 - 32) with 68.
  change (is_lower 100) with true. change (100 =? 105) with false.
  change (100 =? 115) with false. change (100 =? 107) with false.
  rewrite !andb_false_l, !orb_false_r, andb_true_l.
  intros [H|H]%orb_true_iff; apply N.eqb_eq in H; auto.
Qed.

Lemma not_d_like (p : N -> bool) c :
  p 0x64 = false -> p 0x44 = false -> p c = true -> d_like c = false.
Proof.
  intros H1 H2 Hc. destruct (d_like c) eqn:Hd; [|done].
  apply d_like_spec in Hd as [-> | ->]; congruence.
Qed.

Lemma decimal_not_d_like c : digits_well_formed -> isdecimal c = true -> d_like c = false.
Proof.
  intros [Hascii _] Hc. apply bool_decide_eq_true in Hc.
  destruct (d_like c) eqn:Hd; [|done].
  apply d_like_spec in Hd as [-> | ->]; by apply Hascii in Hc.
Qed.

Lemma never_empty_DATA_LINE : never_empty DATA_LINE_ATTR_PATTERN.
Proof.
  intros s g rest H. apply match_at_sound in H as (u & -> & H).
  apply derives_DATA_LINE in H as (ds & (h & ? & ? & ? & ? & -> & Hh & _) & _).
  apply Forall2_length in Hh. rewrite !length_app. simpl in Hh. lia.
Qed.

Lemma sub_hit_app r f g u rest :
  u <> [] -> match_at r (u ++ rest) = Some (g, rest) ->
  sub r f (u ++ rest) = f (Hit g u) ++ sub r f rest.
Proof. destruct u as [|c u]; [done|]. intros _. apply sub_hit. Qed.

Lemma normalize_nil : normalize_data_line_attribute [] = [].
Proof. apply sub_nil, never_empty_DATA_LINE. Qed.

Lemma normalize_miss c s :
  match_at DATA_LINE_ATTR_PATTERN (c :: s) = None ->
  normalize_data_line_attribute (c :: s) = c :: normalize_data_line_attribute s.
Proof. apply sub_miss. Qed.

Lemma normalize_hit g u rest :
  u <> [] -> match_at DATA_LINE_ATTR_PATTERN (u ++ rest) = Some (g, rest) ->
  normalize_data_line_attribute (u ++ rest)
  = canonical (default [] g) ++ normalize_data_line_attribute rest.
Proof. intros Hu H. unfold normalize_data_line_attribute. by rewrite (sub_hit_app _ _ _ _ _ Hu H). Qed.

(** The canonical attribute is matched whole, whatever follows it. *)
Lemma match_at_canonical ds z :
  digits_well_formed -> ds <> [] -> forallb isdecimal ds = true ->
  match_at DATA_LINE_ATTR_PATTERN (canonical ds ++ z) = Some (Some ds, z).
Proof.
  intros Hwf Hne Hds.
  pose proof (match_at_DATA_LINE_exact (py "data-line") [] [] [QUOTE] ds [QUOTE] z Hwf) as H.
  unfold canonical. rewrite <- !app_assoc. apply H; try done.
  - repeat constructor.
  - right. exists QUOTE. auto.
  - right. exists QUOTE. auto.
  - by left.
Qed.

(** Up to the first match the normalized text is the text itself. *)
Lemma normalize_prefix : forall t p y,
  normalize_data_line_attribute t = p ++ y ->
  forallb (fun c => negb (d_like c)) p = true ->
  exists y', t = p ++ y'.
Proof.
  intros t. pattern t. apply (scan_ind DATA_LINE_ATTR_PATTERN); clear t.
  - apply never_empty_DATA_LINE.
  - intros p y H _. rewrite normalize_nil in H.
    symmetry in H. apply app_eq_nil in H as [-> _]. by exists [].
  - intros c s Hm IH p y H Hp. rewrite normalize_miss in H by done.
    destruct p as [|c' p]; [by exists (c :: s)|].
    simpl in H, Hp. inv H. apply andb_true_iff in Hp as [_ Hp].
    destruct (IH p y H2 Hp) as [y' ->]. by exists y'.
  - intros g c u rest Hm _ p y H Hp.
    change (c :: u ++ rest) with ((c :: u) ++ rest) in H, Hm.
    rewrite (normalize_hit g) in H by done.
    destruct p as [|c' p]; [by eexists|].
    simpl in H, Hp. by inv H.
Qed.

Lemma literal_not_d_like h :
  Forall2 (fun l c => ci l c = true) (py "ata-line") h ->
  forallb (fun c => negb (d_like c)) h = true.
Proof.
  intros H. let l := eval vm_compute in (py "ata-line") in change (py "ata-line") with l in H.
  repeat match goal with
  | H : Forall2 _ (_ :: _) _ |- _ => inv H
  | H : Forall2 _ [] _ |- _ => inv H
  end. cbn [forallb].
  repeat match goal with
  | H : ci ?l ?c = true |- _ => rewrite (not_d_like (ci l) c eq_refl eq_refl H); clear H
  end. done.
Qed.

Lemma forallb_not_d_like (p : N -> bool) w :
  p 0x64 = false -> p 0x44 = false -> forallb p w = true ->
  forallb (fun c => negb (d_like c)) w = true.
Proof.
  intros H1 H2. induction w as [|c w IH]; cbn [forallb]; [done|].
  intros [Hc Hw]%andb_true_iff. by rewrite (not_d_like p c), IH.
Qed.

Lemma quote_not_d_like q :
  quote_shape q -> forallb (fun c => negb (d_like c)) q = true.
Proof.
  intros [->|(c & Hc & [->| ->])]; cbn [forallb]; [done|..];
    by rewrite ?(not_d_like is_quote c), ?(not_d_like (N.eqb BACKSLASH) BACKSLASH).
Qed.

(** A position at which the attempt fails still fails once the text
    behind it is normalized. *)
Lemma match_at_normalized_tail c t :
  digits_well_formed ->
  match_at DATA_LINE_ATTR_PATTERN (c :: t) = None ->
  match_at DATA_LINE_ATTR_PATTERN (c :: normalize_data_line_attribute t) = None.
Proof.
  intros Hwf Hnone.
  destruct (match_at _ (c :: normalize_data_line_attribute t)) as [[g rest]|] eqn:Hm; [|done].
  exfalso. apply match_at_sound in Hm as (u & Hu & Hd).
  apply derives_DATA_LINE in Hd
    as (ds & (h & w1 & w2 & oq & cq & -> & Hh & Hw1 & Hw2 & Hoq & Hne & Hds & Hcq) & _).
  destruct ds as [|d ds]; [done|]. simpl in Hds. apply andb_true_iff in Hds as [Hd Hds].
  change (py "data-line") with (0x64 :: py "ata-line") in Hh.
  apply Forall2_cons_inv_l in Hh as (c0 & h' & Hc0 & Hh' & ->).
  simpl in Hu. injection Hu as <- Hnorm.
  assert (Hcore : forallb (fun c => negb (d_like c))
                    (h' ++ w1 ++ [0x3D] ++ w2 ++ oq ++ [d]) = true).
  { rewrite !forallb_app. rewrite (literal_not_d_like h') by done.
    rewrite (forallb_not_d_like isspace w1), (forallb_not_d_like isspace w2) by done.
    rewrite (quote_not_d_like oq) by done. cbn [forallb].
    by rewrite (not_d_like (N.eqb 0x3D) 0x3D), (decimal_not_d_like d). }
  destruct (normalize_prefix t (h' ++ w1 ++ [0x3D] ++ w2 ++ oq ++ [d]) (ds ++ cq ++ rest))
    as [y' ->]; [rewrite Hnorm; by repeat (rewrite <- ?app_assoc; simpl)|done|].
  assert (Hsome : is_Some (match_at DATA_LINE_ATTR_PATTERN
            ((c :: h' ++ w1 ++ [0x3D] ++ w2 ++ oq ++ [d]) ++ y'))).
  { apply (match_at_complete _ _ _ (Some [d])). apply derives_DATA_LINE.
    exists [d]. split; [|done]. exists (c :: h'), w1, w2, oq, [].
    rewrite app_nil_r. repeat split; try done.
    - by constructor.
    - simpl. by rewrite Hd.
    - by left. }
  change (is_Some (match_at DATA_LINE_ATTR_PATTERN
            (c :: (h' ++ w1 ++ [0x3D] ++ w2 ++ oq ++ [d]) ++ y'))) in Hsome.
  rewrite Hnone in Hsome. by destruct Hsome.
Qed.

Lemma normalize_idempotent text :
  digits_well_formed ->
  normalize_data_line_attribute (normalize_data_line_attribute text)
  = normalize_data_line_attribute text.
Proof.
  intros Hwf. pattern text. apply (scan_ind DATA_LINE_ATTR_PATTERN); clear text.
  - apply never_empty_DATA_LINE.
  - by rewrite !normalize_nil.
  - intros c s Hm IH. rewrite normalize_miss by done.
    rewrite normalize_miss by by apply match_at_normalized_tail. by rewrite IH.
  - intros g c u rest Hm IH.
    change (c :: u ++ rest) with ((c :: u) ++ rest) in *.
    rewrite (normalize_hit g) by done.
    pose proof Hm as Hm'. apply match_at_sound in Hm' as (u' & Hu' & Hd).
    apply derives_DATA_LINE in Hd as (ds & (h & w1 & w2 & oq & cq & _ & _ & _ & _ & _ & Hne & Hds & _) & ->).
    simpl default.
    rewrite (normalize_hit (Some ds)).
    + simpl. by rewrite IH.
    + unfold canonical. by destruct ds.
    + by apply match_at_canonical.
Qed.

(** C7. Identity-attribute normalization is idempotent, and it turns every
    text the tolerant pattern accepts (attribute name in any case, blanks
    around the equal sign, single, double, escaped or missing quotes) into
    the canonical unescaped double-quote form of its digits. *)
Theorem normalize_idempotent_canonical :
  digits_well_formed ->
  (forall text,
      normalize_data_line_attribute (normalize_data_line_attribute text)
      = normalize_data_line_attribute text)
  /\ (forall u ds, dl_shape u ds -> normalize_data_line_attribute u = canonical ds).
Proof.
  intros Hwf. split; [intros text; by apply normalize_idempotent|].
  intros u ds (h & w1 & w2 & oq & cq & -> & Hh & Hw1 & Hw2 & Hoq & Hne & Hds & Hcq).
  pose proof (match_at_DATA_LINE_exact h w1 w2 oq ds cq [] Hwf Hh Hw1 Hw2 Hoq Hne Hds Hcq
                (or_intror eq_refl)) as Hm.
  rewrite app_nil_r in Hm.
  set (U := h ++ w1 ++ [0x3D] ++ w2 ++ oq ++ ds ++ cq) in *.
  assert (HU : U <> []).
  { apply Forall2_length in Hh. intros Heq. apply (f_equal length) in Heq.
    unfold U in Heq. rewrite length_app in Heq. simpl in Heq, Hh. lia. }
  rewrite <- (app_nil_r U) in Hm |- *.
  rewrite (normalize_hit (Some ds) U [] HU Hm), normalize_nil.
  simpl. by rewrite app_nil_r.
Qed.

End DataLine.

Lemma ascii_digits_well_formed : @digits_well_formed echo_environment.
Proof.
  split; intros c [v Hv]; simpl in Hv; unfold ascii_decimal in Hv;
    destruct (is_ascii_digit c) eqn:Hd; try discriminate; [done|].
  unfold is_ascii_digit, in_range in Hd. apply andb_true_iff in Hd as [Hlo Hhi].
  apply N.leb_le in Hlo, Hhi. unfold isspace.
  repeat (apply orb_false_iff; split);
    try (apply N.eqb_neq; lia);
    apply andb_false_iff; (left; apply N.leb_gt; lia) || (right; apply N.leb_gt; lia).
Qed.

(** An escaped, upper-case attribute is normalized to [data-line="12"], and
    normalizing twice changes nothing more. *)
Lemma normalize_idempotent_canonical_witness :
  @digits_well_formed echo_environment
  /\ (@normalize_data_line_attribute echo_environment
        (@normalize_data_line_attribute echo_environment
           (py "<p DATA-LINE = \" ++ [QUOTE] ++ py "12\" ++ [QUOTE] ++ py ">x</p>"))
      = @normalize_data_line_attribute echo_environment
          (py "<p DATA-LINE = \" ++ [QUOTE] ++ py "12\" ++ [QUOTE] ++ py ">x</p>"))
  /\ @normalize_data_line_attribute echo_environment
        (py "DATA-LINE" ++ py " " ++ [0x3D] ++ py " " ++ [BACKSLASH; QUOTE]
           ++ py "12" ++ [BACKSLASH; QUOTE])
      = @canonical (py "12").
Proof.
  split; [exact ascii_digits_well_formed|].
  destruct (@normalize_idempotent_canonical echo_environment ascii_digits_well_formed)
    as [Hidem Hcanon].
  split; [apply Hidem|]. apply Hcanon.
  exists (py "DATA-LINE"), (py " "), (py " "), [BACKSLASH; QUOTE], [BACKSLASH; QUOTE].
  split; [reflexivity|]. split; [repeat constructor|].
  split; [reflexivity|]. split; [reflexivity|].
  split; [right; exists QUOTE; auto|]. split; [discriminate|].
  split; [reflexivity|]. right; exists QUOTE; auto.
Defined.

(** ** The translated-line map *)

Lemma foldl_insert_last {A} (key : A -> Z) (val : A -> list N) (k : Z) :
  forall (l : list A) (m : gmap Z (list N)),
  foldl (fun m h => <[ key h := val h ]> m) m l !! k
  = match last (List.filter (fun h => (key h =? k)%Z) l) with
    | Some h => Some (val h)
    | None => m !! k
    end.
Proof.
  induction l as [|h l IH]; intros m; simpl; [done|].
  rewrite IH. destruct (Z.eqb_spec (key h) k) as [Hk|Hk].
  - destruct (List.filter _ l) as [|h' l'] eqn:Hf; simpl.
    + by rewrite Hk, lookup_insert_eq.
    + rewrite last_cons. by destruct (last l').
  - destruct (last (List.filter _ l)); [done|]. by rewrite lookup_insert_ne.
Qed.

Section TranslationMap.
Context {E : environment}.

Lemma line_translation_map_lookup (translated_content : str) (token : Z) :
  line_translation_map translated_content !! token
  = (fun unit => normalize_data_line_attribute (hit_text unit))
      <$> last (units_carrying token translated_content).
Proof.
  unfold line_translation_map, units_carrying.
  rewrite (foldl_insert_last (fun h => int (group h))
             (fun h => normalize_data_line_attribute (hit_text h))).
  by destruct (last _).
Qed.
(** C9. When the translated content holds several line units with the same
    identity token, the map used for reinsertion binds the token to the
    last of them in the text: its binding is the last unit carrying the
    token, and every unit before it is dropped. *)
Theorem duplicate_units_last_wins (translated_content : str) (token : Z) :
  line_translation_map translated_content !! token
  = (fun unit => normalize_data_line_attribute (hit_text unit))
      <$> last (units_carrying token translated_content)
  /\ (forall earlier unit,
        units_carrying token translated_content = earlier ++ [unit] ->
        line_translation_map translated_content !! token
        = Some (normalize_data_line_attribute (hit_text unit))).
Proof.
  split; [apply line_translation_map_lookup|].
  intros earlier unit Hunits.
  by rewrite line_translation_map_lookup, Hunits, last_snoc.
Qed.

(** Every value of the map is a normalized match of the tagged-line
    pattern. *)
Lemma line_translation_map_value (translated_content : str) (token : Z) (v : str) :
  line_translation_map translated_content !! token = Some v ->
  exists unit, unit ∈ finditer P_TAG_WITH_LINE_PATTERN translated_content
            /\ v = normalize_data_line_attribute (hit_text unit).
Proof.
  rewrite line_translation_map_lookup. unfold units_carrying.
  destruct (last _) as [unit|] eqn:Hlast; [|done]. intros [= <-].
  exists unit. split; [|done]. apply last_Some in Hlast as [l' Hl'].
  assert (Hin : In unit (List.filter (fun h => (int (group h) =? token)%Z)
                           (finditer P_TAG_WITH_LINE_PATTERN translated_content))).
  { rewrite Hl'. apply in_or_app. right. by left. }
  apply filter_In in Hin as [Hin _]. by apply list_elem_of_In.
Qed.

End TranslationMap.

(** ** The reinsertion loop *)

Section Reinsertion.
Context {E : environment}.
Variable V : variant.

Lemma reinsert_step_eq map lines ok ko item :
  reinsert_step V map (lines, ok, ko) item
  = (match replacement map item with
     | Some t => <[ fst (fst item) := t ]> lines
     | None => lines
     end,
     fst (tally (verdict V map item) (ok, ko)),
     snd (tally (verdict V map item) (ok, ko))).
Proof.
  destruct item as [[idx line] num]. unfold reinsert_step, replacement, verdict. simpl.
  destruct (num =? -1)%Z; [done|].
  destruct (map !! num) as [v|]; [|done].
  destruct (strip (normalize_data_line_attribute v)); [done|].
  by destruct (source_detected V _).
Qed.

Lemma reinsert_fold_length map : forall batch lines ok ko,
  length (fst (fst (foldl (reinsert_step V map) (lines, ok, ko) batch))) = length lines.
Proof.
  induction batch as [|item batch IH]; intros lines ok ko; cbn [foldl]; [done|].
  rewrite reinsert_step_eq, IH. destruct (replacement map item); [|done].
  apply length_insert.
Qed.

Lemma reinsert_fold_other map j : forall batch lines ok ko,
  j ∉ indices batch ->
  fst (fst (foldl (reinsert_step V map) (lines, ok, ko) batch)) !! j = lines !! j.
Proof.
  induction batch as [|item batch IH]; intros lines ok ko Hj; cbn [foldl]; [done|].
  cbn [indices List.map] in Hj. apply not_elem_of_cons in Hj as [Hne Hj].
  rewrite reinsert_step_eq, IH by done. destruct (replacement map item); [|done].
  by apply list_lookup_insert_ne.
Qed.

Lemma reinsert_fold_item map : forall batch lines ok ko item,
  NoDup (indices batch) -> item ∈ batch ->
  fst (fst (foldl (reinsert_step V map) (lines, ok, ko) batch)) !! fst (fst item)
  = match replacement map item with
    | Some t => if decide (fst (fst item) < length lines)%nat then Some t else None
    | None => lines !! fst (fst item)
    end.
Proof.
  induction batch as [|x batch IH]; intros lines ok ko item Hnd Hin; [by inv Hin|].
  cbn [indices List.map] in Hnd. apply NoDup_cons in Hnd as [Hx Hnd]. cbn [foldl].
  rewrite reinsert_step_eq. apply elem_of_cons in Hin as [->|Hin].
  - rewrite reinsert_fold_other by done.
    destruct (replacement map x) as [t|]; [|done].
    case_decide.
    + by apply list_lookup_insert_eq.
    + rewrite list_insert_ge by lia. apply lookup_ge_None. lia.
  - rewrite IH by done.
    assert (Hne : fst (fst x) <> fst (fst item)).
    { intros Heq. apply Hx. rewrite Heq. apply list_elem_of_In.
      apply (in_map (fun item : nat * str * Z => fst (fst item))).
      by apply list_elem_of_In. }
    destruct (replacement map x) as [t|]; [|done].
    rewrite length_insert. destruct (replacement map item); [done|].
    by apply list_lookup_insert_ne.
Qed.

Lemma reinsert_fold_counts map : forall batch lines ok ko,
  snd (fst (foldl (reinsert_step V map) (lines, ok, ko) batch))
  = (ok + length (List.filter (fun item => bool_decide (verdict V map item = Some true)) batch))%nat
  /\ snd (foldl (reinsert_step V map) (lines, ok, ko) batch)
  = (ko + length (List.filter (fun item => bool_decide (verdict V map item = Some false)) batch))%nat.
Proof.
  induction batch as [|item batch IH]; intros lines ok ko; cbn [foldl List.filter]; [simpl; split; lia|].
  rewrite reinsert_step_eq.
  destruct (IH (match replacement map item with
                | Some t => <[ fst (fst item) := t ]> lines | None => lines end)
               (fst (tally (verdict V map item) (ok, ko)))
               (snd (tally (verdict V map item) (ok, ko)))) as [-> ->].
  destruct (verdict V map item) as [[|]|]; simpl; split; lia.
Qed.

Lemma reinsert_fold_identified map : forall batch lines ok ko,
  foldl (reinsert_step V map) (lines, ok, ko) batch
  = foldl (reinsert_step V map) (lines, ok, ko) (identified batch).
Proof.
  induction batch as [|item batch IH]; intros lines ok ko; [done|].
  unfold identified. cbn [foldl List.filter].
  destruct (snd item =? -1)%Z eqn:Hn; cbn [negb foldl].
  - fold (identified batch). rewrite <- IH. f_equal. rewrite reinsert_step_eq.
    unfold replacement, verdict. by rewrite Hn.
  - fold (identified batch). rewrite !reinsert_step_eq. apply IH.
Qed.

End Reinsertion.

(** ** Lines read and written *)

Lemma unbroken_app a b : unbroken (a ++ b) = unbroken a && unbroken b.
Proof. apply forallb_app. Qed.

Lemma readlines_from_unbroken body : forall current rest,
  unbroken body = true ->
  readlines_from current (body ++ LF :: rest)
  = (rev current ++ body ++ [LF]) :: readlines_from [] rest.
Proof.
  induction body as [|c body IH]; intros current rest Hb.
  - reflexivity.
  - simpl in Hb. apply andb_true_iff in Hb as [Hc Hb].
    unfold is_break in Hc. apply negb_true_iff, orb_false_iff in Hc as [Hlf Hcr].
    cbn [app readlines_from]. rewrite Hlf, Hcr, IH by done.
    simpl. by rewrite <- app_assoc.
Qed.

Lemma readlines_from_end l : forall current,
  unbroken l = true ->
  readlines_from current l = match rev current ++ l with [] => [] | x => [x] end.
Proof.
  induction l as [|c l IH]; intros current Hb.
  - simpl. rewrite app_nil_r. destruct current as [|a current]; [done|].
    simpl. by destruct (rev current ++ [a]) eqn:Heq; [destruct (rev current)|].
  - simpl in Hb. apply andb_true_iff in Hb as [Hc Hb].
    unfold is_break in Hc. apply negb_true_iff, orb_false_iff in Hc as [Hlf Hcr].
    cbn [readlines_from]. rewrite Hlf, Hcr, IH by done.
    simpl. by rewrite <- app_assoc.
Qed.

(** Writing shaped lines and reading them again gives the same lines. *)
Lemma readlines_writelines ls : lines_shaped ls -> readlines (writelines ls) = ls.
Proof.
  unfold readlines, writelines. induction ls as [|l ls IH]; [done|].
  intros Hs. destruct ls as [|l' ls].
  - simpl in Hs |- *. rewrite app_nil_r. destruct Hs as [(body & -> & Hb)|[Hne Hb]].
    + by rewrite (readlines_from_unbroken body [] []).
    + rewrite readlines_from_end by done. by destruct l.
  - destruct Hs as [(body & -> & Hb) Hs].
    change (concat ((body ++ [LF]) :: l' :: ls))
      with ((body ++ [LF]) ++ concat (l' :: ls)).
    rewrite <- app_assoc. cbn [app].
    rewrite (readlines_from_unbroken body [] _) by done. by rewrite IH.
Qed.

Lemma lines_shaped_insert t : forall ls i,
  lines_shaped ls -> line_shaped t -> lines_shaped (<[ i := t ]> ls).
Proof.
  induction ls as [|l ls IH]; intros i Hs Ht; [done|].
  destruct ls as [|l' ls].
  - destruct i; simpl; auto.
  - destruct Hs as [Hl Hs]. destruct i as [|i].
    + simpl. auto.
    + specialize (IH i Hs Ht). simpl in IH |- *.
      destruct i; simpl in *; auto.
Qed.

(** ** Normalized and tagged texts *)

Lemma ci_symbol l c : is_alpha l = false -> ci l c = true -> c = l.
Proof.
  unfold is_alpha, ci, ascii_lower. intros [Hlo Hup]%orb_false_iff. rewrite Hup, Hlo.
  rewrite andb_false_l, orb_false_r.
  assert (H1 : (l =? 0x69) = false).
  { apply N.eqb_neq. intros ->. discriminate. }
  assert (H2 : (l =? 0x73) = false).
  { apply N.eqb_neq. intros ->. discriminate. }
  assert (H3 : (l =? 0x6B) = false).
  { apply N.eqb_neq. intros ->. discriminate. }
  rewrite H1, H2, H3. rewrite !andb_false_l, !orb_false_r.
  by intros ->%N.eqb_eq.
Qed.

Lemma last_canonical ds : last (canonical ds) = Some QUOTE.
Proof. unfold canonical. by rewrite !app_assoc, last_snoc. Qed.

Section Tagged.
Context {E : environment}.

Lemma match_at_DATA_LINE_head c s g rest :
  match_at DATA_LINE_ATTR_PATTERN (c :: s) = Some (g, rest) -> d_like c = true.
Proof.
  intros H. apply match_at_sound in H as (u & Hu & Hd).
  apply derives_DATA_LINE in Hd as (ds & (h & ? & ? & ? & ? & -> & Hh & _) & _).
  change (py "data-line") with (0x64 :: py "ata-line") in Hh.
  apply Forall2_cons_inv_l in Hh as (c0 & h' & Hc0 & _ & ->).
  simpl in Hu. by injection Hu as -> _.
Qed.

Lemma normalize_head c s :
  d_like c = false ->
  normalize_data_line_attribute (c :: s) = c :: normalize_data_line_attribute s.
Proof.
  intros Hc. apply normalize_miss.
  destruct (match_at _ (c :: s)) as [[g rest]|] eqn:Hm; [|done].
  apply match_at_DATA_LINE_head in Hm. congruence.
Qed.

Lemma normalize_not_nil s : s <> [] -> normalize_data_line_attribute s <> [].
Proof.
  pattern s. apply (scan_ind DATA_LINE_ATTR_PATTERN); clear s.
  - apply never_empty_DATA_LINE.
  - done.
  - intros c s Hm _ _. by rewrite normalize_miss.
  - intros g c u rest Hm _ _.
    change (c :: u ++ rest) with ((c :: u) ++ rest) in *.
    by rewrite (normalize_hit g).
Qed.

(** The last character of a normalized text is the last character of the
    text, or the closing quote of a canonical attribute. *)
Lemma normalize_last s :
  s <> [] ->
  last (normalize_data_line_attribute s) = last s
  \/ last (normalize_data_line_attribute s) = Some QUOTE.
Proof.
  pattern s. apply (scan_ind DATA_LINE_ATTR_PATTERN); clear s.
  - apply never_empty_DATA_LINE.
  - done.
  - intros c s Hm IH _. rewrite normalize_miss by done.
    destruct s as [|c' s]; [rewrite (@normalize_nil E); by left|].
    pose proof (normalize_not_nil (c' :: s)) as Hne.
    destruct (normalize_data_line_attribute (c' :: s)) as [|x xs] eqn:Hn; [by destruct Hne|].
    rewrite !last_cons_cons. by apply IH.
  - intros g c u rest Hm IH _.
    change (c :: u ++ rest) with ((c :: u) ++ rest) in *.
    rewrite (normalize_hit g) by done.
    destruct rest as [|c' rest].
    + right. rewrite (@normalize_nil E), app_nil_r. apply last_canonical.
    + pose proof (normalize_not_nil (c' :: rest)) as Hne.
      destruct (IH ltac:(done)) as [IH'|IH'].
      * left. rewrite last_app, IH', last_app_cons.
        destruct (last (c' :: rest)) eqn:Hl; [done|]. by apply last_None in Hl.
      * right. by rewrite last_app, IH'.
Qed.

(** A class that holds of the text and of the canonical attribute holds
    of the normalized text. *)
Lemma normalize_forallb (p : N -> bool) s :
  forallb p (py "data-line=") = true -> p QUOTE = true ->
  forallb p s = true -> forallb p (normalize_data_line_attribute s) = true.
Proof.
  intros Hattr Hq. pattern s. apply (scan_ind DATA_LINE_ATTR_PATTERN); clear s.
  - apply never_empty_DATA_LINE.
  - by rewrite (@normalize_nil E).
  - intros c s Hm IH Hs. rewrite normalize_miss by done.
    simpl in Hs |- *. apply andb_true_iff in Hs as [-> Hs]. by apply IH.
  - intros g c u rest Hm IH Hs.
    change (c :: u ++ rest) with ((c :: u) ++ rest) in *.
    rewrite (normalize_hit g) by done.
    rewrite forallb_app in Hs. apply andb_true_iff in Hs as [Hu Hrest].
    apply match_at_sound in Hm as (u' & Hu' & Hd).
    apply app_inv_tail in Hu'. subst u'.
    apply derives_DATA_LINE in Hd as (ds & (h & w1 & w2 & oq & cq & Heq & _) & ->).
    rewrite Heq, !forallb_app in Hu.
    repeat (apply andb_true_iff in Hu as [? Hu]).
    unfold canonical. simpl default. rewrite !forallb_app, Hattr, IH by done.
    simpl. rewrite Hq. by repeat (apply andb_true_iff; split).
Qed.

Lemma derives_P_TAG u rest g g' :
  derives P_TAG_WITH_LINE_PATTERN u rest g g' ->
  exists body, u = 0x3C :: body ++ [0x3E].
Proof.
  unfold P_TAG_WITH_LINE_PATTERN. cbn [derives].
  intros (h & u1 & g1 & -> & Hh & w1 & u2 & g2 & -> & _ & a & u3 & g3 & -> & _
          & w2 & u4 & g4 & -> & _ & e & u5 & g5 & -> & _ & b & t & g6 & -> & _ & Ht).
  apply derives_LitI in Hh as [Hh _]. apply derives_LitI in Ht as [Ht _].
  let l := eval vm_compute in (py "<p") in change (py "<p") with l in Hh.
  let l := eval vm_compute in (py "</p>") in change (py "</p>") with l in Ht.
  apply Forall2_cons_inv_l in Hh as (c0 & h' & Hc0 & _ & ->).
  apply ci_symbol in Hc0; [|done]. subst c0.
  apply Forall2_cons_inv_l in Ht as (t1 & ? & _ & Ht & ->).
  apply Forall2_cons_inv_l in Ht as (t2 & ? & _ & Ht & ->).
  apply Forall2_cons_inv_l in Ht as (t3 & ? & _ & Ht & ->).
  apply Forall2_cons_inv_l in Ht as (t4 & ? & Ht4 & Ht & ->).
  apply Forall2_nil_inv_l in Ht as ->.
  apply ci_symbol in Ht4; [|done]. subst t4.
  exists (h' ++ w1 ++ a ++ w2 ++ e ++ b ++ [t1; t2; t3]).
  cbn [app]. f_equal. by repeat (rewrite <- ?app_assoc; cbn [app]).
Qed.

Lemma never_empty_P_TAG : never_empty P_TAG_WITH_LINE_PATTERN.
Proof.
  intros s g rest H. apply match_at_sound in H as (u & -> & H).
  apply derives_P_TAG in H as [body ->]. rewrite length_app. simpl. lia.
Qed.

(** Every match [finditer] yields is what one attempt consumed. *)
Lemma finditer_elem r s h :
  never_empty r -> h ∈ finditer r s ->
  exists rest, match_at r (hit_text h ++ rest) = Some (hit_group h, rest).
Proof.
  intros Hne. pattern s. apply (scan_ind r); clear s; [done|..].
  - rewrite finditer_nil by done. by intros ?%elem_of_nil.
  - intros c s Hm IH. by rewrite finditer_miss.
  - intros g c u rest Hm IH. rewrite (finditer_hit _ g) by done.
    intros [->|Hin]%elem_of_cons; [by exists rest|by apply IH].
Qed.

Lemma P_TAG_hit_shape content h :
  h ∈ finditer P_TAG_WITH_LINE_PATTERN content ->
  exists body, hit_text h = 0x3C :: body ++ [0x3E].
Proof.
  intros Hin. apply finditer_elem in Hin as [rest Hm]; [|apply never_empty_P_TAG].
  apply match_at_sound in Hm as (u & Hu & Hd). apply app_inv_tail in Hu. subst u.
  by apply derives_P_TAG in Hd.
Qed.

End Tagged.

(** ** What the reinsertion loop writes *)

Lemma endswith_LF t : endswith t [LF] = true -> last t = Some LF.
Proof.
  unfold endswith. intros H%bool_decide_eq_true.
  destruct t as [|c t] using rev_ind; [done|].
  by rewrite length_app, Nat.add_sub, drop_app_length in H; inv H; rewrite last_snoc.
Qed.

Lemma with_newline_fresh t : last t <> Some LF -> with_newline t = t ++ [LF].
Proof.
  intros Hlast. unfold with_newline.
  destruct (endswith t [LF]) eqn:He; [|done]. by apply endswith_LF in He.
Qed.

Lemma dropwhile_snoc p l c : p c = false -> dropwhile p (l ++ [c]) <> [].
Proof.
  intros Hc. induction l as [|x l IH]; simpl; [by rewrite Hc|].
  by destruct (p x).
Qed.

Lemma strip_nonblank c t : isspace c = false -> strip (c :: t) <> [].
Proof.
  intros Hc. unfold strip, lstrip, rstrip. simpl. rewrite Hc.
  intros H. apply (f_equal (@rev N)) in H. rewrite rev_involutive in H.
  simpl in H. by apply dropwhile_snoc in H.
Qed.

Section Written.
Context {E : environment}.
Variable V : variant.

(** A translated line taken from the map opens a tag, and ends with the
    end of a tag or with the closing quote of an attribute. *)
Lemma translated_line_shape content token v :
  line_translation_map content !! token = Some v ->
  exists t, normalize_data_line_attribute v = 0x3C :: t
         /\ last (normalize_data_line_attribute v) <> Some LF.
Proof.
  intros (unit & Hin & ->)%line_translation_map_value.
  destruct (P_TAG_hit_shape _ _ Hin) as [body Hbody]. rewrite Hbody.
  rewrite !normalize_head by done.
  eexists. split; [done|].
  set (inner := normalize_data_line_attribute (body ++ [0x3E])).
  assert (Hinner : last inner = Some 0x3E \/ last inner = Some QUOTE).
  { unfold inner.
    destruct (normalize_last (body ++ [0x3E])) as [H|H]; [by destruct body|..].
    - left. by rewrite H, last_snoc.
    - by right. }
  assert (Hne : inner <> []) by (apply normalize_not_nil; by destruct body).
  destruct (normalize_last inner Hne) as [H|H]; rewrite last_cons;
    destruct (last (normalize_data_line_attribute inner)) eqn:Hl.
  - destruct Hinner as [Hi|Hi]; rewrite Hi in H; by inv H.
  - by apply last_None, normalize_not_nil in Hl.
  - by inv H.
  - done.
Qed.

(** On a map built from a response, a bound line is always replaced, by
    the normalized unit and one newline. *)
Lemma replacement_bound content item v :
  (snd item =? -1)%Z = false ->
  line_translation_map content !! snd item = Some v ->
  replacement (line_translation_map content) item
  = Some (normalize_data_line_attribute v ++ [LF]).
Proof.
  intros Hnum Hv. unfold replacement. rewrite Hnum, Hv.
  destruct (translated_line_shape _ _ _ Hv) as (t & Ht & Hlast).
  rewrite with_newline_fresh by done. rewrite Ht at 1.
  pose proof (strip_nonblank 0x3C t eq_refl) as Hs.
  by destruct (strip (0x3C :: t)).
Qed.

Lemma replacement_Some content item t :
  replacement (line_translation_map content) item = Some t ->
  exists v, (snd item =? -1)%Z = false
         /\ line_translation_map content !! snd item = Some v
         /\ t = normalize_data_line_attribute v ++ [LF].
Proof.
  intros H. destruct (snd item =? -1)%Z eqn:Hnum; [by unfold replacement in H; rewrite Hnum in H|].
  destruct (line_translation_map content !! snd item) as [v|] eqn:Hv;
    [|by unfold replacement in H; rewrite Hnum, Hv in H].
  rewrite (replacement_bound _ _ v) in H by done. inv H. eauto.
Qed.

(** Every line of the result is a line of the document or a replacement. *)
Lemma reinsert_fold_lines map j l : forall batch lines ok ko,
  fst (fst (foldl (reinsert_step V map) (lines, ok, ko) batch)) !! j = Some l ->
  lines !! j = Some l \/ exists item, item ∈ batch /\ replacement map item = Some l.
Proof.
  induction batch as [|item batch IH]; intros lines ok ko; cbn [foldl]; [by left|].
  rewrite reinsert_step_eq. intros H. apply IH in H as [H|(item' & Hin & H)].
  - destruct (replacement map item) as [t|] eqn:Hr; [|by left].
    destruct (decide (fst (fst item) = j)) as [<-|Hne].
    + apply list_lookup_insert_Some in H as [(_ & <- & _)|[? _]]; [|done].
      right. exists item. split; [by left|done].
    + rewrite list_lookup_insert_ne in H by done. by left.
  - right. exists item'. split; [by right|done].
Qed.

Lemma reinsert_fold_shaped map : forall batch lines ok ko,
  (forall item t, item ∈ batch -> replacement map item = Some t -> line_shaped t) ->
  lines_shaped lines ->
  lines_shaped (fst (fst (foldl (reinsert_step V map) (lines, ok, ko) batch))).
Proof.
  induction batch as [|item batch IH]; intros lines ok ko Hrep Hs; cbn [foldl]; [done|].
  rewrite reinsert_step_eq. apply IH.
  - intros item' t Hin. apply Hrep. by right.
  - destruct (replacement map item) as [t|] eqn:Hr; [|done].
    apply lines_shaped_insert; [done|]. apply (Hrep item); [by left|done].
Qed.

(** C10. Every line the reinsertion loop writes into the document ends with
    exactly one newline: the unit taken from the response never ends with
    one, and one is appended.  The lines written back and read again are
    the lines in memory as long as no translated unit holds a line break
    of its own. *)
Theorem written_lines_newline (content : str) (lines : list str)
    (batch : list (nat * str * Z)) :
  (forall j l,
      fst (fst (reinsert V (line_translation_map content) lines batch)) !! j = Some l ->
      lines !! j = Some l
      \/ exists body, l = body ++ [LF] /\ body <> [] /\ last body <> Some LF)
  /\ (lines_shaped lines ->
      (forall unit, unit ∈ finditer P_TAG_WITH_LINE_PATTERN content ->
                    unbroken (hit_text unit) = true) ->
      readlines (writelines
                   (fst (fst (reinsert V (line_translation_map content) lines batch))))
      = fst (fst (reinsert V (line_translation_map content) lines batch))).
Proof.
  split.
  - intros j l H. apply reinsert_fold_lines in H as [H|(item & _ & H)]; [by left|].
    right. apply replacement_Some in H as (v & _ & Hv & ->).
    destruct (translated_line_shape _ _ _ Hv) as (t & Ht & Hlast).
    exists (normalize_data_line_attribute v). split; [done|]. split; [|done].
    by rewrite Ht.
  - intros Hs Hunits. apply readlines_writelines, reinsert_fold_shaped; [|done].
    intros item t _ H. apply replacement_Some in H as (v & _ & Hv & ->).
    exists (normalize_data_line_attribute v). split; [done|].
    apply line_translation_map_value in Hv as (unit & Hin & ->).
    unfold unbroken. apply normalize_forallb; [done..|].
    apply normalize_forallb; [done..|]. by apply Hunits.
Qed.

End Written.

(** A unit that spans two lines is written as one list entry and read back
    as two lines: the document had one line and has two after the reload. *)
Lemma written_lines_reload_counterexample :
  fst (fst (@reinsert echo_environment (@JP_variant echo_environment)
              (@line_translation_map echo_environment
                 (py "<p data-line=" ++ [QUOTE] ++ py "1" ++ [QUOTE] ++ py ">"
                    ++ [0x4F60; LF; 0x597D] ++ py "</p>"))
              [py "<p data-line=" ++ [QUOTE] ++ py "1" ++ [QUOTE] ++ py ">hello</p>" ++ [LF]]
              [(0%nat,
                py "<p data-line=" ++ [QUOTE] ++ py "1" ++ [QUOTE] ++ py ">hello</p>" ++ [LF],
                1%Z)]))
  = [py "<p data-line=" ++ [QUOTE] ++ py "1" ++ [QUOTE] ++ py ">"
       ++ [0x4F60; LF; 0x597D] ++ py "</p>" ++ [LF]]
  /\ readlines (writelines
       [py "<p data-line=" ++ [QUOTE] ++ py "1" ++ [QUOTE] ++ py ">"
          ++ [0x4F60; LF; 0x597D] ++ py "</p>" ++ [LF]])
     = [py "<p data-line=" ++ [QUOTE] ++ py "1" ++ [QUOTE] ++ py ">" ++ [0x4F60; LF];
        [0x597D] ++ py "</p>" ++ [LF]].
Proof. split; vm_compute; reflexivity. Qed.

(** A unit on one line: the document written and read again is unchanged. *)
Lemma written_lines_newline_witness :
  lines_shaped
    [py "<p data-line=" ++ [QUOTE] ++ py "1" ++ [QUOTE] ++ py ">hello</p>" ++ [LF]]
  /\ readlines (writelines
       (fst (fst (@reinsert echo_environment (@JP_variant echo_environment)
                    (@line_translation_map echo_environment
                       (py "<p data-line=1>" ++ [0x4F60; 0x597D] ++ py "</p>"))
                    [py "<p data-line=" ++ [QUOTE] ++ py "1" ++ [QUOTE] ++ py ">hello</p>" ++ [LF]]
                    [(0%nat, [], 1%Z)]))))
     = fst (fst (@reinsert echo_environment (@JP_variant echo_environment)
                   (@line_translation_map echo_environment
                      (py "<p data-line=1>" ++ [0x4F60; 0x597D] ++ py "</p>"))
                   [py "<p data-line=" ++ [QUOTE] ++ py "1" ++ [QUOTE] ++ py ">hello</p>" ++ [LF]]
                   [(0%nat, [], 1%Z)])).
Proof.
  assert (Hshaped : lines_shaped
    [py "<p data-line=" ++ [QUOTE] ++ py "1" ++ [QUOTE] ++ py ">hello</p>" ++ [LF]]).
  { left. exists (py "<p data-line=" ++ [QUOTE] ++ py "1" ++ [QUOTE] ++ py ">hello</p>").
    split; reflexivity. }
  split; [exact Hshaped|].
  apply (proj2 (@written_lines_newline echo_environment (@JP_variant echo_environment)
                  (py "<p data-line=1>" ++ [0x4F60; 0x597D] ++ py "</p>") _ _));
    [exact Hshaped|].
  intros unit Hin. vm_compute in Hin.
  apply list_elem_of_singleton in Hin. subst unit. reflexivity.
Defined.

(** ** The lines that need translation and their batches *)

Lemma sublist_map {A B} (f : A -> B) (l1 l2 : list A) :
  sublist l1 l2 -> sublist (List.map f l1) (List.map f l2).
Proof. induction 1; simpl; by constructor. Qed.

Lemma slice_sublist {A} (start stop : nat) (l : list A) : sublist (slice start stop l) l.
Proof. unfold slice. etrans; [apply sublist_take|apply sublist_drop]. Qed.

Lemma batch_failed_count_identified (batch : list (nat * str * Z)) :
  batch_failed_count (List.map snd batch) = length (identified batch).
Proof.
  unfold batch_failed_count, identified.
  induction batch as [|item batch IH]; simpl; [done|].
  destruct (snd item =? -1)%Z; simpl; by rewrite IH.
Qed.

Section Batches.
Context {E : environment}.
Variable V : variant.
Variable batch_size : nat.

Lemma translation_lines_indices_from (k : nat) : forall ls,
  sublist
    (indices
       (omap (fun '(idx, line) =>
                if needs_translation V line
                then Some (idx, line, extract_line_number line)
                else None)
             (imap (fun i x => ((k + i)%nat, x)) ls)))
    (seq k (length ls)).
Proof.
  intros ls. revert k. induction ls as [|line ls IH]; intros k; [constructor|].
  rewrite imap_cons. cbn [omap list_omap length seq].
  assert (Hext : imap ((fun i x => ((k + i)%nat, x)) ∘ S) ls
               = imap (fun i (x : str) => ((S k + i)%nat, x)) ls).
  { apply imap_ext. intros i x _. simpl. f_equal. lia. }
  fold (@omap list _ (nat * str) (nat * str * Z)). rewrite Hext.
  destruct (needs_translation V line); cbn [indices List.map fst].
  - rewrite Nat.add_0_r. apply sublist_skip, IH.
  - apply sublist_cons, IH.
Qed.

Lemma translation_lines_NoDup ls : NoDup (indices (get_translation_lines V ls)).
Proof.
  apply (sublist_NoDup _ (seq 0 (length ls))); [apply NoDup_seq|].
  apply (translation_lines_indices_from 0).
Qed.

Lemma batch_NoDup ls batch_idx :
  NoDup (indices (batch_data_of batch_size (get_translation_lines V ls) batch_idx)).
Proof.
  apply (sublist_NoDup _ (indices (get_translation_lines V ls)));
    [apply translation_lines_NoDup|].
  apply sublist_map, slice_sublist.
Qed.

Lemma verdict_identified map (item : nat * str * Z) :
  negb (snd item =? -1)%Z = bool_decide (verdict V map item <> None).
Proof.
  unfold verdict. destruct (snd item =? -1)%Z; [done|].
  destruct (map !! snd item) as [v|]; [|done].
  by destruct (strip (normalize_data_line_attribute v)).
Qed.

(** The two counts of a batch together count each identified line once. *)
Lemma verdict_counts map (batch : list (nat * str * Z)) :
  (length (List.filter (fun item => bool_decide (verdict V map item = Some true)) batch)
   + length (List.filter (fun item => bool_decide (verdict V map item = Some false)) batch))%nat
  = length (identified batch).
Proof.
  unfold identified. induction batch as [|item batch IH]; [done|].
  cbn [List.filter]. rewrite (verdict_identified map).
  destruct (verdict V map item) as [[|]|]; simpl; lia.
Qed.

(** C2 (as amended). Reinsertion keeps the number of lines and their order:
    every line outside the batch, every line of the batch without identity
    token, and every line whose token is missing from the translated map
    keeps its markup.  A line whose token is bound in the map is replaced by
    the normalized unit, also when it is counted as failed because the
    source language is still detected in its payload. *)
Theorem reinsertion_frame (lines0 lines : list str) (batch_idx : nat) (content : str) :
  let batch := batch_data_of batch_size (get_translation_lines V lines0) batch_idx in
  let map := line_translation_map content in
  let after := reinsert V map lines batch in
  length (fst (fst after)) = length lines
  /\ (forall j, j ∉ indices batch -> fst (fst after) !! j = lines !! j)
  /\ (forall item, item ∈ batch -> snd item = (-1)%Z \/ map !! snd item = None ->
        verdict V map item <> Some true
        /\ fst (fst after) !! fst (fst item) = lines !! fst (fst item))
  /\ (forall item v, item ∈ batch -> snd item <> (-1)%Z -> map !! snd item = Some v ->
        (fst (fst item) < length lines)%nat ->
        verdict V map item
        = Some (negb (source_detected V
                        (extract_text_from_tags (normalize_data_line_attribute v ++ [LF]))))
        /\ fst (fst after) !! fst (fst item)
           = Some (normalize_data_line_attribute v ++ [LF]))
  /\ snd (fst after)
     = length (List.filter (fun item => bool_decide (verdict V map item = Some true)) batch)
  /\ snd after
     = length (List.filter (fun item => bool_decide (verdict V map item = Some false)) batch).
Proof.
  intros batch map after. unfold after, reinsert.
  pose proof (batch_NoDup lines0 batch_idx) as Hnd. fold batch in Hnd.
  split; [apply reinsert_fold_length|].
  split; [intros j Hj; by apply reinsert_fold_other|].
  split.
  { intros item Hin Hnone. rewrite (reinsert_fold_item V map batch) by done.
    unfold verdict, replacement.
    destruct Hnone as [-> | ->]; [done|]. by destruct (snd item =? -1)%Z. }
  split.
  { intros item v Hin Hnum Hv Hlt. rewrite (reinsert_fold_item V map batch) by done.
    apply Z.eqb_neq in Hnum. unfold map in *.
    rewrite (replacement_bound _ _ v) by done. rewrite decide_True by done.
    split; [|done]. unfold verdict. rewrite Hnum, Hv.
    destruct (translated_line_shape _ _ _ Hv) as (t & Ht & Hlast).
    rewrite with_newline_fresh by done. rewrite Ht at 1.
    pose proof (strip_nonblank 0x3C t eq_refl) as Hs.
    by destruct (strip (0x3C :: t)). }
  destruct (reinsert_fold_counts V map batch lines 0 0) as [-> ->]. done.
Qed.

End Batches.

(** A line counted as failed and replaced all the same: the translated
    unit still holds English words, the batch reports no success and one
    failure, and the document holds the new markup. *)
Lemma reinsertion_frame_counterexample :
  @reinsert echo_environment (@JP_variant echo_environment)
    (@line_translation_map echo_environment
       (py "<p data-line=" ++ [QUOTE] ++ py "1" ++ [QUOTE] ++ py ">hello world</p>"))
    [py "<p data-line=" ++ [QUOTE] ++ py "1" ++ [QUOTE] ++ py ">hello</p>" ++ [LF]]
    (@batch_data_of 20
       (@get_translation_lines echo_environment (@JP_variant echo_environment)
          [py "<p data-line=" ++ [QUOTE] ++ py "1" ++ [QUOTE] ++ py ">hello</p>" ++ [LF]])
       0)
  = ([py "<p data-line=" ++ [QUOTE] ++ py "1" ++ [QUOTE] ++ py ">hello world</p>" ++ [LF]],
     0%nat, 1%nat)
  /\ py "<p data-line=" ++ [QUOTE] ++ py "1" ++ [QUOTE] ++ py ">hello world</p>" ++ [LF]
     <> py "<p data-line=" ++ [QUOTE] ++ py "1" ++ [QUOTE] ++ py ">hello</p>" ++ [LF].
Proof. split; [vm_compute; reflexivity|discriminate]. Qed.

(** ** One batch *)

Section BatchPaths.
Context {E : environment}.
Variable V : variant.
Variable batch_size : nat.

Lemma fail_batch_locals artifact batch_html_nums pending dictionary loc w :
  lines (fst (fail_batch artifact batch_html_nums pending dictionary loc w)) = lines loc
  /\ total_success (fst (fail_batch artifact batch_html_nums pending dictionary loc w))
     = total_success loc
  /\ total_failed (fst (fail_batch artifact batch_html_nums pending dictionary loc w))
     = (total_failed loc + batch_failed_count batch_html_nums)%nat.
Proof. done. Qed.

Lemma apply_response_locals batch_data pending dictionary response_text loc w :
  line_translation_map_raises (snd (parse_response V response_text)) = false ->
  let after :=
    reinsert V (line_translation_map (snd (parse_response V response_text)))
      (lines loc) batch_data in
  lines (fst (apply_response V batch_data pending dictionary response_text loc w))
  = fst (fst after)
  /\ total_success (fst (apply_response V batch_data pending dictionary response_text loc w))
     = (total_success loc + snd (fst after))%nat
  /\ total_failed (fst (apply_response V batch_data pending dictionary response_text loc w))
     = (total_failed loc + snd after)%nat.
Proof.
  unfold apply_response.
  destruct (parse_response V response_text) as [[new_dict new_sound] content].
  cbn [snd]. intros ->.
  destruct (reinsert V (line_translation_map content) (lines loc) batch_data)
    as [[ls ok] ko].
  by destruct new_dict, new_sound.
Qed.

(** When the loop that fills the map raises, the response ends in the
    handler of the inner [try]. *)
Lemma apply_response_raises batch_data pending dictionary response_text loc w :
  line_translation_map_raises (snd (parse_response V response_text)) = true ->
  exists dictionary' w1,
    apply_response V batch_data pending dictionary response_text loc w
    = fail_batch FailureArtifact (List.map snd batch_data) pending dictionary' loc w1.
Proof.
  unfold apply_response.
  destruct (parse_response V response_text) as [[new_dict new_sound] content].
  cbn [snd]. intros ->.
  destruct new_dict; eauto.
Qed.

(** A batch whose request file is written ends in a failure branch or in
    the reinsertion. *)
Lemma process_batch_cases japanese_lines batch_idx loc w :
  (exists artifact dictionary w1,
      process_batch V batch_size japanese_lines batch_idx (loc, w)
      = fail_batch artifact
          (List.map snd (batch_data_of batch_size japanese_lines batch_idx))
          (pending_after batch_size japanese_lines batch_idx)
          dictionary loc w1)
  \/ (exists response_text w1,
      line_translation_map_raises (snd (parse_response V response_text)) = false
      /\ process_batch V batch_size japanese_lines batch_idx (loc, w)
         = apply_response V (batch_data_of batch_size japanese_lines batch_idx)
             (pending_after batch_size japanese_lines batch_idx)
             (batch_dictionary batch_idx loc w) response_text loc w1).
Proof.
  unfold process_batch.
  destruct (call_grok_api _ 3 _) as [[response_text|] w1].
  - destruct (is_refusal_response V response_text); [left; eauto|].
    destruct (line_translation_map_raises (snd (parse_response V response_text))) eqn:Hr.
    + left. destruct (apply_response_raises
                        (batch_data_of batch_size japanese_lines batch_idx)
                        (pending_after batch_size japanese_lines batch_idx)
                        (batch_dictionary batch_idx loc w) response_text loc w1 Hr)
        as (d & w2 & ->). eauto.
    + right. eauto.
  - left. eauto.
Qed.

(** C8. A line of a batch whose identity token is -1 is in neither count,
    whichever way the batch ends (refusal, transport failure or
    reinsertion): the two counts together grow by the number of lines that
    carry a token, the failure count of the refusal and transport-failure
    branches is that number, the reinsertion loop gives the same result on
    the batch without these lines, and the document keeps their entries. *)
Theorem absent_identity_excluded (lines0 : list str) (batch_idx : nat)
    (loc : locals) (w : world) :
  let japanese_lines := get_translation_lines V lines0 in
  let batch := batch_data_of batch_size japanese_lines batch_idx in
  let after := fst (process_batch V batch_size japanese_lines batch_idx (loc, w)) in
  (forall item, item ∈ batch -> snd item = (-1)%Z ->
     lines after !! fst (fst item) = lines loc !! fst (fst item))
  /\ (total_success after + total_failed after)%nat
     = (total_success loc + total_failed loc + length (identified batch))%nat
  /\ batch_failed_count (List.map snd batch) = length (identified batch)
  /\ (forall map ls, reinsert V map ls batch = reinsert V map ls (identified batch)).
Proof.
  intros japanese_lines batch after. subst after.
  pose proof (batch_NoDup V batch_size lines0 batch_idx) as Hnd.
  fold japanese_lines in Hnd. fold batch in Hnd.
  pose proof (fail_batch_locals) as Hfail.
  pose proof (apply_response_locals batch
                (pending_after batch_size japanese_lines batch_idx)
                (batch_dictionary batch_idx loc w)) as Happly.
  pose proof (process_batch_cases japanese_lines batch_idx loc w) as Hcases.
  fold batch in Hcases.
  split; [|split; [|split]].
  - intros item Hin Hnum.
    destruct Hcases as [(artifact & d & w1 & ->)|(response_text & w1 & Hr & ->)].
    + by destruct (Hfail artifact (List.map snd batch)
                     (pending_after batch_size japanese_lines batch_idx)
                     d loc w1) as (-> & _).
    + destruct (Happly response_text loc w1 Hr) as (-> & _).
      unfold reinsert. rewrite (reinsert_fold_item V _ batch) by done.
      unfold replacement. by rewrite Hnum.
  - destruct Hcases as [(artifact & d & w1 & ->)|(response_text & w1 & Hr & ->)].
    + destruct (Hfail artifact (List.map snd batch)
                  (pending_after batch_size japanese_lines batch_idx)
                  d loc w1) as (_ & -> & ->).
      rewrite batch_failed_count_identified. lia.
    + destruct (Happly response_text loc w1 Hr) as (_ & -> & ->).
      unfold reinsert.
      destruct (reinsert_fold_counts V
                  (line_translation_map (snd (parse_response V response_text)))
                  batch (lines loc) 0 0) as [-> ->].
      pose proof (verdict_counts V
                    (line_translation_map (snd (parse_response V response_text))) batch).
      lia.
  - apply batch_failed_count_identified.
  - intros map ls. apply reinsert_fold_identified.
Qed.

End BatchPaths.

(** ** The translation client *)

Section Client.
Context {E : environment}.

Lemma world_eq w1 w2 :
  document w1 = document w2 -> glossary_file w1 = glossary_file w2 ->
  sound_file w1 = sound_file w2 -> tracker w1 = tracker w2 ->
  requests w1 = requests w2 -> draws w1 = draws w2 -> trace w1 = trace w2 ->
  w1 = w2.
Proof. destruct w1, w2; simpl; by intros -> -> -> -> -> -> ->. Qed.

(** The calls leave everything but the count of requests and the trace, and
    they never run the parser. *)
Lemma call_attempts_frame max_retries p : forall attempts w,
  let w' := snd (call_attempts attempts max_retries p w) in
  document w' = document w /\ glossary_file w' = glossary_file w
  /\ sound_file w' = sound_file w /\ tracker w' = tracker w /\ draws w' = draws w
  /\ parser_calls (trace w') = parser_calls (trace w).
Proof.
  induction attempts as [|attempt later IH]; intros w; simpl; [done|].
  set (w0 := if (0 <? attempt)%nat then log (Backoff (2 ^ N.of_nat attempt)) w else w).
  assert (H0 : document w0 = document w /\ glossary_file w0 = glossary_file w
               /\ sound_file w0 = sound_file w /\ tracker w0 = tracker w
               /\ draws w0 = draws w /\ parser_calls (trace w0) = parser_calls (trace w)).
  { unfold w0. destruct (0 <? attempt)%nat; [|done]. simpl.
    unfold parser_calls. rewrite List.filter_app, length_app. simpl.
    repeat split; lia. }
  destruct H0 as (Hd & Hg & Hs & Ht & Hr & Hp).
  assert (H1 : parser_calls (trace (count_request (log (ApiRequest (requests w0) p) w0)))
               = parser_calls (trace w)).
  { simpl. unfold parser_calls in *. rewrite List.filter_app, length_app. simpl. lia. }
  destruct (service (requests w0) p); [|done].
  destruct (attempt =? max_retries - 1)%nat; [done|].
  destruct (IH (count_request (log (ApiRequest (requests w0) p) w0)))
    as (-> & -> & -> & -> & -> & ->). done.
Qed.

(** C6. [call_grok_api] with its three attempts raises only when three
    requests in a row fail; the retry number k (1 or 2) comes after a
    backoff of 2^k seconds; the first request that succeeds ends the call
    with the content of the response; and the call changes nothing but the
    count of requests and the trace of what was sent. *)
Theorem call_grok_api_retries (p : prompt) (w : world) :
  (forall k text,
      (k < 3)%nat ->
      (forall j, (j < k)%nat -> service (requests w + j) p = TransportFailure) ->
      service (requests w + k) p = Content text ->
      call_grok_api p 3 w = (Returns text, after_attempts w p (S k)))
  /\ ((forall j, (j < 3)%nat -> service (requests w + j) p = TransportFailure) ->
      call_grok_api p 3 w = (Raises, after_attempts w p 3))
  /\ (fst (call_grok_api p 3 w) = Raises ->
      forall j, (j < 3)%nat -> service (requests w + j) p = TransportFailure)
  /\ attempts_trace (requests w) p 3
     = [ ApiRequest (requests w + 0) p;
         Backoff (2 ^ 1); ApiRequest (requests w + 1) p;
         Backoff (2 ^ 2); ApiRequest (requests w + 2) p ].
Proof.
  assert (E0 : (requests w + 0)%nat = requests w) by lia.
  assert (E1 : (requests w + 1)%nat = S (requests w)) by lia.
  assert (E2 : (requests w + 2)%nat = S (S (requests w))) by lia.
  assert (Hworld : forall w1 w2 : world,
             document w1 = document w2 -> glossary_file w1 = glossary_file w2 ->
             sound_file w1 = sound_file w2 -> tracker w1 = tracker w2 ->
             requests w1 = requests w2 -> draws w1 = draws w2 -> trace w1 = trace w2 ->
             w1 = w2) by apply world_eq.
  split; [|split; [|split]].
  - intros k text Hk Hfail Hok. unfold call_grok_api. simpl.
    destruct k as [|[|[|k]]]; [| | |lia].
    + rewrite E0 in Hok. rewrite Hok. f_equal.
      apply Hworld; simpl; unfold attempts_trace, attempt_events; simpl;
        rewrite ?E0; try done; lia.
    + pose proof (Hfail 0%nat ltac:(lia)) as H0. rewrite E0 in H0. rewrite E1 in Hok.
      rewrite H0, Hok. f_equal.
      apply Hworld; simpl; unfold attempts_trace, attempt_events; simpl;
        rewrite <- ?app_assoc, ?E0, ?E1; try done; lia.
    + pose proof (Hfail 0%nat ltac:(lia)) as H0. rewrite E0 in H0.
      pose proof (Hfail 1%nat ltac:(lia)) as H1. rewrite E1 in H1. rewrite E2 in Hok.
      rewrite H0, H1, Hok. f_equal.
      apply Hworld; simpl; unfold attempts_trace, attempt_events; simpl;
        rewrite <- ?app_assoc, ?E0, ?E1, ?E2; try done; lia.
  - intros Hfail. unfold call_grok_api. simpl.
    pose proof (Hfail 0%nat ltac:(lia)) as H0. rewrite E0 in H0.
    pose proof (Hfail 1%nat ltac:(lia)) as H1. rewrite E1 in H1.
    pose proof (Hfail 2%nat ltac:(lia)) as H2. rewrite E2 in H2.
    rewrite H0, H1, H2. f_equal.
    apply Hworld; simpl; unfold attempts_trace, attempt_events; simpl;
      rewrite <- ?app_assoc, ?E0, ?E1, ?E2; try done; lia.
  - unfold call_grok_api. simpl.
    destruct (service (requests w) p) eqn:Hs0; [|done].
    destruct (service (S (requests w)) p) eqn:Hs1; [|done].
    destruct (service (S (S (requests w))) p) eqn:Hs2; [|done].
    intros _ j Hj. destruct j as [|[|[|j]]]; [| | |lia].
    + by rewrite E0.
    + by rewrite E1.
    + by rewrite E2.
  - reflexivity.
Qed.

End Client.

(** ** Refusals and terminal states *)

Section Orchestration.
Context {E : environment}.
Variable V : variant.
Variable batch_size : nat.

Lemma call_grok_api_frame p w :
  let w' := snd (call_grok_api p 3 w) in
  document w' = document w /\ glossary_file w' = glossary_file w
  /\ sound_file w' = sound_file w /\ tracker w' = tracker w /\ draws w' = draws w
  /\ parser_calls (trace w') = parser_calls (trace w).
Proof. apply call_attempts_frame. Qed.

(** C4 (as amended). When the refusal detector holds of the response, the
    batch is recorded as failed: no line is counted as translated, every
    line of the batch that carries an identity token is counted as failed
    and the lines without token are in no count; the progress tracker
    records these counts and the lines still pending; the document in
    memory is unchanged, no request follows the refusal, the parser is not
    run, and the glossary, the sound dictionary and the document on disk
    are what they were. *)
Theorem refusal_fails_batch (japanese_lines : list (nat * str * Z)) (batch_idx : nat)
    (loc : locals) (w : world) (response_text : str) (w1 : world) :
  request_saved (draws w) (batch_request V batch_size japanese_lines batch_idx loc w) = true ->
  call_grok_api (batch_request V batch_size japanese_lines batch_idx loc w) 3
    (log RequestArtifact (count_draw w)) = (Returns response_text, w1) ->
  is_refusal_response V response_text = true ->
  let after := batch_turn V batch_size japanese_lines batch_idx (loc, w) in
  let failed :=
    (total_failed loc
     + length (identified (batch_data_of batch_size japanese_lines batch_idx)))%nat in
  lines (fst after) = lines loc
  /\ total_success (fst after) = total_success loc
  /\ total_failed (fst after) = failed
  /\ tracker (snd after)
     = (fun pg =>
          Progress (pg_total pg) (pg_translation_total pg) (pg_skipped pg)
            (total_success loc) failed (pending_after batch_size japanese_lines batch_idx)
            (pg_dict_count pg)
            (match pg_status pg with Waiting => Processing | s => s end)) <$> tracker w
  /\ requests (snd after) = requests w1
  /\ trace (snd after) = trace w1 ++ [RefusalArtifact]
  /\ parser_calls (trace (snd after)) = parser_calls (trace w)
  /\ glossary_file (snd after) = glossary_file w
  /\ sound_file (snd after) = sound_file w
  /\ document (snd after) = document w.
Proof.
  intros Hsaved Hcall Hrefusal after failed. subst after failed.
  unfold batch_turn. rewrite Hsaved. unfold process_batch.
  rewrite Hcall, Hrefusal.
  pose proof (call_grok_api_frame
                (batch_request V batch_size japanese_lines batch_idx loc w)
                (log RequestArtifact (count_draw w))) as Hframe.
  rewrite Hcall in Hframe. cbn [snd] in Hframe.
  destruct Hframe as (Hd & Hg & Hs & Ht & _ & Hp).
  cbn [tracker log count_draw] in Ht.
  unfold fail_batch, update_progress. cbn [fst snd lines total_success total_failed].
  rewrite batch_failed_count_identified.
  assert (Hparser : parser_calls (trace w1 ++ [RefusalArtifact]) = parser_calls (trace w)).
  { unfold parser_calls in *. rewrite List.filter_app, length_app, Hp. simpl.
    rewrite List.filter_app, length_app. simpl. lia. }
  change (tracker (log RefusalArtifact w1)) with (tracker w1). rewrite Ht.
  destruct (tracker w); simpl; repeat split; done.
Qed.

Lemma update_progress_frame success failed pending w :
  let w' := update_progress success failed pending w in
  document w' = document w /\ glossary_file w' = glossary_file w
  /\ sound_file w' = sound_file w /\ requests w' = requests w /\ trace w' = trace w
  /\ (is_Some (tracker w) -> is_Some (tracker w')).
Proof.
  unfold update_progress. destruct (tracker w) eqn:Ht; simpl; rewrite ?Ht; by repeat split.
Qed.









Lemma process_file_raises w content :
  document w = Some content ->
  get_translation_lines_raises V (readlines content) = true ->
  process_file V batch_size w = (Result 0 0 0 0 FileFailed, complete_progress Failed w).
Proof. intros H Hr. unfold process_file. by rewrite H, Hr. Qed.

Lemma process_file_skipped w content :
  document w = Some content ->
  get_translation_lines_raises V (readlines content) = false ->
  get_translation_lines V (readlines content) = [] ->
  process_file V batch_size w
  = (Result (length (readlines content)) 0 0 0 FileSkipped, complete_progress Skipped w).
Proof. intros H Hr Hl. unfold process_file. by rewrite H, Hr, Hl. Qed.



End Orchestration.

(** The refusal path on the sample document, with a service that answers
    with a refusal: one line carries an identity token and is counted as
    failed, one request was sent and the parser did not run. *)
Lemma refusal_fails_batch_witness :
  let V := @JP_variant refusing_environment in
  let japanese_lines := @get_translation_lines refusing_environment V (readlines sample_document) in
  let loc := Locals (readlines sample_document) [] 0 0 in
  let after := @batch_turn refusing_environment V 10 japanese_lines 0 (loc, tracked_sample_world) in
  is_refusal_response V (py "I cannot assist with that request.") = true
  /\ length japanese_lines = 2%nat
  /\ lines (fst after) = readlines sample_document
  /\ total_success (fst after) = 0%nat
  /\ total_failed (fst after) = 1%nat
  /\ tracker (snd after) = Some (Progress 2 2 0 0 1 0 0 Processing)
  /\ requests (snd after) = 1%nat
  /\ parser_calls (trace (snd after)) = 0%nat
  /\ glossary_file (snd after) = []
  /\ document (snd after) = Some sample_document.
Proof.
  intros V japanese_lines loc after.
  pose proof (@refusal_fails_batch refusing_environment V 10 japanese_lines 0 loc
                tracked_sample_world (py "I cannot assist with that request.")
                (snd (@call_grok_api refusing_environment
                        (batch_request V 10 japanese_lines 0 loc tracked_sample_world) 3
                        (log RequestArtifact (count_draw tracked_sample_world))))
                eq_refl ltac:(vm_compute; reflexivity) ltac:(vm_compute; reflexivity))
    as (Hl & Hs & Hf & Ht & Hr & _ & Hp & Hg & _ & Hd).
  fold after in Hl, Hs, Hf, Ht, Hr, Hp, Hg, Hd.
  split; [vm_compute; reflexivity|]. split; [vm_compute; reflexivity|].
  split; [exact Hl|]. split; [exact Hs|]. split; [rewrite Hf; vm_compute; reflexivity|].
  split; [rewrite Ht; vm_compute; reflexivity|].
  split; [rewrite Hr; vm_compute; reflexivity|]. split; [rewrite Hp; vm_compute; reflexivity|].
  split; [exact Hg|exact Hd].
Defined.

(** A refused batch is not counted as failed as a whole: of the two lines
    of the sample document one is counted as failed, in the local count
    and in the progress tracker, and a refused batch whose only line has
    no identity token records no failure at all. *)
Lemma refusal_fails_batch_counterexample :
  let V := @JP_variant refusing_environment in
  let japanese_lines := @get_translation_lines refusing_environment V (readlines sample_document) in
  let after :=
    @batch_turn refusing_environment V 10 japanese_lines 0
      (Locals (readlines sample_document) [] 0 0, tracked_sample_world) in
  let plain_lines := @get_translation_lines refusing_environment V (readlines plain_document) in
  let plain_after :=
    @batch_turn refusing_environment V 10 plain_lines 0
      (Locals (readlines plain_document) [] 0 0, plain_world) in
  is_refusal_response V (py "I cannot assist with that request.") = true
  /\ length (batch_data_of 10 japanese_lines 0) = 2%nat
  /\ total_failed (fst after) = 1%nat
  /\ pg_failed <$> tracker (snd after) = Some 1%nat
  /\ length (batch_data_of 10 plain_lines 0) = 1%nat
  /\ total_failed (fst plain_after) = 0%nat.
Proof. vm_compute. by repeat split. Qed.

(** ** Merging glossaries *)

Lemma terms_app (key : list N) (l1 l2 : list entry) : terms key (l1 ++ l2) = terms key l1 ++ terms key l2.
Proof. apply omap_app. Qed.

Lemma terms_singleton (key : list N) (item : entry) (k : list N) :
  item !! key = Some k -> terms key [item] = [k].
Proof. intros H. unfold terms. simpl. by rewrite H. Qed.

Section Merge.
Variable valid : entry -> bool.
Variable key : list N.
Variable step : list entry * gset (list N) -> entry -> list entry * gset (list N).
Hypothesis step_eq : forall merged existing item,
  step (merged, existing) item
  = if valid item then
      if bool_decide (get item key ∈ existing) then (merged, existing)
      else (merged ++ [item], existing ∪ {[ get item key ]})
    else (merged, existing).
Hypothesis valid_key : forall item, valid item = true -> is_Some (item !! key).

Lemma merge_fold new : forall merged existing,
  (forall k, k ∈ existing <-> k ∈ terms key merged) ->
  exists suffix,
    fst (foldl step (merged, existing) new) = merged ++ suffix
    /\ suffix `sublist_of` List.filter valid new
    /\ forall k, k ∈ terms key (merged ++ suffix)
         <-> k ∈ terms key merged
             \/ exists item, item ∈ new /\ valid item = true /\ item !! key = Some k.
Proof.
  induction new as [|item new IH]; intros merged existing Hex; cbn [foldl].
  - exists []. rewrite app_nil_r. split; [done|]. split; [done|].
    intros k. split; [by left|]. intros [|(item & Hin & _)]; [done|]. by apply elem_of_nil in Hin.
  - rewrite step_eq. destruct (valid item) eqn:Hv.
    + destruct (valid_key item Hv) as [k0 Hk0].
      assert (Hget : get item key = k0) by (unfold get; by rewrite Hk0).
      rewrite Hget. case_bool_decide as Hin.
      * destruct (IH merged existing Hex) as (suffix & Heq & Hsub & Hkeys).
        exists suffix. split; [done|]. split.
        { cbn [List.filter]. rewrite Hv. by apply sublist_cons. }
        intros k. rewrite Hkeys. split.
        -- intros [|(it & Hit & Hvit & Hkit)]; [by left|].
           right. exists it. split; [by apply elem_of_cons; right|done].
        -- intros [|(it & Hit & Hvit & Hkit)]; [by left|].
           apply elem_of_cons in Hit as [->|Hit].
           ++ left. apply Hex. congruence.
           ++ right. by exists it.
      * destruct (IH (merged ++ [item]) (existing ∪ {[k0]})) as (suffix & Heq & Hsub & Hkeys).
        { intros k. rewrite terms_app, (terms_singleton _ _ _ Hk0).
          by rewrite elem_of_app, elem_of_union, Hex, elem_of_singleton,
            list_elem_of_singleton. }
        exists (item :: suffix). split; [by rewrite Heq, <- app_assoc|]. split.
        { cbn [List.filter]. rewrite Hv. by apply sublist_skip. }
        intros k. replace (merged ++ item :: suffix) with ((merged ++ [item]) ++ suffix)
          by by rewrite <- app_assoc.
        rewrite Hkeys, terms_app, (terms_singleton _ _ _ Hk0), elem_of_app,
          list_elem_of_singleton. split.
        -- intros [[?| ->]|(it & Hit & Hvit & Hkit)]; [by left| |].
           ++ right. exists item. split; [by apply elem_of_cons; left|done].
           ++ right. exists it. split; [by apply elem_of_cons; right|done].
        -- intros [|(it & Hit & Hvit & Hkit)]; [by left; left|].
           apply elem_of_cons in Hit as [->|Hit].
           ++ left. right. congruence.
           ++ right. by exists it.
    + destruct (IH merged existing Hex) as (suffix & Heq & Hsub & Hkeys).
      exists suffix. split; [done|]. split.
      { cbn [List.filter]. by rewrite Hv. }
      intros k. rewrite Hkeys. split.
      * intros [|(it & Hit & Hvit & Hkit)]; [by left|].
        right. exists it. split; [by apply elem_of_cons; right|done].
      * intros [|(it & Hit & Hvit & Hkit)]; [by left|].
        apply elem_of_cons in Hit as [->|Hit]; [congruence|].
        right. by exists it.
Qed.

Lemma merge_spec original new :
  exists suffix,
    fst (foldl step (original, list_to_set (terms key original)) new) = original ++ suffix
    /\ suffix `sublist_of` List.filter valid new
    /\ forall k, k ∈ terms key (original ++ suffix)
         <-> k ∈ terms key original
             \/ exists item, item ∈ new /\ valid item = true /\ item !! key = Some k
                             /\ k ∉ terms key original.
Proof.
  destruct (merge_fold new original (list_to_set (terms key original)))
    as (suffix & Heq & Hsub & Hkeys).
  { intros k. by rewrite elem_of_list_to_set. }
  exists suffix. split; [done|]. split; [done|].
  intros k. rewrite Hkeys. split.
  - intros [|(it & Hit & Hvit & Hkit)]; [by left|].
    destruct (decide (k ∈ terms key original)); [by left|].
    right. by exists it.
  - intros [|(it & Hit & Hvit & Hkit & _)]; [by left|]. right. by exists it.
Qed.
End Merge.

(** C1. In both programs the merged glossary is the original one followed
    by entries of the new one that pass the validity predicate, and its
    source terms are those of the original glossary together with those of
    the valid new entries whose source term the original did not hold. *)
Theorem merge_keeps_original_adds_valid_new (A B : list entry) :
  (exists suffix,
      JP.merge_dictionaries A B = A ++ suffix
      /\ suffix `sublist_of` List.filter JP.validate_translation_entry B)
  /\ (forall k, k ∈ terms KEY_JP (JP.merge_dictionaries A B)
        <-> k ∈ terms KEY_JP A
            \/ exists item, item ∈ B /\ JP.validate_translation_entry item = true
                            /\ item !! KEY_JP = Some k /\ k ∉ terms KEY_JP A)
  /\ (exists suffix,
      EN.merge_dictionaries A B = A ++ suffix
      /\ suffix `sublist_of` List.filter EN.validate_translation_entry B)
  /\ (forall k, k ∈ terms KEY_EN (EN.merge_dictionaries A B)
        <-> k ∈ terms KEY_EN A
            \/ exists item, item ∈ B /\ EN.validate_translation_entry item = true
                            /\ item !! KEY_EN = Some k /\ k ∉ terms KEY_EN A).
Proof.
  destruct (merge_spec JP.validate_translation_entry KEY_JP JP.merge_step) with
    (original := A) (new := B) as (sj & Hj & Hsj & Hkj).
  { done. }
  { intros item. unfold JP.validate_translation_entry.
    destruct (item !! KEY_JP); [by eexists|done]. }
  destruct (merge_spec EN.validate_translation_entry KEY_EN EN.merge_step) with
    (original := A) (new := B) as (se & He & Hse & Hke).
  { done. }
  { intros item. unfold EN.validate_translation_entry.
    destruct (item !! KEY_EN); [by eexists|done]. }
  unfold JP.merge_dictionaries, EN.merge_dictionaries. fold (terms KEY_JP A) (terms KEY_EN A).
  rewrite Hj, He. repeat split; eauto; try apply Hkj; try apply Hke.
Qed.

(** ** The relevance selectors *)

Lemma filter_sublist {A} (p : A -> bool) (l : list A) : sublist (List.filter p l) l.
Proof.
  induction l as [|x l IH]; simpl; [done|].
  destruct (p x); by constructor.
Qed.

Lemma filter_sublist_weaken {A} (p q : A -> bool) (l : list A) :
  (forall x, p x = true -> q x = true) -> sublist (List.filter p l) (List.filter q l).
Proof.
  intros Hpq. induction l as [|x l IH]; simpl; [done|].
  destruct (p x) eqn:Hp.
  - rewrite (Hpq x Hp). by constructor.
  - destruct (q x); [by constructor|done].
Qed.

Lemma elem_of_list_filter_bool {A} (p : A -> bool) (l : list A) x :
  x ∈ List.filter p l <-> x ∈ l /\ p x = true.
Proof. rewrite !list_elem_of_In. apply List.filter_In. Qed.

Lemma elem_of_list_map {A B} (f : A -> B) (l : list A) y :
  y ∈ List.map f l <-> exists x, y = f x /\ x ∈ l.
Proof.
  rewrite list_elem_of_In, List.in_map_iff. split.
  - intros (x & <- & Hx). exists x. by rewrite list_elem_of_In.
  - intros (x & -> & Hx). exists x. by rewrite <- list_elem_of_In.
Qed.

Lemma sample_length {A} (population : list A) k drawn :
  is_sample population k drawn -> length drawn = k.
Proof. by intros [? _]. Qed.

Lemma sample_elem {A} (population : list A) k drawn x :
  is_sample population k drawn -> x ∈ drawn -> x ∈ population.
Proof.
  intros (_ & chosen & Hperm & Hsub) Hx. rewrite Hperm in Hx.
  by eapply elem_of_sublist.
Qed.

Lemma sample_NoDup {A B} (f : A -> B) (population : list A) k drawn :
  is_sample population k drawn ->
  NoDup (List.map f population) -> NoDup (List.map f drawn).
Proof.
  intros (_ & chosen & Hperm & Hsub) Hnd.
  rewrite (Permutation_map f Hperm).
  eapply sublist_NoDup; [exact Hnd|]. by apply sublist_map.
Qed.

Module JP_selection.
Import JP.

Lemma valid_trimmed (e : entry) :
  validate_translation_entry e = true -> trimmed KEY_JP e <> [].
Proof.
  unfold validate_translation_entry, trimmed, get.
  destruct (e !! KEY_JP) as [jp|]; [|done].
  destruct (e !! KEY_ZH) as [zh|]; [|done].
  unfold valid_pair. simpl. by destruct (strip jp).
Qed.

Section First.
Variables batch_text batch_raw : str.

Lemma relevant_step_cases relevant seen_jp e :
  relevant_step batch_text batch_raw (relevant, seen_jp) e = (relevant, seen_jp)
  \/ (validate_translation_entry e = true /\ (trimmed KEY_JP e ∉ seen_jp)
      /\ relevant_step batch_text batch_raw (relevant, seen_jp) e
         = (relevant ++ [e], seen_jp ∪ {[ trimmed KEY_JP e ]})).
Proof.
  unfold relevant_step, trimmed.
  destruct (validate_translation_entry e); cbn [negb]; [|by left].
  case_bool_decide; cbn [orb]; [by left|].
  case_bool_decide; cbn [orb]; [by left|].
  destruct (_ || _); [by right|by left].
Qed.

Lemma relevant_fold (l : list entry) : forall relevant seen_jp,
  (forall k, k ∈ seen_jp <-> k ∈ List.map (trimmed KEY_JP) relevant) ->
  NoDup (List.map (trimmed KEY_JP) relevant) ->
  let out := foldl (relevant_step batch_text batch_raw) (relevant, seen_jp) l in
  (forall k, k ∈ snd out <-> k ∈ List.map (trimmed KEY_JP) (fst out))
  /\ NoDup (List.map (trimmed KEY_JP) (fst out))
  /\ exists suffix, fst out = relevant ++ suffix
       /\ sublist suffix (List.filter validate_translation_entry l).
Proof.
  induction l as [|e l IH]; intros relevant seen_jp Hseen Hnd; cbn [foldl].
  - cbn [fst snd]. split; [done|]. split; [done|]. exists []. by rewrite app_nil_r.
  - assert (Hskip :
      let out := foldl (relevant_step batch_text batch_raw) (relevant, seen_jp) l in
      (forall k, k ∈ snd out <-> k ∈ List.map (trimmed KEY_JP) (fst out))
      /\ NoDup (List.map (trimmed KEY_JP) (fst out))
      /\ exists suffix, fst out = relevant ++ suffix
           /\ sublist suffix (List.filter validate_translation_entry (e :: l))).
    { destruct (IH relevant seen_jp Hseen Hnd) as (H1 & H2 & suffix & H3 & H4).
      split; [done|]. split; [done|]. exists suffix. split; [done|].
      cbn [List.filter]. destruct (validate_translation_entry e); [by constructor|done]. }
    destruct (relevant_step_cases relevant seen_jp e) as [->|(Hv & Hin & ->)];
      [exact Hskip|].
    destruct (IH (relevant ++ [e]) (seen_jp ∪ {[ trimmed KEY_JP e ]}))
      as (H1 & H2 & suffix & H3 & H4).
    { intros k. rewrite List.map_app, elem_of_app, elem_of_union, Hseen. simpl.
      by rewrite elem_of_singleton, list_elem_of_singleton. }
    { rewrite List.map_app. simpl. apply NoDup_app. split; [done|]. split.
      - intros k Hk Hk'. apply list_elem_of_singleton in Hk' as ->. by apply Hin, Hseen.
      - apply NoDup_singleton. }
    split; [done|]. split; [done|]. exists (e :: suffix).
    split; [by rewrite H3, <- app_assoc|].
    cbn [List.filter]. rewrite Hv. by constructor.
Qed.
End First.

Section Select.
Context {E : environment}.
Hypothesis Hsampling : sampling.

Lemma select_cases draw batch_lines all_translations target_count :
  exists relevant seen_jp drawn,
    select_relevant_translations draw batch_lines all_translations target_count
    = relevant ++ drawn
    /\ (forall k, k ∈ seen_jp <-> k ∈ List.map (trimmed KEY_JP) relevant)
    /\ NoDup (List.map (trimmed KEY_JP) relevant)
    /\ sublist relevant (List.filter validate_translation_entry all_translations)
    /\ is_sample (List.filter (is_remaining seen_jp) all_translations) (length drawn) drawn
    /\ (Nat.min target_count
          (length relevant + length (List.filter (is_remaining seen_jp) all_translations))
        <= length relevant + length drawn)%nat.
Proof.
  assert (Hnil : forall (l : list entry), is_sample l 0 []).
  { intros l. split; [done|]. exists []. split; [done|]. apply sublist_nil_l. }
  unfold select_relevant_translations.
  destruct all_translations as [|e0 l0] eqn:Hall.
  { exists [], ∅, []. simpl. split; [done|]. split.
    { intros k. split; intros Hk; [by apply elem_of_empty in Hk|by apply elem_of_nil in Hk]. }
    split; [apply NoDup_nil_2|]. split; [done|]. split; [apply Hnil|lia]. }
  rewrite <- Hall.
  set (batch_raw := concat batch_lines).
  set (batch_text := concat (List.map extract_text_from_tags batch_lines)).
  destruct (relevant_fold batch_text batch_raw all_translations [] ∅)
    as (H1 & H2 & suffix & H3 & H4).
  { intros k. simpl.
    split; intros Hk; [by apply elem_of_empty in Hk|by apply elem_of_nil in Hk]. }
  { apply NoDup_nil_2. }
  destruct (foldl _ _ all_translations) as [relevant seen_jp].
  cbn [fst snd] in *. simpl in H3. subst suffix.
  exists relevant, seen_jp.
  destruct (length relevant <? target_count)%nat eqn:Hlt.
  - apply Nat.ltb_lt in Hlt.
    destruct (List.filter (is_remaining seen_jp) all_translations) as [|r0 rs] eqn:Hrem.
    + exists []. rewrite app_nil_r. do 4 (split; [done|]).
      split; [apply Hnil|cbn [length]; lia].
    + set (remaining := r0 :: rs).
      assert (0 < length remaining)%nat by (unfold remaining; cbn [length]; lia).
      set (needed := Nat.min (target_count - length relevant) (length remaining)).
      assert (Hneeded : (0 <? needed)%nat = true) by (apply Nat.ltb_lt; unfold needed; lia).
      rewrite Hneeded.
      pose proof (Hsampling draw remaining needed ltac:(unfold needed; lia)) as Hs.
      exists (random_sample draw remaining needed).
      rewrite (sample_length _ _ _ Hs).
      do 4 (split; [done|]). split; [exact Hs|unfold needed; lia].
  - apply Nat.ltb_ge in Hlt. exists []. rewrite app_nil_r.
    do 4 (split; [done|]). split; [apply Hnil|cbn [length]; lia].
Qed.

Lemma select_no_duplicates draw batch_lines all_translations target_count :
  NoDup (List.map (trimmed KEY_JP) (List.filter validate_translation_entry all_translations)) ->
  NoDup (List.map (trimmed KEY_JP)
           (select_relevant_translations draw batch_lines all_translations target_count)).
Proof.
  intros Hnd.
  destruct (select_cases draw batch_lines all_translations target_count)
    as (relevant & seen_jp & drawn & -> & Hseen & Hrel & Hsub & Hs & _).
  rewrite List.map_app. apply NoDup_app. split; [done|]. split.
  - intros k Hk Hk'. apply elem_of_list_map in Hk' as (e & -> & He).
    apply (sample_elem _ _ _ _ Hs) in He. apply elem_of_list_filter_bool in He as [_ He].
    unfold is_remaining in He. apply andb_true_iff in He as [_ He].
    apply negb_true_iff, bool_decide_eq_false in He. by apply He, Hseen.
  - apply (sample_NoDup _ _ _ _ Hs).
    eapply sublist_NoDup; [exact Hnd|]. apply sublist_map, filter_sublist_weaken.
    intros e He. unfold is_remaining in He.
    apply andb_true_iff in He as [He _]. by apply andb_true_iff in He as [He _].
Qed.

Lemma select_lower_bound draw batch_lines all_translations target_count :
  (Nat.min target_count
     (length (remove_dups
        (List.map (trimmed KEY_JP) (List.filter validate_translation_entry all_translations))))
   <= length (select_relevant_translations draw batch_lines all_translations target_count))%nat.
Proof.
  destruct (select_cases draw batch_lines all_translations target_count)
    as (relevant & seen_jp & drawn & -> & Hseen & Hrel & Hsub & Hs & Hmin).
  rewrite length_app. etrans; [|exact Hmin].
  apply Nat.min_le_compat_l.
  set (remaining := List.filter (is_remaining seen_jp) all_translations).
  rewrite <- (length_map (trimmed KEY_JP) relevant), <- (length_map (trimmed KEY_JP) remaining),
    <- length_app.
  apply submseteq_length, NoDup_submseteq; [apply NoDup_remove_dups|].
  intros k Hk. apply elem_of_remove_dups, elem_of_list_map in Hk as (e & -> & He).
  apply elem_of_list_filter_bool in He as [He Hv]. apply elem_of_app.
  destruct (decide (trimmed KEY_JP e ∈ seen_jp)) as [Hin|Hout].
  - left. by apply Hseen.
  - right. apply elem_of_list_map. exists e. split; [done|]. apply elem_of_list_filter_bool.
    split; [done|]. unfold is_remaining. rewrite Hv. fold (trimmed KEY_JP e).
    rewrite (bool_decide_eq_false_2 _ (valid_trimmed e Hv)), (bool_decide_eq_false_2 _ Hout).
    done.
Qed.
End Select.
End JP_selection.

Module EN_selection.
Import EN.

Lemma lookup_step_cases (en_lookup : gmap (list N) entry) selected used_en line :
  lookup_step en_lookup (selected, used_en) line = (selected, used_en)
  \/ exists k e, en_lookup !! k = Some e /\ (get e KEY_EN ∉ used_en)
       /\ lookup_step en_lookup (selected, used_en) line
          = (selected ++ [e], used_en ∪ {[ get e KEY_EN ]}).
Proof.
  unfold lookup_step.
  destruct (strip (extract_text_from_tags line)) as [|c text] eqn:Htext; [by left|].
  destruct (en_lookup !! (c :: text)) as [e|] eqn:He; [|by left].
  case_bool_decide; [by left|]. right. by exists (c :: text), e.
Qed.

Lemma lookup_fold (en_lookup : gmap (list N) entry) (base : list entry) (l : list str) :
  (forall k e, en_lookup !! k = Some e -> e ∈ base) ->
  forall selected used_en,
  (forall k, k ∈ used_en <-> k ∈ List.map (fun e => get e KEY_EN) selected) ->
  NoDup (List.map (fun e => get e KEY_EN) selected) ->
  (forall e, e ∈ selected -> e ∈ base) ->
  let out := foldl (lookup_step en_lookup) (selected, used_en) l in
  (forall k, k ∈ snd out <-> k ∈ List.map (fun e => get e KEY_EN) (fst out))
  /\ NoDup (List.map (fun e => get e KEY_EN) (fst out))
  /\ (forall e, e ∈ fst out -> e ∈ base).
Proof.
  intros Hbase. induction l as [|line l IH]; intros selected used_en Hused Hnd Hin;
    cbn [foldl]; [done|].
  destruct (lookup_step_cases en_lookup selected used_en line)
    as [->|(k & e & Hk & Hnew & ->)]; [by apply IH|].
  apply IH.
  - intros k'. rewrite List.map_app, elem_of_app, elem_of_union, Hused. simpl.
    by rewrite elem_of_singleton, list_elem_of_singleton.
  - rewrite List.map_app. simpl. apply NoDup_app. split; [done|]. split.
    + intros k' Hk' Hk''. apply list_elem_of_singleton in Hk'' as ->. by apply Hnew, Hused.
    + apply NoDup_singleton.
  - intros e' [He'|He']%elem_of_app; [by apply Hin|].
    apply list_elem_of_singleton in He' as ->. by eapply Hbase.
Qed.

Lemma en_lookup_values (base l : list entry) : forall (m : gmap (list N) entry),
  (forall k e, m !! k = Some e -> e ∈ base) ->
  (forall e, e ∈ l -> e ∈ base) ->
  forall k e,
    foldl (fun m e => <[ strip (get e KEY_EN) := e ]> m) m l !! k = Some e -> e ∈ base.
Proof.
  induction l as [|x l IH]; intros m Hm Hl k e; cbn [foldl]; [apply Hm|].
  apply IH.
  - intros k' e' Hk'. destruct (decide (strip (get x KEY_EN) = k')) as [<-|Hne].
    + rewrite lookup_insert_eq in Hk'. injection Hk' as <-. apply Hl, elem_of_cons. by left.
    + rewrite lookup_insert_ne in Hk' by done. by eapply Hm.
  - intros e' He'. apply Hl, elem_of_cons. by right.
Qed.

Section Select.
Context {E : environment}.

Lemma selected_lower_bound draw lines translation_dict :
  List.filter validate_translation_entry translation_dict <> [] ->
  (5 <= length (selected_entries draw lines translation_dict))%nat.
Proof.
  intros Hvalid. unfold selected_entries.
  destruct (foldl _ _ lines) as [selected used_en].
  rewrite (bool_decide_eq_false_2 _ Hvalid). cbn [negb]. rewrite andb_true_r.
  destruct (length selected <? 5)%nat eqn:Hlt.
  - rewrite !length_app, length_map, length_seq. lia.
  - by apply Nat.ltb_ge in Hlt.
Qed.

Lemma selected_no_duplicates draw lines translation_dict :
  shuffling ->
  NoDup (List.map (fun e => get e KEY_EN)
           (List.filter validate_translation_entry translation_dict)) ->
  (5 <= length (List.filter validate_translation_entry translation_dict))%nat ->
  NoDup (List.map (fun e => get e KEY_EN) (selected_entries draw lines translation_dict)).
Proof.
  intros Hshuffle Hnd Hfive. unfold selected_entries.
  set (valid_entries := List.filter validate_translation_entry translation_dict) in *.
  set (en_lookup := foldl _ ∅ valid_entries).
  destruct (lookup_fold en_lookup valid_entries lines) with (selected := @nil entry)
    (used_en := (∅ : gset (list N))) as (Hused & Hsel & Hin).
  { apply en_lookup_values; [|done]. intros k e Hk. by rewrite lookup_empty in Hk. }
  { intros k. simpl.
    split; intros Hk; [by apply elem_of_empty in Hk|by apply elem_of_nil in Hk]. }
  { apply NoDup_nil_2. }
  { intros e He. by apply elem_of_nil in He. }
  destruct (foldl _ _ lines) as [selected used_en]. cbn [fst snd] in *.
  destruct ((length selected <? 5)%nat && _) eqn:Hguard; [|done].
  apply andb_true_iff in Hguard as [Hlt%Nat.ltb_lt _].
  set (remaining := List.filter _ valid_entries).
  set (taken := List.filter (fun e => bool_decide (get e KEY_EN ∈ used_en)) valid_entries).
  assert (Hcount : (length taken + length remaining = length valid_entries)%nat).
  { apply List.filter_length. }
  assert (Htaken : (length taken <= length selected)%nat).
  { rewrite <- (length_map (fun e => get e KEY_EN) taken),
      <- (length_map (fun e => get e KEY_EN) selected).
    apply submseteq_length, NoDup_submseteq.
    - eapply sublist_NoDup; [exact Hnd|]. apply sublist_map, filter_sublist.
    - intros k (e & -> & He)%elem_of_list_map. apply elem_of_list_filter_bool in He as [_ He].
      apply bool_decide_eq_true in He. by apply Hused. }
  pose proof (Hshuffle draw remaining) as Hperm.
  assert (Hlen : length (take (5 - length selected) (rev (random_shuffle draw remaining)))
                 = (5 - length selected)%nat).
  { rewrite length_take, length_rev, Hperm. lia. }
  rewrite length_app, Hlen.
  replace (5 - (length selected + (5 - length selected)))%nat with 0%nat by lia.
  cbn [seq List.map]. rewrite app_nil_r, List.map_app. apply NoDup_app.
  split; [done|]. split.
  - intros k Hk (e & -> & He)%elem_of_list_map.
    pose proof (elem_of_sublist _ _ _ He (sublist_take _ _)) as He'.
    apply list_elem_of_In, List.in_rev, list_elem_of_In in He'.
    rewrite Hperm in He'. apply elem_of_list_filter_bool in He' as [_ He'].
    apply negb_true_iff, bool_decide_eq_false in He'. by apply He', Hused.
  - eapply sublist_NoDup; [|apply sublist_map, sublist_take].
    rewrite <- (Permutation_map _ (Permutation_rev _)), (Permutation_map _ Hperm).
    eapply sublist_NoDup; [exact Hnd|]. apply sublist_map, filter_sublist.
Qed.
End Select.
End EN_selection.

Lemma echo_sampling : @sampling echo_environment.
Proof.
  intros draw population k Hk.
  change (random_sample draw population k) with (take k population). split.
  - rewrite length_take. lia.
  - exists (take k population). split; [done|apply sublist_take].
Qed.

Lemma echo_shuffling : @shuffling echo_environment.
Proof. by intros draw population. Qed.

(** C3. With a sampler that draws at distinct positions, the selector of
    the Japanese program returns at least as many entries as the smaller of
    the target count and the number of distinct trimmed source terms of the
    valid glossary entries, and no two with the same trimmed source term
    when the valid entries of the glossary have none in common.  The
    selector of the English program returns at least five entries as soon
    as the glossary has a valid entry, and no two with the same source term
    when the glossary has five valid entries or more, with source terms
    that differ. *)
Theorem selector_bounds {E : environment} (draw : nat) (batch_lines : list str)
    (glossary : list entry) (target_count : nat) :
  sampling -> shuffling ->
  let jp_valid := List.filter JP.validate_translation_entry glossary in
  let en_valid := List.filter EN.validate_translation_entry glossary in
  let jp_selected := JP.select_relevant_translations draw batch_lines glossary target_count in
  let en_selected := EN.selected_entries draw batch_lines glossary in
  (Nat.min target_count (length (remove_dups (List.map (trimmed KEY_JP) jp_valid)))
   <= length jp_selected)%nat
  /\ (NoDup (List.map (trimmed KEY_JP) jp_valid) ->
      NoDup (List.map (trimmed KEY_JP) jp_selected))
  /\ (en_valid <> [] -> (5 <= length en_selected)%nat)
  /\ (NoDup (List.map (fun e => get e KEY_EN) en_valid) -> (5 <= length en_valid)%nat ->
      NoDup (List.map (fun e => get e KEY_EN) en_selected)).
Proof.
  intros Hsample Hshuffle jp_valid en_valid jp_selected en_selected.
  split; [by apply JP_selection.select_lower_bound|].
  split; [by apply JP_selection.select_no_duplicates|].
  split; [by apply EN_selection.selected_lower_bound|].
  by apply EN_selection.selected_no_duplicates.
Qed.

(** The bounds on the sample glossary, which has two valid entries for the
    Japanese program and three for the English one. *)
Lemma selector_bounds_witness :
  @sampling echo_environment /\ @shuffling echo_environment
  /\ (2 <= length (@JP.select_relevant_translations echo_environment 0
                     [sample_document] sample_glossary 5))%nat
  /\ NoDup (List.map (trimmed KEY_JP)
              (@JP.select_relevant_translations echo_environment 0
                 [sample_document] sample_glossary 5))
  /\ (5 <= length (@EN.selected_entries echo_environment 0
                     [sample_document] sample_glossary))%nat.
Proof.
  destruct (@selector_bounds echo_environment 0 [sample_document] sample_glossary 5
              echo_sampling echo_shuffling) as (Hmin & Hnd & Hfive & _).
  split; [exact echo_sampling|]. split; [exact echo_shuffling|].
  split; [exact Hmin|]. split.
  - apply Hnd, (bool_decide_unpack _). vm_compute. exact I.
  - apply Hfive. vm_compute. discriminate.
Defined.

(** A glossary that holds a valid entry twice gives it twice to the request
    of the Japanese program, and a glossary with one valid entry gives it
    five times to the request of the English program. *)
Lemma selector_duplicates_counterexample :
  let e := jp_entry [0x3042; 0x3044]%N [0x611B]%N in
  let f := en_entry (py "Tom") [0x6E6F; 0x59C6]%N in
  JP.validate_translation_entry e = true
  /\ @JP.select_relevant_translations echo_environment 0 [] [e; e] 5 = [e; e]
  /\ EN.validate_translation_entry f = true
  /\ @EN.selected_entries echo_environment 0 [] [f] = [f; f; f; f; f].
Proof. vm_compute. repeat split; reflexivity. Qed.

(** ** Examples of the client and of the translated map *)

(** Three failures in a row end the call by an exception, after backoffs of
    two and four seconds; an answer to the first request ends it at once. *)
Lemma call_grok_api_retries_witness :
  @call_grok_api failing_environment (Prompt [] [] []) 3 sample_world
  = (Raises,
     World (Some sample_document) [] [] None 3 0
       [ ApiRequest 0 (Prompt [] [] []);
         Backoff 2; ApiRequest 1 (Prompt [] [] []);
         Backoff 4; ApiRequest 2 (Prompt [] [] []) ])
  /\ @call_grok_api echo_environment (Prompt [] [] (py "text")) 3 sample_world
     = (Returns (py "text"),
        World (Some sample_document) [] [] None 1 0
          [ ApiRequest 0 (Prompt [] [] (py "text")) ]).
Proof.
  split.
  - apply (proj1 (proj2 (@call_grok_api_retries failing_environment
                           (Prompt [] [] []) sample_world))).
    intros j _. reflexivity.
  - apply (proj1 (@call_grok_api_retries echo_environment
                    (Prompt [] [] (py "text")) sample_world) 0%nat (py "text"));
      [lia|intros j Hj; lia|reflexivity].
Defined.

(** Two units with the token 1: the map holds the second, normalized. *)
Lemma duplicate_units_last_wins_witness :
  @units_carrying echo_environment 1
    (py "<p data-line=1>a</p><p data-line='1'>b</p>")
  = [Hit (Some (py "1")) (py "<p data-line=1>a</p>")]
    ++ [Hit (Some (py "1")) (py "<p data-line='1'>b</p>")]
  /\ @line_translation_map echo_environment
       (py "<p data-line=1>a</p><p data-line='1'>b</p>") !! 1%Z
     = Some (py "<p data-line=" ++ [QUOTE] ++ py "1" ++ [QUOTE] ++ py ">b</p>").
Proof.
  assert (Hunits :
    @units_carrying echo_environment 1
      (py "<p data-line=1>a</p><p data-line='1'>b</p>")
    = [Hit (Some (py "1")) (py "<p data-line=1>a</p>")]
      ++ [Hit (Some (py "1")) (py "<p data-line='1'>b</p>")])
    by (vm_compute; reflexivity).
  split; [exact Hunits|].
  rewrite (proj2 (@duplicate_units_last_wins echo_environment _ 1%Z) _ _ Hunits).
  vm_compute. reflexivity.
Defined.

(** ** More on merging glossaries *)

Section MergeInvariants.
Variable valid : entry -> bool.
Variable key : list N.
Variable step : list entry * gset (list N) -> entry -> list entry * gset (list N).
Hypothesis step_eq : forall merged existing item,
  step (merged, existing) item
  = if valid item then
      if bool_decide (get item key ∈ existing) then (merged, existing)
      else (merged ++ [item], existing ∪ {[ get item key ]})
    else (merged, existing).
Hypothesis valid_key : forall item, valid item = true -> is_Some (item !! key).

Lemma merge_fold_distinct new : forall merged existing,
  (forall k, k ∈ existing <-> k ∈ terms key merged) ->
  NoDup (terms key merged) ->
  NoDup (terms key (fst (foldl step (merged, existing) new))).
Proof.
  induction new as [|item new IH]; intros merged existing Hex Hnd; cbn [foldl]; [done|].
  rewrite step_eq. destruct (valid item) eqn:Hv; [|by apply IH].
  destruct (valid_key item Hv) as [k0 Hk0].
  assert (Hget : get item key = k0) by (unfold get; by rewrite Hk0).
  rewrite Hget. case_bool_decide as Hin; [by apply IH|].
  apply IH.
  - intros k. rewrite terms_app, (terms_singleton _ _ _ Hk0).
    by rewrite elem_of_app, elem_of_union, Hex, elem_of_singleton, list_elem_of_singleton.
  - rewrite terms_app, (terms_singleton _ _ _ Hk0). apply NoDup_app.
    split; [done|]. split; [|apply NoDup_singleton].
    intros k Hk Hk'. apply list_elem_of_singleton in Hk' as ->. by apply Hin, Hex.
Qed.

Lemma merge_fold_absorbed new : forall merged existing,
  (forall item, item ∈ new -> valid item = true -> get item key ∈ existing) ->
  foldl step (merged, existing) new = (merged, existing).
Proof.
  induction new as [|item new IH]; intros merged existing Hall; cbn [foldl]; [done|].
  rewrite step_eq. destruct (valid item) eqn:Hv.
  - rewrite bool_decide_eq_true_2
      by (apply Hall; [apply elem_of_cons; by left|done]).
    apply IH. intros it Hit. apply Hall, elem_of_cons. by right.
  - apply IH. intros it Hit. apply Hall, elem_of_cons. by right.
Qed.

Lemma merge_distinct original new :
  NoDup (terms key original) ->
  NoDup (terms key (fst (foldl step (original, list_to_set (terms key original)) new))).
Proof.
  apply merge_fold_distinct. intros k. by rewrite elem_of_list_to_set.
Qed.

Lemma merge_again original new :
  let merged := fst (foldl step (original, list_to_set (terms key original)) new) in
  fst (foldl step (merged, list_to_set (terms key merged)) new) = merged.
Proof.
  intros merged.
  destruct (merge_fold valid key step step_eq valid_key new original
              (list_to_set (terms key original))) as (suffix & Heq & _ & Hkeys).
  { intros k. by rewrite elem_of_list_to_set. }
  fold merged in Heq. rewrite merge_fold_absorbed; [done|].
  intros item Hin Hv. destruct (valid_key item Hv) as [k0 Hk0].
  unfold get. rewrite Hk0. cbn [default]. rewrite elem_of_list_to_set, Heq.
  apply Hkeys. right. by exists item.
Qed.
End MergeInvariants.

Lemma jp_valid_key (item : entry) :
  JP.validate_translation_entry item = true -> is_Some (item !! KEY_JP).
Proof.
  unfold JP.validate_translation_entry. destruct (item !! KEY_JP); [by eexists|done].
Qed.

Lemma en_valid_key (item : entry) :
  EN.validate_translation_entry item = true -> is_Some (item !! KEY_EN).
Proof.
  unfold EN.validate_translation_entry. destruct (item !! KEY_EN); [by eexists|done].
Qed.

Lemma sound_valid_key (item : entry) :
  JP.validate_sound_entry item = true -> is_Some (item !! KEY_SOUND_JP).
Proof.
  unfold JP.validate_sound_entry. destruct (item !! KEY_SOUND_JP); [by eexists|done].
Qed.

(** X1. [merge_sound_dictionaries] returns the original sound dictionary
    followed by valid entries of the new one, and its [sound_jp] terms are
    those of the original together with those of the valid new entries
    that the original did not hold. *)
Theorem merge_sound_keeps_original_adds_valid_new (A B : list entry) :
  (exists suffix,
      JP.merge_sound_dictionaries A B = A ++ suffix
      /\ suffix `sublist_of` List.filter JP.validate_sound_entry B)
  /\ (forall k, k ∈ terms KEY_SOUND_JP (JP.merge_sound_dictionaries A B)
        <-> k ∈ terms KEY_SOUND_JP A
            \/ exists item, item ∈ B /\ JP.validate_sound_entry item = true
                            /\ item !! KEY_SOUND_JP = Some k /\ k ∉ terms KEY_SOUND_JP A).
Proof.
  destruct (merge_spec JP.validate_sound_entry KEY_SOUND_JP JP.merge_sound_step) with
    (original := A) (new := B) as (s & Hs & Hsub & Hk); [done|apply sound_valid_key|].
  unfold JP.merge_sound_dictionaries. fold (terms KEY_SOUND_JP A). rewrite Hs.
  split; [by exists s|]. apply Hk.
Qed.

(** X2. Merging never creates a duplicate source term: when the terms of
    the original list are pairwise distinct, so are those of the merged
    list, whatever the new list repeats. *)
Theorem merge_keeps_terms_distinct (A B : list entry) :
  (NoDup (terms KEY_JP A) -> NoDup (terms KEY_JP (JP.merge_dictionaries A B)))
  /\ (NoDup (terms KEY_EN A) -> NoDup (terms KEY_EN (EN.merge_dictionaries A B)))
  /\ (NoDup (terms KEY_SOUND_JP A) ->
      NoDup (terms KEY_SOUND_JP (JP.merge_sound_dictionaries A B))).
Proof.
  split; [|split].
  - apply (merge_distinct JP.validate_translation_entry KEY_JP JP.merge_step);
      [done|apply jp_valid_key].
  - apply (merge_distinct EN.validate_translation_entry KEY_EN EN.merge_step);
      [done|apply en_valid_key].
  - apply (merge_distinct JP.validate_sound_entry KEY_SOUND_JP JP.merge_sound_step);
      [done|apply sound_valid_key].
Qed.

(** X3. Merging the same new entries a second time changes nothing. *)
Theorem merge_again_changes_nothing (A B : list entry) :
  JP.merge_dictionaries (JP.merge_dictionaries A B) B = JP.merge_dictionaries A B
  /\ EN.merge_dictionaries (EN.merge_dictionaries A B) B = EN.merge_dictionaries A B
  /\ JP.merge_sound_dictionaries (JP.merge_sound_dictionaries A B) B
     = JP.merge_sound_dictionaries A B.
Proof.
  split; [|split].
  - apply (merge_again JP.validate_translation_entry KEY_JP JP.merge_step);
      [done|apply jp_valid_key].
  - apply (merge_again EN.validate_translation_entry KEY_EN EN.merge_step);
      [done|apply en_valid_key].
  - apply (merge_again JP.validate_sound_entry KEY_SOUND_JP JP.merge_sound_step);
      [done|apply sound_valid_key].
Qed.

(** ** Sorting the sound dictionary *)

Lemma str_le_total a : forall b, JP.str_le a b = false -> JP.str_le b a = true.
Proof.
  induction a as [|x a IH]; intros [|y b]; simpl; try done.
  intros H. apply orb_false_iff in H as [Hlt H].
  apply N.ltb_ge in Hlt. destruct (y <? x) eqn:Hyx; [done|].
  apply N.ltb_ge in Hyx. assert (x = y) as -> by lia.
  rewrite N.eqb_refl in *. simpl in *. by apply IH.
Qed.

Lemma str_le_trans a : forall b c,
  JP.str_le a b = true -> JP.str_le b c = true -> JP.str_le a c = true.
Proof.
  induction a as [|x a IH]; intros [|y b] [|z c]; simpl; try done.
  intros Hab Hbc.
  apply orb_true_iff in Hab as [Hab|Hab]; apply orb_true_iff in Hbc as [Hbc|Hbc].
  - apply N.ltb_lt in Hab, Hbc. apply orb_true_iff. left. apply N.ltb_lt. lia.
  - apply andb_true_iff in Hbc as [->%N.eqb_eq _]. by rewrite Hab.
  - apply andb_true_iff in Hab as [->%N.eqb_eq _]. by rewrite Hbc.
  - apply andb_true_iff in Hab as [->%N.eqb_eq Hab].
    apply andb_true_iff in Hbc as [->%N.eqb_eq Hbc].
    rewrite N.eqb_refl, (IH _ _ Hab Hbc). apply orb_true_r.
Qed.

Lemma key_le_total a b : JP.key_le a b = false -> JP.key_le b a = true.
Proof.
  unfold JP.key_le. intros H. apply orb_false_iff in H as [Hlt H].
  apply Nat.ltb_ge in Hlt. destruct (fst b <? fst a)%nat eqn:Hba; [done|].
  apply Nat.ltb_ge in Hba. assert (fst a = fst b) as Heq by lia.
  rewrite Heq, Nat.eqb_refl in *. simpl in *. by apply str_le_total.
Qed.

Lemma key_le_trans a b c :
  JP.key_le a b = true -> JP.key_le b c = true -> JP.key_le a c = true.
Proof.
  unfold JP.key_le. intros Hab Hbc.
  apply orb_true_iff in Hab as [Hab|Hab]; apply orb_true_iff in Hbc as [Hbc|Hbc].
  - apply Nat.ltb_lt in Hab, Hbc. apply orb_true_iff. left. apply Nat.ltb_lt. lia.
  - apply andb_true_iff in Hbc as [<-%Nat.eqb_eq _]. by rewrite Hab.
  - apply andb_true_iff in Hab as [->%Nat.eqb_eq _]. by rewrite Hbc.
  - apply andb_true_iff in Hab as [->%Nat.eqb_eq Hab].
    apply andb_true_iff in Hbc as [->%Nat.eqb_eq Hbc].
    rewrite Nat.eqb_refl, (str_le_trans _ _ _ Hab Hbc). apply orb_true_r.
Qed.

Lemma insert_by_key_perm item sorted : JP.insert_by_key item sorted ≡ₚ item :: sorted.
Proof.
  induction sorted as [|x sorted IH]; simpl; [done|].
  destruct (JP.key_le _ _); [|done]. rewrite IH. apply Permutation_swap.
Qed.

Lemma insert_by_key_sorted item sorted :
  StronglySorted in_key_order sorted ->
  StronglySorted in_key_order (JP.insert_by_key item sorted).
Proof.
  induction 1 as [|x sorted Hs IH Hx]; simpl.
  - repeat constructor.
  - destruct (JP.key_le (JP.get_sort_key x) (JP.get_sort_key item)) eqn:Hle.
    + constructor; [done|]. rewrite insert_by_key_perm. by constructor.
    + constructor; [by constructor|]. apply key_le_total in Hle.
      constructor; [done|]. eapply Forall_impl; [exact Hx|].
      intros y Hy. by eapply key_le_trans.
Qed.

Lemma insert_by_key_stable (k : nat * str) item sorted :
  StronglySorted in_key_order sorted ->
  with_key k (JP.insert_by_key item sorted) = with_key k sorted ++ with_key k [item].
Proof.
  unfold with_key.
  induction 1 as [|x sorted Hs IH Hx]; simpl; [done|].
  destruct (JP.key_le (JP.get_sort_key x) (JP.get_sort_key item)) eqn:Hle.
  - cbn [List.filter]. rewrite IH. simpl. by destruct (bool_decide _).
  - cbn [List.filter]. case_bool_decide as Hitem; [|by rewrite app_nil_r].
    assert (Hx' : bool_decide (JP.get_sort_key x = k) = false).
    { apply bool_decide_eq_false. intros Hxk. rewrite Hxk, <- Hitem in Hle.
      unfold JP.key_le in Hle. rewrite Nat.ltb_irrefl, Nat.eqb_refl in Hle. simpl in Hle.
      clear -Hle. induction (snd (JP.get_sort_key item)) as [|c s IH]; [done|].
      simpl in Hle. rewrite N.ltb_irrefl, N.eqb_refl in Hle. by apply IH. }
    rewrite Hx'.
    assert (Hnone : List.filter (fun e => bool_decide (JP.get_sort_key e = k)) sorted = []).
    { clear IH Hs. induction sorted as [|y sorted IH]; [done|].
      apply Forall_cons in Hx as [Hy Hx]. cbn [List.filter].
      rewrite (IH Hx). rewrite bool_decide_eq_false_2; [done|].
      intros Hyk. unfold in_key_order in Hy. rewrite Hyk, <- Hitem in Hy. congruence. }
    by rewrite Hnone.
Qed.

Lemma sort_by_gojuon_snoc l item :
  JP.sort_by_gojuon (l ++ [item]) = JP.insert_by_key item (JP.sort_by_gojuon l).
Proof. unfold JP.sort_by_gojuon. by rewrite foldl_snoc. Qed.

(** X4. [sort_by_gojuon] loses and adds no entry, puts the entries in the
    order of their sort keys, and keeps the entries with the same key in
    the order they had. *)
Theorem sort_by_gojuon_stable_sort (sound_dict : list entry) :
  JP.sort_by_gojuon sound_dict ≡ₚ sound_dict
  /\ StronglySorted in_key_order (JP.sort_by_gojuon sound_dict)
  /\ forall k, with_key k (JP.sort_by_gojuon sound_dict) = with_key k sound_dict.
Proof.
  induction sound_dict as [|item l IH] using rev_ind.
  - split; [done|]. split; [constructor|done].
  - destruct IH as (Hperm & Hsorted & Hstable). rewrite sort_by_gojuon_snoc.
    split; [|split].
    + rewrite insert_by_key_perm, Hperm. by rewrite Permutation_cons_append.
    + by apply insert_by_key_sorted.
    + intros k. rewrite insert_by_key_stable by done.
      rewrite Hstable. unfold with_key. by rewrite List.filter_app.
Qed.

(** ** The selector of sound entries *)

Lemma filter_complement_length {A} `{EqDecision A} (q : A -> bool) (l : list A) :
  (length (List.filter q l)
   + length (List.filter (fun s => negb (bool_decide (s ∈ List.filter q l))) l)
   = length l)%nat.
Proof.
  etrans; [|apply (List.filter_length q l)]. f_equal. f_equal.
  apply List.filter_ext_in. intros s Hs. f_equal.
  destruct (q s) eqn:Hq.
  - apply bool_decide_eq_true. apply elem_of_list_filter_bool. split; [|done].
    by apply list_elem_of_In.
  - apply bool_decide_eq_false. intros [_ H]%elem_of_list_filter_bool. congruence.
Qed.

(** X5. With a sampler that draws at distinct positions,
    [select_relevant_sounds] returns every sound entry whose [sound_jp] is
    not empty and occurs in the batch, returns only entries of the sound
    dictionary, and returns at least as many entries as the smaller of
    [min_count] and the size of the dictionary. *)
Theorem select_relevant_sounds_bounds {E : environment} (draw : nat)
    (batch_lines : list str) (all_sounds : list entry) (min_count : nat) :
  sampling ->
  let selected := JP.select_relevant_sounds draw batch_lines all_sounds min_count in
  (forall s, s ∈ all_sounds -> get s KEY_SOUND_JP <> [] ->
             contains (get s KEY_SOUND_JP) (concat batch_lines) = true -> s ∈ selected)
  /\ (forall s, s ∈ selected -> s ∈ all_sounds)
  /\ (Nat.min min_count (length all_sounds) <= length selected)%nat.
Proof.
  intros Hsampling selected. subst selected. unfold JP.select_relevant_sounds.
  set (q := fun sound : entry =>
              negb (bool_decide (get sound KEY_SOUND_JP = []))
              && contains (get sound KEY_SOUND_JP) (concat batch_lines)).
  set (relevant := List.filter q all_sounds).
  set (remaining := List.filter (fun s => negb (bool_decide (s ∈ relevant))) all_sounds).
  assert (Hrel : forall s, s ∈ all_sounds -> get s KEY_SOUND_JP <> [] ->
            contains (get s KEY_SOUND_JP) (concat batch_lines) = true -> s ∈ relevant).
  { intros s Hs Hne Hc. apply elem_of_list_filter_bool. split; [done|].
    unfold q. by rewrite (bool_decide_eq_false_2 _ Hne), Hc. }
  assert (Hin : forall s, s ∈ relevant -> s ∈ all_sounds).
  { intros s Hs. by apply elem_of_list_filter_bool in Hs as [? _]. }
  pose proof (filter_complement_length q all_sounds) as Hlen.
  fold relevant in Hlen. fold remaining in Hlen.
  destruct ((length relevant <? min_count)%nat && (0 <? length all_sounds)%nat) eqn:Hguard.
  - set (needed := Nat.min (min_count - length relevant) (length remaining)).
    pose proof (Hsampling draw remaining needed ltac:(unfold needed; lia)) as Hs.
    split; [|split].
    + intros s ? ? ?. apply elem_of_app. left. by apply Hrel.
    + intros s [Hs'|Hs']%elem_of_app; [by apply Hin|].
      apply (sample_elem _ _ _ _ Hs) in Hs'.
      by apply elem_of_list_filter_bool in Hs' as [? _].
    + rewrite length_app, (sample_length _ _ _ Hs). unfold needed. lia.
  - split; [done|]. split; [done|].
    apply andb_false_iff in Hguard as [Hg|Hg].
    + apply Nat.ltb_ge in Hg. lia.
    + apply Nat.ltb_ge in Hg. lia.
Qed.

(** The sound of the batch is selected, and the selection is made up to
    the dictionary's two entries. *)
Lemma select_relevant_sounds_bounds_witness :
  @sampling echo_environment
  /\ sound_entry [0x30C9; 0x30F3]%N [0x549A]%N ∈
       @JP.select_relevant_sounds echo_environment 0 sample_sound_batch sample_sounds 3
  /\ (2 <= length (@JP.select_relevant_sounds echo_environment 0 sample_sound_batch
                     sample_sounds 3))%nat.
Proof.
  destruct (@select_relevant_sounds_bounds echo_environment 0 sample_sound_batch
              sample_sounds 3 echo_sampling) as (Hrel & _ & Hmin).
  split; [exact echo_sampling|]. split; [|exact Hmin].
  apply Hrel; [|by vm_compute|by vm_compute].
  apply elem_of_cons. right. apply elem_of_cons. by left.
Defined.

(** ** The client for any number of attempts *)

Section ClientAny.
Context {E : environment}.
Variable p : prompt.
Variable max_retries : nat.
Variable first_request : nat.

(** One attempt, seen from the world it starts in. *)
Lemma call_attempts_step attempt later w :
  requests w = (first_request + attempt)%nat ->
  let w1 := World (document w) (glossary_file w) (sound_file w) (tracker w)
              (S (requests w)) (draws w)
              (trace w ++ attempt_events first_request p attempt) in
  call_attempts (attempt :: later) max_retries p w
  = match service (first_request + attempt) p with
    | Content text => (Returns text, w1)
    | TransportFailure =>
        if (attempt =? max_retries - 1)%nat then (Raises, w1)
        else call_attempts later max_retries p w1
    end.
Proof.
  intros Hreq w1. cbn [call_attempts].
  assert (Hw : count_request
                 (log (ApiRequest
                         (requests (if (0 <? attempt)%nat
                                    then log (Backoff (2 ^ N.of_nat attempt)) w else w)) p)
                    (if (0 <? attempt)%nat
                     then log (Backoff (2 ^ N.of_nat attempt)) w else w)) = w1).
  { unfold w1, attempt_events. rewrite <- Hreq.
    destruct (0 <? attempt)%nat; apply world_eq; simpl; try done.
    by rewrite <- app_assoc. }
  rewrite Hw.
  replace (requests (if (0 <? attempt)%nat
                     then log (Backoff (2 ^ N.of_nat attempt)) w else w))
    with (first_request + attempt)%nat by (rewrite <- Hreq; by destruct (0 <? attempt)%nat).
  done.
Qed.

Lemma advanced_step w a k :
  advanced first_request p (World (document w) (glossary_file w) (sound_file w) (tracker w)
              (S (requests w)) (draws w)
              (trace w ++ attempt_events first_request p a)) (S a) k
  = advanced first_request p w a (S k).
Proof.
  unfold advanced. apply world_eq; simpl; try done; try lia. by rewrite <- app_assoc.
Qed.

Lemma call_attempts_returns : forall m a w k text,
  (a + m = max_retries)%nat -> requests w = (first_request + a)%nat -> (k < m)%nat ->
  (forall j, (j < k)%nat -> service (first_request + a + j) p = TransportFailure) ->
  service (first_request + a + k) p = Content text ->
  call_attempts (seq a m) max_retries p w = (Returns text, advanced first_request p w a (S k)).
Proof.
  induction m as [|m IH]; intros a w k text Hsum Hreq Hk Hfail Hok; [lia|].
  cbn [seq]. rewrite call_attempts_step by done. cbv zeta.
  destruct k as [|k].
  - rewrite Nat.add_0_r in Hok. rewrite Hok. f_equal.
    unfold advanced. apply world_eq; simpl; try done; try lia. by rewrite app_nil_r.
  - pose proof (Hfail 0%nat ltac:(lia)) as H0. rewrite Nat.add_0_r in H0. rewrite H0.
    replace (a =? max_retries - 1)%nat with false by (symmetry; apply Nat.eqb_neq; lia).
    rewrite (IH (S a) _ k text); [by rewrite advanced_step|lia|simpl; lia|lia| |].
    + intros j Hj. replace (first_request + S a + j)%nat
        with (first_request + a + S j)%nat by lia. apply Hfail. lia.
    + by replace (first_request + S a + k)%nat with (first_request + a + S k)%nat by lia.
Qed.

Lemma call_attempts_raises : forall m a w,
  (a + m = max_retries)%nat -> requests w = (first_request + a)%nat -> (0 < m)%nat ->
  (forall j, (j < m)%nat -> service (first_request + a + j) p = TransportFailure) ->
  call_attempts (seq a m) max_retries p w = (Raises, advanced first_request p w a m).
Proof.
  induction m as [|m IH]; intros a w Hsum Hreq Hm Hfail; [lia|].
  cbn [seq]. rewrite call_attempts_step by done. cbv zeta.
  pose proof (Hfail 0%nat ltac:(lia)) as H0. rewrite Nat.add_0_r in H0. rewrite H0.
  destruct m as [|m].
  - replace (a =? max_retries - 1)%nat with true by (symmetry; apply Nat.eqb_eq; lia).
    f_equal. unfold advanced. apply world_eq; simpl; try done; try lia. by rewrite app_nil_r.
  - replace (a =? max_retries - 1)%nat with false by (symmetry; apply Nat.eqb_neq; lia).
    rewrite (IH (S a)); [by rewrite advanced_step|lia|simpl; lia|lia|].
    intros j Hj. replace (first_request + S a + j)%nat
      with (first_request + a + S j)%nat by lia. apply Hfail. lia.
Qed.

Lemma call_attempts_requests : forall attempts w,
  (requests w <= requests (snd (call_attempts attempts max_retries p w))
   <= requests w + length attempts)%nat.
Proof.
  induction attempts as [|attempt later IH]; intros w; cbn [call_attempts length].
  - simpl. lia.
  - set (w0 := if (0 <? attempt)%nat then log (Backoff (2 ^ N.of_nat attempt)) w else w).
    assert (H0 : requests w0 = requests w) by (unfold w0; by destruct (0 <? attempt)%nat).
    destruct (service (requests w0) p); [|simpl; lia].
    destruct (attempt =? max_retries - 1)%nat; [simpl; lia|].
    specialize (IH (count_request (log (ApiRequest (requests w0) p) w0))).
    simpl in IH. lia.
Qed.

End ClientAny.

(** X6. [call_grok_api] for any [max_retries]: with no attempt allowed it
    sends nothing and returns the empty string; it returns the content of
    the first answer it gets, after as many requests as it took; it raises
    when all its attempts fail, and there is at least one; and it never
    sends more than [max_retries] requests. *)
Theorem call_grok_api_any_retries {E : environment} (p : prompt) (max_retries : nat)
    (w : world) :
  call_grok_api p 0 w = (Returns [], w)
  /\ (forall k text,
        (k < max_retries)%nat ->
        (forall j, (j < k)%nat -> service (requests w + j) p = TransportFailure) ->
        service (requests w + k) p = Content text ->
        call_grok_api p max_retries w = (Returns text, after_attempts w p (S k)))
  /\ ((0 < max_retries)%nat ->
      (forall j, (j < max_retries)%nat -> service (requests w + j) p = TransportFailure) ->
      call_grok_api p max_retries w = (Raises, after_attempts w p max_retries))
  /\ (requests w <= requests (snd (call_grok_api p max_retries w))
      <= requests w + max_retries)%nat.
Proof.
  split; [done|]. split; [|split].
  - intros k text Hk Hfail Hok. unfold call_grok_api.
    apply (call_attempts_returns p max_retries (requests w)); try done; try lia.
    + intros j Hj. rewrite Nat.add_0_r. by apply Hfail.
    + by rewrite Nat.add_0_r.
  - intros Hn Hfail. unfold call_grok_api.
    apply (call_attempts_raises p max_retries (requests w)); try done; try lia.
    intros j Hj. rewrite Nat.add_0_r. by apply Hfail.
  - unfold call_grok_api.
    pose proof (call_attempts_requests p max_retries (seq 0 max_retries) w) as H.
    by rewrite length_seq in H.
Qed.

(** ** The whole file *)

Section WholeFile.
Context {E : environment}.
Variable V : variant.
Variable batch_size : nat.

Lemma fail_batch_world artifact batch_html_nums pending dictionary loc w :
  let after := fail_batch artifact batch_html_nums pending dictionary loc w in
  requests (snd after) = requests w /\ document (snd after) = document w
  /\ glossary_file (snd after) = glossary_file w
  /\ forall total translation_total pending0 loc0,
       tracked total translation_total loc0 pending0 w ->
       tracked total translation_total (fst after) pending (snd after).
Proof.
  unfold fail_batch. cbn [fst snd].
  pose proof (update_progress_frame (total_success loc)
                (total_failed loc + batch_failed_count batch_html_nums) pending
                (log artifact w)) as (Hd & Hg & _ & Hr & _).
  split; [by rewrite Hr|]. split; [by rewrite Hd|]. split; [by rewrite Hg|].
  intros total translation_total pending0 loc0 (pg & Ht & H1 & H2 & H3 & _ & _ & _ & H7 & H8).
  unfold tracked, update_progress, log. cbn [tracker]. rewrite Ht.
  eexists. split; [reflexivity|]. cbn. rewrite H8. by repeat split.
Qed.

Lemma tracked_frame total translation_total loc pending w w1 :
  tracker w1 = tracker w -> glossary_file w1 = glossary_file w ->
  tracked total translation_total loc pending w ->
  tracked total translation_total loc pending w1.
Proof. unfold tracked. by intros -> ->. Qed.

Lemma apply_response_world batch_data pending dictionary response_text loc w :
  let after := apply_response V batch_data pending dictionary response_text loc w in
  requests (snd after) = requests w
  /\ (document (snd after) = document w /\ lines (fst after) = lines loc
      \/ document (snd after) = Some (writelines (lines (fst after))))
  /\ (glossary_file (snd after) = glossary_file w
      \/ exists new, glossary_file (snd after) = merge_dictionaries V dictionary new)
  /\ forall total translation_total pending0 loc0,
       tracked total translation_total loc0 pending0 w ->
       tracked total translation_total (fst after) pending (snd after).
Proof.
  unfold apply_response.
  destruct (parse_response V response_text) as [[new_dict new_sound] content].
  destruct (reinsert V (line_translation_map content) (lines loc) batch_data)
    as [[ls ok] ko].
  assert (Hsound : forall w1 : world,
    let w2 := match new_sound with
              | [] => w1
              | _ :: _ =>
                  log SoundSaved
                    (set_sound_file
                       (JP.sort_by_gojuon
                          (JP.merge_sound_dictionaries (sound_file w1) new_sound)) w1)
              end in
    requests w2 = requests w1 /\ glossary_file w2 = glossary_file w1
    /\ tracker w2 = tracker w1 /\ document w2 = document w1).
  { intros w1. by destruct new_sound. }
  assert (Hprogress : forall (w1 : world) pg success failed,
    tracker w1 = Some pg -> pg_status pg = Processing ->
    let w2 := log DocumentWritten
                (set_document (writelines ls) (update_progress success failed pending w1)) in
    requests w2 = requests w1 /\ glossary_file w2 = glossary_file w1
    /\ document w2 = Some (writelines ls)
    /\ tracker w2 = Some (Progress (pg_total pg) (pg_translation_total pg) (pg_skipped pg)
                            success failed pending (pg_dict_count pg) Processing)).
  { intros w1 pg success failed Ht Hst. unfold update_progress. rewrite Ht, Hst. done. }
  assert (Hplain : forall (w1 : world) success failed,
    let w2 := log DocumentWritten
                (set_document (writelines ls) (update_progress success failed pending w1)) in
    requests w2 = requests w1 /\ glossary_file w2 = glossary_file w1
    /\ document w2 = Some (writelines ls)).
  { intros w1 success failed. unfold update_progress. by destruct (tracker w1). }
  destruct new_dict as [|e1 new_dict].
  - set (w1 := log (ParserCall response_text) (log ResponseArtifact w)).
    destruct (Hsound w1) as (Hr2 & Hg2 & Ht2 & Hd2).
    set (w2 := match new_sound with [] => w1 | _ :: _ => _ end) in *.
    destruct (line_translation_map_raises content).
    { destruct (fail_batch_world FailureArtifact (List.map snd batch_data) pending
                  dictionary loc w2) as (Hr' & Hd' & Hg' & Ht').
      split; [by rewrite Hr', Hr2|]. split; [left; split; [by rewrite Hd', Hd2|done]|].
      split; [left; by rewrite Hg', Hg2|].
      intros total tt pending0 loc0 Htr. apply (Ht' total tt pending0 loc0).
      by apply (tracked_frame _ _ _ _ w). }
    destruct (Hplain w2 (total_success loc + ok)%nat (total_failed loc + ko)%nat)
      as (Hr3 & Hg3 & Hd3).
    cbn [fst snd lines].
    split; [by rewrite Hr3, Hr2|]. split; [by right|].
    split; [left; by rewrite Hg3, Hg2|].
    intros total tt pending0 loc0 (pg & Ht & H1 & H2 & H3 & _ & _ & _ & H7 & H8).
    destruct (Hprogress w2 pg (total_success loc + ok)%nat (total_failed loc + ko)%nat)
      as (_ & Hg4 & _ & Ht4); [by rewrite Ht2|done|].
    exists (Progress (pg_total pg) (pg_translation_total pg) (pg_skipped pg)
              (total_success loc + ok) (total_failed loc + ko) pending
              (pg_dict_count pg) Processing).
    split; [exact Ht4|]. cbn [pg_total pg_translation_total pg_skipped pg_success
      pg_failed pg_pending pg_dict_count pg_status total_success total_failed].
    rewrite Hg4, Hg2. by repeat split.
  - set (merged := merge_dictionaries V dictionary (e1 :: new_dict)).
    set (w1 := update_dict_count (length merged)
                 (log GlossarySaved
                    (set_glossary_file merged
                       (log (ParserCall response_text) (log ResponseArtifact w))))).
    assert (Hw1 : requests w1 = requests w /\ glossary_file w1 = merged
                  /\ document w1 = document w
                  /\ forall pg, tracker w = Some pg ->
                        tracker w1
                        = Some (Progress (pg_total pg) (pg_translation_total pg)
                                  (pg_skipped pg) (pg_success pg) (pg_failed pg)
                                  (pg_pending pg) (length merged) (pg_status pg))).
    { unfold w1, update_dict_count, log, set_glossary_file. cbn [tracker].
      destruct (tracker w) as [pg|]; [|by repeat split].
      split; [done|]. split; [done|]. split; [done|]. by intros ? [= <-]. }
    destruct Hw1 as (Hr1 & Hg1 & Hd1 & Ht1).
    destruct (Hsound w1) as (Hr2 & Hg2 & Ht2 & Hd2).
    set (w2 := match new_sound with [] => w1 | _ :: _ => _ end) in *.
    destruct (line_translation_map_raises content).
    { destruct (fail_batch_world FailureArtifact (List.map snd batch_data) pending
                  merged loc w2) as (Hr' & Hd' & Hg' & Ht').
      split; [by rewrite Hr', Hr2|].
      split; [left; split; [by rewrite Hd', Hd2, Hd1|done]|].
      split; [right; exists (e1 :: new_dict); by rewrite Hg', Hg2|].
      intros total tt pending0 loc0 (pg & Ht & H1 & H2 & H3 & H4 & H5 & H6 & H7 & H8).
      apply (Ht' total tt pending0 loc0).
      eexists. split; [rewrite Ht2; by apply Ht1|].
      cbn [pg_total pg_translation_total pg_skipped pg_success
        pg_failed pg_pending pg_dict_count pg_status].
      rewrite Hg2, Hg1. by repeat split. }
    destruct (Hplain w2 (total_success loc + ok)%nat (total_failed loc + ko)%nat)
      as (Hr3 & Hg3 & Hd3).
    cbn [fst snd lines].
    split; [by rewrite Hr3, Hr2|]. split; [by right|].
    split; [right; exists (e1 :: new_dict); by rewrite Hg3, Hg2|].
    intros total tt pending0 loc0 (pg & Ht & H1 & H2 & H3 & _ & _ & _ & H7 & H8).
    destruct (Hprogress w2
                (Progress (pg_total pg) (pg_translation_total pg)
                   (pg_skipped pg) (pg_success pg) (pg_failed pg)
                   (pg_pending pg) (length merged) (pg_status pg))
                (total_success loc + ok)%nat (total_failed loc + ko)%nat)
      as (_ & Hg4 & _ & Ht4); [rewrite Ht2; by apply Ht1|done|].
    eexists. split; [exact Ht4|].
    cbn [pg_total pg_translation_total pg_skipped pg_success
      pg_failed pg_pending pg_dict_count pg_status total_success total_failed].
    rewrite Hg4, Hg2, Hg1. by repeat split.
Qed.

Lemma call_grok_api_requests3 p w :
  (requests w + 1 <= requests (snd (call_grok_api p 3 w)) <= requests w + 3)%nat.
Proof.
  split; [|apply (call_attempts_requests p 3 (seq 0 3) w)].
  unfold call_grok_api. cbn [seq call_attempts Nat.ltb Nat.leb].
  destruct (service (requests w) p); [|simpl; lia].
  cbn [Nat.eqb Nat.sub].
  pose proof (call_attempts_requests p 3 [1; 2]%nat
                (count_request (log (ApiRequest (requests w) p) w))) as [H _].
  simpl in H. simpl. lia.
Qed.

Lemma batch_data_of_drop (japanese_lines : list (nat * str * Z)) (batch_idx : nat) :
  batch_data_of batch_size japanese_lines batch_idx
  = take batch_size (drop (batch_idx * batch_size) japanese_lines).
Proof.
  unfold batch_data_of, slice.
  set (l := drop (batch_idx * batch_size) japanese_lines).
  assert (Hl : length l = (length japanese_lines - batch_idx * batch_size)%nat)
    by apply length_drop.
  destruct (decide (batch_size <= length l)%nat) as [Hle|Hgt].
  - f_equal. lia.
  - rewrite !take_ge; [done|lia|lia].
Qed.

Lemma identified_app (a b : list (nat * str * Z)) :
  identified (a ++ b) = identified a ++ identified b.
Proof. apply List.filter_app. Qed.

Lemma identified_sublist (batch : list (nat * str * Z)) : sublist (identified batch) batch.
Proof. apply filter_sublist. Qed.

(** What one batch does to the local variables and to the world, once
    its request file is written. *)
Lemma process_batch_summary japanese_lines batch_idx loc w :
  let after := process_batch V batch_size japanese_lines batch_idx (loc, w) in
  let batch := batch_data_of batch_size japanese_lines batch_idx in
  (requests w + 1 <= requests (snd after) <= requests w + 3)%nat
  /\ length (lines (fst after)) = length (lines loc)
  /\ (forall j, j ∉ indices (identified batch) -> lines (fst after) !! j = lines loc !! j)
  /\ (total_success (fst after) + total_failed (fst after)
      = total_success loc + total_failed loc + length (identified batch))%nat
  /\ (document (snd after) = document w /\ lines (fst after) = lines loc
      \/ document (snd after) = Some (writelines (lines (fst after))))
  /\ (glossary_file (snd after) = glossary_file w
      \/ exists new, glossary_file (snd after)
                     = merge_dictionaries V (batch_dictionary batch_idx loc w) new)
  /\ forall total translation_total pending0,
       tracked total translation_total loc pending0 w ->
       tracked total translation_total (fst after)
         (pending_after batch_size japanese_lines batch_idx) (snd after).
Proof.
  intros after batch. subst after. unfold process_batch. fold batch.
  pose proof (call_grok_api_frame
                (batch_request V batch_size japanese_lines batch_idx loc w)
                (log RequestArtifact (count_draw w))) as Hframe.
  pose proof (call_grok_api_requests3
                (batch_request V batch_size japanese_lines batch_idx loc w)
                (log RequestArtifact (count_draw w))) as Hreq.
  destruct (call_grok_api _ 3 _) as [c w1]. cbn [snd] in Hframe, Hreq.
  destruct Hframe as (Hd & Hg & _ & Ht & _). simpl in Hd, Hg, Ht, Hreq.
  assert (Hfail : forall artifact,
    let after := fail_batch artifact (List.map snd batch)
                   (pending_after batch_size japanese_lines batch_idx)
                   (batch_dictionary batch_idx loc w) loc w1 in
    (requests w + 1 <= requests (snd after) <= requests w + 3)%nat
    /\ length (lines (fst after)) = length (lines loc)
    /\ (forall j, j ∉ indices (identified batch) -> lines (fst after) !! j = lines loc !! j)
    /\ (total_success (fst after) + total_failed (fst after)
        = total_success loc + total_failed loc + length (identified batch))%nat
    /\ (document (snd after) = document w /\ lines (fst after) = lines loc
        \/ document (snd after) = Some (writelines (lines (fst after))))
    /\ (glossary_file (snd after) = glossary_file w
        \/ exists new, glossary_file (snd after)
                       = merge_dictionaries V (batch_dictionary batch_idx loc w) new)
    /\ forall total translation_total pending0,
         tracked total translation_total loc pending0 w ->
         tracked total translation_total (fst after)
           (pending_after batch_size japanese_lines batch_idx) (snd after)).
  { intros artifact after.
    destruct (fail_batch_world artifact (List.map snd batch)
                (pending_after batch_size japanese_lines batch_idx)
                (batch_dictionary batch_idx loc w) loc w1) as (Hr' & Hd' & Hg' & Ht').
    fold after in Hr', Hd', Hg', Ht'.
    split; [lia|]. split; [done|]. split; [done|]. split.
    { subst after. unfold fail_batch. cbn [fst total_success total_failed].
      rewrite batch_failed_count_identified. lia. }
    split; [left; split; [congruence|done]|]. split; [left; congruence|].
    intros total tt pending0 Htr. apply (Ht' total tt pending0 loc).
    by apply (tracked_frame _ _ _ _ w). }
  destruct c as [response_text|]; [|apply Hfail].
  destruct (is_refusal_response V response_text); [apply Hfail|].
  destruct (apply_response_world batch
              (pending_after batch_size japanese_lines batch_idx)
              (batch_dictionary batch_idx loc w) response_text loc w1)
    as (Hr' & Hd' & Hg' & Ht').
  assert (Hlocals :
    length (lines (fst (apply_response V batch
              (pending_after batch_size japanese_lines batch_idx)
              (batch_dictionary batch_idx loc w) response_text loc w1)))
    = length (lines loc)
    /\ (forall j, j ∉ indices (identified batch) ->
          lines (fst (apply_response V batch
                   (pending_after batch_size japanese_lines batch_idx)
                   (batch_dictionary batch_idx loc w) response_text loc w1)) !! j
          = lines loc !! j)
    /\ (total_success (fst (apply_response V batch
              (pending_after batch_size japanese_lines batch_idx)
              (batch_dictionary batch_idx loc w) response_text loc w1))
        + total_failed (fst (apply_response V batch
              (pending_after batch_size japanese_lines batch_idx)
              (batch_dictionary batch_idx loc w) response_text loc w1))
        = total_success loc + total_failed loc + length (identified batch))%nat).
  { destruct (line_translation_map_raises (snd (parse_response V response_text))) eqn:Hraise.
    - destruct (apply_response_raises V batch
                  (pending_after batch_size japanese_lines batch_idx)
                  (batch_dictionary batch_idx loc w) response_text loc w1 Hraise)
        as (d & w2 & ->).
      split; [done|]. split; [done|].
      unfold fail_batch. cbn [fst total_success total_failed].
      rewrite batch_failed_count_identified. lia.
    - destruct (apply_response_locals V batch
                  (pending_after batch_size japanese_lines batch_idx)
                  (batch_dictionary batch_idx loc w) response_text loc w1 Hraise)
        as (Hl & Hs & Hf).
      split; [rewrite Hl; apply reinsert_fold_length|]. split.
      { intros j Hj. rewrite Hl. unfold reinsert. rewrite reinsert_fold_identified.
        by apply reinsert_fold_other. }
      rewrite Hs, Hf. unfold reinsert.
      destruct (reinsert_fold_counts V
                  (line_translation_map (snd (parse_response V response_text)))
                  batch (lines loc) 0 0) as [-> ->].
      pose proof (verdict_counts V
                    (line_translation_map (snd (parse_response V response_text))) batch).
      simpl. lia. }
  destruct Hlocals as (Hlen & Hother & Hcount).
  split; [lia|]. split; [done|]. split; [done|]. split; [done|].
  split.
  { destruct Hd' as [[Hd' Hl']|Hd']; [left; split; [congruence|done]|by right]. }
  split.
  { destruct Hg' as [Hg'|Hg']; [left; congruence|by right]. }
  intros total tt pending0 Htr. apply (Ht' total tt pending0 loc).
  by apply (tracked_frame _ _ _ _ w).
Qed.

Lemma identified_length (batch : list (nat * str * Z)) :
  (length (identified batch) <= length batch)%nat.
Proof. apply List.filter_length_le. Qed.

(** What one turn of the loop does: the batch is processed when its
    request file is written, and abandoned otherwise. *)
Lemma batch_turn_summary japanese_lines batch_idx loc w :
  let after := batch_turn V batch_size japanese_lines batch_idx (loc, w) in
  let batch := batch_data_of batch_size japanese_lines batch_idx in
  let saved := request_saved (draws w)
                 (batch_request V batch_size japanese_lines batch_idx loc w) in
  (requests w + (if saved then 1 else 0) <= requests (snd after)
   <= requests w + (if saved then 3 else 0))%nat
  /\ length (lines (fst after)) = length (lines loc)
  /\ (forall j, j ∉ indices (identified batch) -> lines (fst after) !! j = lines loc !! j)
  /\ (total_success (fst after) + total_failed (fst after)
      = total_success loc + total_failed loc
        + (if saved then length (identified batch) else length batch))%nat
  /\ (document (snd after) = document w /\ lines (fst after) = lines loc
      \/ document (snd after) = Some (writelines (lines (fst after))))
  /\ (glossary_file (snd after) = glossary_file w
      \/ exists new, glossary_file (snd after)
                     = merge_dictionaries V (batch_dictionary batch_idx loc w) new)
  /\ forall total translation_total pending0,
       tracked total translation_total loc pending0 w ->
       tracked total translation_total (fst after)
         (pending_after batch_size japanese_lines batch_idx) (snd after).
Proof.
  intros after batch saved. subst after saved. unfold batch_turn.
  destruct (request_saved _ _); [apply process_batch_summary|].
  unfold abandon_batch. fold batch. cbn [fst snd lines total_success total_failed].
  pose proof (update_progress_frame (total_success loc)
                (total_failed loc + length batch)
                (pending_after batch_size japanese_lines batch_idx)
                (count_draw w)) as (Hd & Hg & _ & Hr & _).
  cbv zeta in Hd, Hg, Hr. cbn [count_draw document glossary_file requests] in Hd, Hg, Hr.
  split; [rewrite Hr; lia|]. split; [done|]. split; [done|]. split; [lia|].
  split; [by left|]. split; [by left|].
  intros total tt pending0 (pg & Ht & H1 & H2 & H3 & _ & _ & _ & H7 & H8).
  unfold tracked, update_progress, count_draw. cbn [tracker]. rewrite Ht.
  eexists. split; [reflexivity|]. cbn. rewrite H8. by repeat split.
Qed.

Lemma filter_sublist_mono {A} (q : A -> bool) (a b : list A) :
  sublist a b -> sublist (List.filter q a) (List.filter q b).
Proof.
  induction 1 as [|x a b _ IH|x a b _ IH]; cbn [List.filter]; [done| |].
  - destruct (q x); [by constructor|done].
  - destruct (q x); [by constructor|done].
Qed.

Lemma batch_indices_identified (japanese_lines : list (nat * str * Z)) batch_idx j :
  j ∉ indices (identified japanese_lines) ->
  j ∉ indices (identified (batch_data_of batch_size japanese_lines batch_idx)).
Proof.
  intros Hj Hin. apply Hj. eapply elem_of_sublist; [exact Hin|].
  apply sublist_map, filter_sublist_mono, slice_sublist.
Qed.

Lemma take_batches_S (japanese_lines : list (nat * str * Z)) k :
  take (S k * batch_size) japanese_lines
  = take (k * batch_size) japanese_lines ++ batch_data_of batch_size japanese_lines k.
Proof.
  rewrite batch_data_of_drop, take_take_drop. f_equal. lia.
Qed.

Lemma identified_take_S (japanese_lines : list (nat * str * Z)) k :
  identified (take (S k * batch_size) japanese_lines)
  = identified (take (k * batch_size) japanese_lines)
    ++ identified (batch_data_of batch_size japanese_lines k).
Proof. by rewrite take_batches_S, identified_app. Qed.

(** What the first [k] turns of the loop do.  Every line with an identity
    token is counted once; a line without token is counted only when its
    batch is abandoned. *)
Lemma batches_summary (japanese_lines : list (nat * str * Z)) (lines0 : list str)
    (w0 : world) (k : nat) :
  let st := foldl (fun st batch_idx => batch_turn V batch_size japanese_lines batch_idx st)
                  (Locals lines0 (glossary_file w0) 0 0, w0) (seq 0 k) in
  (requests w0 <= requests (snd st) <= requests w0 + 3 * k)%nat
  /\ length (lines (fst st)) = length lines0
  /\ (forall j, j ∉ indices (identified japanese_lines) -> lines (fst st) !! j = lines0 !! j)
  /\ (length (identified (take (k * batch_size) japanese_lines))
      <= total_success (fst st) + total_failed (fst st)
      <= length (take (k * batch_size) japanese_lines))%nat
  /\ ((forall n p, request_saved n p = true) ->
      (requests w0 + k <= requests (snd st))%nat
      /\ (total_success (fst st) + total_failed (fst st)
          = length (identified (take (k * batch_size) japanese_lines)))%nat)
  /\ (document (snd st) = document w0 /\ lines (fst st) = lines0
      \/ document (snd st) = Some (writelines (lines (fst st))))
  /\ ((forall A B, exists suffix, merge_dictionaries V A B = A ++ suffix) ->
      exists suffix, glossary_file (snd st) = glossary_file w0 ++ suffix)
  /\ (k = O -> translation_dict_full (fst st) = glossary_file (snd st))
  /\ forall total translation_total pending0,
       tracked total translation_total (Locals lines0 (glossary_file w0) 0 0) pending0 w0 ->
       tracked total translation_total (fst st)
         (match k with
          | O => pending0
          | S k' => pending_after batch_size japanese_lines k'
          end) (snd st).
Proof.
  induction k as [|k IH].
  - cbn [seq foldl fst snd lines total_success total_failed translation_dict_full].
    split; [lia|]. split; [done|]. split; [done|]. split; [simpl; lia|].
    split; [intros _; simpl; lia|].
    split; [by left|]. split; [intros _; exists []; by rewrite app_nil_r|]. by split.
  - rewrite seq_S, foldl_snoc. cbn [Nat.add].
    destruct IH as (Hreq & Hlen & Hother & Hcount & Hsaved & Hdoc & Hgloss & Hdict & Htracked).
    destruct (foldl _ _ (seq 0 k)) as [loc w] eqn:Hfold. cbn [fst snd] in *.
    destruct (batch_turn_summary japanese_lines k loc w)
      as (Hreq' & Hlen' & Hother' & Hcount' & Hdoc' & Hgloss' & Htracked').
    pose proof (identified_length (batch_data_of batch_size japanese_lines k)) as Hle.
    cbv zeta in *. split.
    { destruct (request_saved _ _); lia. }
    split; [congruence|]. split.
    { intros j Hj. rewrite Hother' by by apply batch_indices_identified. by apply Hother. }
    split.
    { rewrite identified_take_S, take_batches_S, !length_app.
      destruct (request_saved _ _); lia. }
    split.
    { intros Hall. destruct (Hsaved Hall) as [Hr Hc]. rewrite Hall in Hreq', Hcount'.
      rewrite identified_take_S, length_app. lia. }
    split.
    { destruct Hdoc' as [[Hd Hl]|Hd]; [|by right].
      destruct Hdoc as [[Hd0 Hl0]|Hd0]; [left; split; congruence|right; congruence]. }
    split.
    { intros Hmerge. destruct (Hgloss Hmerge) as [suffix Hsuffix].
      destruct Hgloss' as [Hg|[new Hg]]; [exists suffix; congruence|].
      rewrite Hg. unfold batch_dictionary.
      destruct (Hmerge (if (0 <? k)%nat then glossary_file w else translation_dict_full loc)
                  new) as [s ->].
      destruct k as [|k]; cbn [Nat.ltb Nat.leb].
      - rewrite Hdict by done. rewrite Hsuffix, <- app_assoc. by eexists.
      - rewrite Hsuffix, <- app_assoc. by eexists. }
    split; [done|].
    intros total tt pending0 Htr. eapply Htracked'. by eapply Htracked.
Qed.




(** [process_file] on a file that reaches the loop over its batches. *)
Lemma process_file_loop w content :
  document w = Some content ->
  get_translation_lines_raises V (readlines content) = false ->
  get_translation_lines V (readlines content) <> [] ->
  batch_size <> O ->
  let lines0 := readlines content in
  let japanese_lines := get_translation_lines V lines0 in
  let w0 := update_dict_count (length (glossary_file w))
              (init_progress (length lines0) (length japanese_lines) w) in
  let st := foldl (fun st batch_idx => batch_turn V batch_size japanese_lines batch_idx st)
                  (Locals lines0 (glossary_file w0) 0 0, w0)
                  (seq 0 (num_batches batch_size (length japanese_lines))) in
  process_file V batch_size w
  = (Result (length lines0) (length japanese_lines)
       (total_success (fst st)) (total_failed (fst st))
       (if (0 <? total_failed (fst st))%nat then FilePartial else FileSuccess),
     log PlainTextExported (complete_progress Completed (snd st)))
  /\ document w0 = document w /\ glossary_file w0 = glossary_file w
  /\ requests w0 = requests w
  /\ tracked (length lines0) (length japanese_lines) (Locals lines0 (glossary_file w0) 0 0)
       (length japanese_lines) w0.
Proof.
  intros Hdoc Hraise Hlines Hb. cbv zeta.
  set (lines0 := readlines content) in *.
  set (japanese_lines := get_translation_lines V lines0) in *.
  split; [|by repeat split; try eexists].
  unfold process_file. rewrite Hdoc. fold lines0. rewrite Hraise. fold japanese_lines.
  clearbody japanese_lines lines0.
  destruct (length japanese_lines) as [|m] eqn:Hlen; [by destruct japanese_lines|].
  rewrite <- Hlen.
  destruct batch_size as [|n] eqn:Hbs; [done|]. rewrite <- Hbs.
  unfold num_batches.
  change (glossary_file (update_dict_count _ _)) with (glossary_file w).
  change (glossary_file (init_progress (length lines0) (length japanese_lines) w))
    with (glossary_file w).
  by destruct (foldl _ _ _) as [loc wf].
Qed.

Lemma process_file_zero_world w content :
  document w = Some content ->
  get_translation_lines_raises V (readlines content) = false ->
  get_translation_lines V (readlines content) <> [] ->
  batch_size = O ->
  snd (process_file V batch_size w)
  = complete_progress Failed
      (update_dict_count (length (glossary_file w))
         (init_progress (length (readlines content))
            (length (get_translation_lines V (readlines content))) w)).
Proof.
  intros Hdoc Hraise Hlines Hz. unfold process_file. rewrite Hdoc, Hraise, Hz.
  set (japanese_lines := get_translation_lines V (readlines content)) in *.
  clearbody japanese_lines.
  destruct (length japanese_lines) as [|m] eqn:Hlen; [by destruct japanese_lines|].
  by rewrite <- Hlen.
Qed.






(** X10. [process_file] leaves the document file as it was, or rewrites
    it from a list of as many lines in which every line that needs no
    translation, and every line without identity token, is the line
    read. *)
Theorem process_file_untouched_lines (w : world) (content : str) :
  document w = Some content ->
  let w' := snd (process_file V batch_size w) in
  let japanese_lines := get_translation_lines V (readlines content) in
  exists ls,
    length ls = length (readlines content)
    /\ (forall j, j ∉ indices (identified japanese_lines) -> ls !! j = readlines content !! j)
    /\ (document w' = Some content \/ document w' = Some (writelines ls)).
Proof.
  intros Hdoc w' japanese_lines. subst w'.
  assert (Hsame : forall status, document (complete_progress status w) = document w).
  { intros status. unfold complete_progress. by destruct (tracker w). }
  destruct (get_translation_lines_raises V (readlines content)) eqn:Hraise.
  { exists (readlines content). split; [done|]. split; [done|]. left.
    rewrite (process_file_raises V batch_size w content) by done. cbn [snd].
    by rewrite Hsame. }
  destruct (decide (japanese_lines = [])) as [Hnil|Hne].
  { exists (readlines content). split; [done|]. split; [done|]. left.
    rewrite (process_file_skipped V batch_size w content) by done. cbn [snd].
    by rewrite Hsame. }
  destruct (decide (batch_size = O)) as [Hz|Hb].
  { exists (readlines content). split; [done|]. split; [done|]. left.
    rewrite (process_file_zero_world w content Hdoc Hraise Hne Hz).
    unfold complete_progress, update_dict_count, init_progress. by cbn. }
  destruct (process_file_loop w content Hdoc Hraise Hne Hb) as (-> & Hd0 & _).
  fold japanese_lines in Hd0 |- *.
  destruct (batches_summary japanese_lines (readlines content)
              (update_dict_count (length (glossary_file w))
                 (init_progress (length (readlines content)) (length japanese_lines) w))
              (num_batches batch_size (length japanese_lines)))
    as (_ & Hlen & Hother & _ & _ & Hdocs & _).
  destruct (foldl _ _ _) as [loc wf]. cbn [fst snd] in *.
  exists (lines loc). split; [done|]. split; [done|].
  assert (Hd : document (log PlainTextExported (complete_progress Completed wf))
               = document wf).
  { unfold log, complete_progress. by destruct (tracker wf). }
  rewrite Hd. destruct Hdocs as [[Hd1 _]|Hd1]; [left; congruence|by right].
Qed.



End WholeFile.









Lemma process_file_untouched_lines_witness :
  document sample_world = Some sample_document
  /\ exists ls,
       length ls = length (readlines sample_document)
       /\ (forall j,
             j ∉ indices (identified (@get_translation_lines echo_environment (@JP_variant echo_environment)
                                         (readlines sample_document))) ->
             ls !! j = readlines sample_document !! j)
       /\ (document (snd (@process_file echo_environment (@JP_variant echo_environment) 1 sample_world))
           = Some sample_document
           \/ document (snd (@process_file echo_environment (@JP_variant echo_environment) 1 sample_world))
              = Some (writelines ls)).
Proof.
  split; [reflexivity|].
  apply (@process_file_untouched_lines echo_environment (@JP_variant echo_environment) 1 sample_world
           sample_document eq_refl).
Defined.

(** ** Searching a text *)

Lemma search_is_Some r s :
  is_Some (search r s) <-> exists pre post, s = pre ++ post /\ is_Some (match_at r post).
Proof.
  induction s as [|c s IH].
  - cbn [search]. destruct (match_at r []) as [[g rest]|] eqn:Hm.
    + split; [|by eauto]. intros _. exists [], []. by rewrite Hm.
    + split; [by intros [? ?]|]. intros (pre & post & Heq & Hsome).
      symmetry in Heq. apply app_eq_nil in Heq as [-> ->]. by rewrite Hm in Hsome.
  - cbn [search]. destruct (match_at r (c :: s)) as [[g rest]|] eqn:Hm.
    + split; [|by eauto]. intros _. exists [], (c :: s). by rewrite Hm.
    + rewrite IH. split.
      * intros (pre & post & -> & Hsome). by exists (c :: pre), post.
      * intros (pre & post & Heq & Hsome). destruct pre as [|c' pre].
        -- simpl in Heq. subst post. by rewrite Hm in Hsome.
        -- injection Heq as -> ->. by exists pre, post.
Qed.

Lemma derives_anchor_free r : forall u rest rest' g g',
  anchor_free r = true -> derives r u rest g g' -> derives r u rest' g g'.
Proof.
  induction r as [|p|a IHa b IHb|a IHa|p|p|a IHa|]; cbn [anchor_free derives];
    intros u rest rest' g g' Hfree H; try done.
  - apply andb_true_iff in Hfree as [Ha Hb].
    destruct H as (v & w & g1 & -> & Hv & Hw).
    exists v, w, g1. split; [done|]. split; [by eapply IHa|by eapply IHb].
  - destruct H as [H|H]; [by left|right; by eapply IHa].
  - destruct H as [[g1 H] ->]. split; [|done]. exists g1. by eapply IHa.
Qed.

Lemma found_in_context r a t b :
  anchor_free r = true -> found r t = true -> found r (a ++ t ++ b) = true.
Proof.
  intros Hfree Hfound. apply bool_decide_eq_true in Hfound. apply bool_decide_eq_true.
  apply search_is_Some in Hfound as (pre & post & -> & [[g rest] Hm]).
  apply match_at_sound in Hm as (u & -> & Hd).
  apply search_is_Some. exists (a ++ pre), (u ++ rest ++ b).
  split; [by rewrite <- !app_assoc|].
  apply (match_at_complete _ _ _ g). by eapply derives_anchor_free.
Qed.

(** X12. A response that holds a refusal phrase is a refusal whatever
    stands before and after the phrase: [is_refusal_response] is kept when
    the text is extended on either side. *)
Theorem refusal_phrase_anywhere (before text after : str) :
  (JP.is_refusal_response text = true ->
   JP.is_refusal_response (before ++ text ++ after) = true)
  /\ (EN.is_refusal_response text = true ->
      EN.is_refusal_response (before ++ text ++ after) = true).
Proof.
  assert (Hany : forall patterns,
    forallb anchor_free patterns = true ->
    existsb (fun pattern => found pattern text) patterns = true ->
    existsb (fun pattern => found pattern (before ++ text ++ after)) patterns = true).
  { intros patterns Hfree H. apply existsb_exists in H as (r & Hin & Hr).
    apply existsb_exists. exists r. split; [done|].
    apply found_in_context; [|done].
    rewrite forallb_forall in Hfree. by apply Hfree. }
  split; apply Hany; reflexivity.
Qed.

(** ** The language predicates of the validity check *)

Lemma never_empty_Cls p : never_empty (Cls p).
Proof.
  intros s g rest H. unfold match_at in H. cbn [run] in H.
  destruct s as [|c s]; [done|]. destruct (p c); [|done].
  injection H as _ <-. simpl. lia.
Qed.

Lemma remove_Cls p s : remove (Cls p) s = List.filter (fun c => negb (p c)) s.
Proof.
  unfold remove. induction s as [|c s IH].
  - apply sub_nil, never_empty_Cls.
  - cbn [List.filter]. destruct (p c) eqn:Hp; cbn [negb].
    + rewrite (sub_hit _ _ None c [] s); [by rewrite IH|].
      unfold match_at. cbn [run app]. by rewrite Hp.
    + rewrite sub_miss; [by rewrite IH|].
      unfold match_at. cbn [run]. by rewrite Hp.
Qed.

Lemma found_nil r : found r [] = bool_decide (is_Some (match_at r [])).
Proof.
  unfold found. cbn [search]. destruct (match_at r []) as [[g rest]|]; [|done].
  rewrite !bool_decide_eq_true_2; eauto.
Qed.

Lemma found_cons r c s :
  found r (c :: s)
  = match match_at r (c :: s) with
    | Some _ => true
    | None => found r s
    end.
Proof.
  unfold found. cbn [search]. destruct (match_at r (c :: s)) as [[g rest]|]; [|done].
  apply bool_decide_eq_true. eauto.
Qed.

Lemma found_Cls p s : found (Cls p) s = existsb p s.
Proof.
  induction s as [|c s IH]; [by rewrite found_nil|].
  rewrite found_cons. cbn [existsb]. unfold match_at. cbn [run].
  destruct (p c); [done|]. apply IH.
Qed.

(** A pattern that starts with a class finds nothing in a text without a
    character of the class. *)
Lemma found_head_class p r s :
  existsb p s = false -> found (Cat (Cls p) r) s = false.
Proof.
  induction s as [|c s IH]; [by rewrite found_nil|].
  cbn [existsb]. intros [Hc Hs]%orb_false_iff.
  rewrite found_cons. unfold match_at. cbn [run]. rewrite Hc. by apply IH.
Qed.

(** What [re.sub(pattern, '', s)] returns is made of characters of [s]. *)
Lemma remove_fuel_existsb (p : N -> bool) r : forall n s,
  existsb p s = false ->
  existsb p (concat (List.map (render (fun _ => [])) (scan_fuel n r s))) = false.
Proof.
  induction n as [|n IH]; intros s Hs; [done|].
  rewrite scan_fuel_S.
  assert (Hstep : existsb p (concat (List.map (render (fun _ => []))
                    match s with [] => [] | c :: s' => Copy c :: scan_fuel n r s' end))
                  = false).
  { destruct s as [|c s']; [done|]. cbn [existsb] in Hs.
    apply orb_false_iff in Hs as [Hc Hs]. cbn [List.map concat render app existsb].
    by rewrite Hc, IH. }
  destruct (match_at r s) as [[g rest]|] eqn:Hm; [|done].
  destruct (match_at_suffix _ _ _ _ Hm) as [u ->].
  destruct (length (u ++ rest) - length rest)%nat; cbn [List.map concat render app].
  - done.
  - apply IH. rewrite existsb_app in Hs. by apply orb_false_iff in Hs as [_ ?].
Qed.

Lemma remove_existsb (p : N -> bool) r s :
  existsb p s = false -> existsb p (remove r s) = false.
Proof. apply remove_fuel_existsb. Qed.

Lemma cjk_not_blank c : is_cjk c = true -> is_cjk_blank c = false.
Proof.
  unfold is_cjk, is_cjk_blank, isspace, in_range. intros H. decide_ranges.
Qed.

Lemma pure_chinese_no_kana c :
  is_cjk_blank c || is_cjk c = true -> is_kana c = false.
Proof.
  unfold is_cjk, is_cjk_blank, is_kana, isspace, in_range. intros H. decide_ranges.
Qed.

Lemma pure_chinese_no_alpha c :
  is_cjk_blank c || is_cjk c = true -> is_alpha c = false.
Proof.
  unfold is_cjk, is_cjk_blank, is_alpha, is_lower, is_upper, isspace, in_range.
  intros H. decide_ranges.
Qed.

Lemma cleaned_all_cjk t :
  forallb is_cjk (List.filter (fun c => negb (is_cjk_blank c)) t)
  = forallb (fun c => is_cjk_blank c || is_cjk c) t.
Proof.
  induction t as [|c t IH]; [done|]. cbn [List.filter forallb].
  destruct (is_cjk_blank c); cbn [negb orb forallb]; by rewrite IH.
Qed.

Lemma cleaned_empty t :
  forallb (fun c => is_cjk_blank c || is_cjk c) t = true ->
  List.filter (fun c => negb (is_cjk_blank c)) t = [] <-> existsb is_cjk t = false.
Proof.
  induction t as [|c t IH]; [done|]. cbn [List.filter forallb existsb].
  intros [Hc Ht]%andb_true_iff. destruct (is_cjk_blank c) eqn:Hb; cbn [negb].
  - destruct (is_cjk c) eqn:Hcjk; [by rewrite (cjk_not_blank c) in Hb|]. by apply IH.
  - simpl in Hc. rewrite Hc. done.
Qed.

Lemma match_at_ideographs s :
  existsb is_cjk_blank s = false -> s <> [] ->
  bool_decide (is_Some (match_at (Cat (Plus is_cjk) Dollar) s)) = forallb is_cjk s.
Proof.
  intros Hclean Hne. destruct (forallb is_cjk s) eqn:Hall.
  - apply bool_decide_eq_true. rewrite <- (app_nil_r s).
    apply (match_at_complete _ _ _ None). cbn [derives].
    exists s, [], None. rewrite app_nil_r. split; [done|]. split; [|done].
    by apply derives_Plus.
  - apply bool_decide_eq_false. intros [[g rest] Hm].
    apply match_at_sound in Hm as (u & -> & Hd). cbn [derives] in Hd.
    destruct Hd as (v & w & g1 & -> & Hv & -> & Hend & _).
    apply derives_Plus in Hv as (_ & Hv & _). rewrite app_nil_r in *.
    destruct rest as [|c [|c' rest]]; cbn [at_end] in Hend; [| |done].
    + rewrite app_nil_r in Hall. congruence.
    + apply N.eqb_eq in Hend as ->. rewrite existsb_app in Hclean.
      by apply orb_false_iff in Hclean as [_ ?].
Qed.

Lemma is_pure_chinese_cleaned (text : str) :
  is_pure_chinese text
  = match List.filter (fun c => negb (is_cjk_blank c)) text with
    | [] => false
    | cleaned => forallb is_cjk cleaned
    end.
Proof.
  unfold is_pure_chinese. rewrite remove_Cls.
  assert (Hclean : existsb is_cjk_blank
                     (List.filter (fun c => negb (is_cjk_blank c)) text) = false).
  { clear. induction text as [|c t IH]; [done|]. cbn [List.filter].
    destruct (is_cjk_blank c) eqn:Hb; cbn [negb existsb]; by rewrite ?Hb, IH. }
  destruct (List.filter (fun c => negb (is_cjk_blank c)) text) as [|c cleaned] eqn:Hf;
    [done|].
  by rewrite match_at_ideographs.
Qed.

Lemma pure_chinese_no_source text :
  is_pure_chinese text = true ->
  existsb is_kana text = false /\ existsb is_alpha text = false.
Proof.
  rewrite is_pure_chinese_cleaned. intros Hpure.
  assert (Hall : forallb (fun c => is_cjk_blank c || is_cjk c) text = true).
  { rewrite <- cleaned_all_cjk.
    by destruct (List.filter (fun c => negb (is_cjk_blank c)) text). }
  clear Hpure.
  induction text as [|c t IH]; [done|]. cbn [forallb existsb] in *.
  apply andb_true_iff in Hall as [Hc Ht]. destruct (IH Ht) as [-> ->].
  by rewrite (pure_chinese_no_kana c), (pure_chinese_no_alpha c).
Qed.

(** X13. [is_pure_chinese] holds exactly of the texts made of ideographs,
    blanks and full-width punctuation that hold an ideograph. *)
Theorem is_pure_chinese_characterised (text : str) :
  is_pure_chinese text
  = forallb (fun c => is_cjk_blank c || is_cjk c) text && existsb is_cjk text.
Proof.
  rewrite is_pure_chinese_cleaned.
  pose proof (cleaned_all_cjk text) as Hall.
  pose proof (cleaned_empty text) as Hempty.
  destruct (List.filter (fun c => negb (is_cjk_blank c)) text) as [|c cleaned] eqn:Hf.
  - destruct (forallb _ text); [|done]. symmetry. by apply (Hempty eq_refl).
  - rewrite Hall. destruct (forallb _ text); [|done]. cbn [andb]. symmetry.
    destruct (existsb is_cjk text) eqn:He; [done|].
    discriminate (proj2 (Hempty eq_refl) eq_refl).
Qed.

(** X14. The last test of the validity check never rejects an entry: a
    text that [is_pure_chinese] accepts holds no kana and no run of
    letters, so an entry is valid exactly when its trimmed source term
    passes the test of the source language and its trimmed translation is
    pure Chinese. *)
Theorem validity_check_reduced (source zh : str) :
  (is_pure_chinese zh = true ->
   JP.has_english_or_japanese zh = false /\ EN.has_english zh = false)
  /\ JP.valid_pair source zh = JP.is_japanese (strip source) && is_pure_chinese (strip zh)
  /\ EN.valid_pair source zh
     = negb (bool_decide (strip source = [])) && is_pure_chinese (strip zh).
Proof.
  assert (Hredundant : forall t, is_pure_chinese t = true ->
            JP.has_english_or_japanese t = false /\ EN.has_english t = false).
  { intros t [Hkana Halpha]%pure_chinese_no_source.
    assert (Hen : EN.has_english t = false).
    { unfold EN.has_english. apply found_head_class. by do 2 apply remove_existsb. }
    split; [|done]. unfold JP.has_english_or_japanese.
    rewrite found_Cls, Hkana. exact Hen. }
  split; [apply Hredundant|]. split.
  - unfold JP.valid_pair.
    destruct (strip source) as [|c s] eqn:Hs.
    { unfold JP.is_japanese. by rewrite found_Cls. }
    destruct (strip zh) as [|c' z] eqn:Hz.
    { replace (is_pure_chinese []) with false by done. by rewrite andb_false_r. }
    destruct (JP.is_japanese (c :: s)); [|done]. cbn [negb andb].
    destruct (is_pure_chinese (c' :: z)) eqn:Hp; [|done]. cbn [negb].
    by destruct (Hredundant _ Hp) as [-> _].
  - unfold EN.valid_pair.
    destruct (strip source) as [|c s] eqn:Hs; [done|].
    destruct (strip zh) as [|c' z] eqn:Hz; [done|].
    rewrite bool_decide_eq_false_2 by done. cbn [negb andb].
    destruct (is_pure_chinese (c' :: z)) eqn:Hp; [|done]. cbn [negb].
    by destruct (Hredundant _ Hp) as [_ ->].
Qed.

(** ** The lines to translate *)

Lemma StronglySorted_seq k n : StronglySorted lt (seq k n).
Proof.
  revert k. induction n as [|n IH]; intros k; cbn [seq]; constructor; [apply IH|].
  apply Forall_forall. intros j Hj. apply list_elem_of_In, in_seq in Hj. lia.
Qed.

Lemma StronglySorted_sublist {A} (R : A -> A -> Prop) (l1 l2 : list A) :
  sublist l1 l2 -> StronglySorted R l2 -> StronglySorted R l1.
Proof.
  induction 1 as [|x l1 l2 Hsub IH|x l1 l2 Hsub IH]; intros Hs; [done| |].
  - apply StronglySorted_inv in Hs as [Hs Hx]. constructor; [by apply IH|].
    rewrite Forall_forall in *. intros y Hy. apply Hx. by eapply elem_of_sublist.
  - apply StronglySorted_inv in Hs as [Hs _]. by apply IH.
Qed.

(** X15. [get_translation_lines] lists, in the order of the document and
    with their positions, exactly the lines that need translation, each
    with the identity token [extract_line_number] reads in it. *)
Theorem get_translation_lines_characterised {E : environment} (V : variant)
    (ls : list str) :
  (forall idx line num,
      (idx, line, num) ∈ get_translation_lines V ls
      <-> ls !! idx = Some line /\ needs_translation V line = true
          /\ num = extract_line_number line)
  /\ StronglySorted lt (indices (get_translation_lines V ls)).
Proof.
  split.
  - intros idx line num. unfold get_translation_lines. rewrite list_elem_of_omap. split.
    + intros ([i l] & Hin & Hf).
      apply elem_of_lookup_imap in Hin as (i' & l' & [= -> ->] & Hl).
      destruct (needs_translation V l') eqn:Hn; [|done].
      injection Hf as <- <- <-. done.
    + intros (Hl & Hn & ->). exists (idx, line). split.
      * by apply (elem_of_lookup_imap_2 pair).
      * by rewrite Hn.
  - apply (StronglySorted_sublist _ _ (seq 0 (length ls))); [|apply StronglySorted_seq].
    apply (translation_lines_indices_from V 0).
Qed.

(** ** The identity token of a line *)

Section Token.
Context {E : environment}.

Lemma int_from_nonneg ds : forall acc,
  (0 <= acc)%Z ->
  (0 <= fold_left (fun acc c => (10 * acc + Z.of_N (default 0%N (decimal c)))%Z) ds acc)%Z.
Proof.
  induction ds as [|d ds IH]; intros acc Hacc; cbn [fold_left]; [done|].
  apply IH. lia.
Qed.

Lemma int_nonneg ds : (0 <= int ds)%Z.
Proof. by apply int_from_nonneg. Qed.

Lemma extract_line_number_miss c s :
  match_at DATA_LINE_ATTR_PATTERN (c :: s) = None ->
  extract_line_number (c :: s) = extract_line_number s.
Proof. intros H. unfold extract_line_number. cbn [search]. by rewrite H. Qed.

Lemma extract_line_number_hit g s rest :
  match_at DATA_LINE_ATTR_PATTERN s = Some (g, rest) ->
  extract_line_number s = int (default [] g).
Proof.
  intros H. unfold extract_line_number. destruct s; cbn [search]; by rewrite H.
Qed.

Lemma search_Some r s m :
  search r s = Some m ->
  exists pre post rest, s = pre ++ post /\ match_at r post = Some (hit_group m, rest).
Proof.
  induction s as [|c s IH]; cbn [search].
  - destruct (match_at r []) as [[g rest]|] eqn:Hm; [|done].
    intros [= <-]. by exists [], [], rest.
  - destruct (match_at r (c :: s)) as [[g rest]|] eqn:Hm.
    + intros [= <-]. by exists [], (c :: s), rest.
    + intros (pre & post & rest & -> & Hpost)%IH. by exists (c :: pre), post, rest.
Qed.

Lemma extract_line_number_raises_hit g s rest :
  match_at DATA_LINE_ATTR_PATTERN s = Some (g, rest) ->
  extract_line_number_raises s = int_raises (default [] g).
Proof.
  intros H. unfold extract_line_number_raises. destruct s; cbn [search]; by rewrite H.
Qed.

(** X16. [extract_line_number] returns the sentinel -1, and does not
    raise, for the lines in which the attribute pattern finds nothing.  In
    the others the first attribute found has a token of one decimal digit
    or more; the call raises ValueError exactly when the token has more
    than 4300 digits, and returns the number of the token, which is not
    negative, otherwise.  A line that begins with the canonical attribute
    of a token raises exactly when the token has more than 4300 digits. *)
Theorem extract_line_number_sentinel (line : str) :
  (found DATA_LINE_ATTR_PATTERN line = false ->
   extract_line_number_raises line = false /\ extract_line_number line = (-1)%Z)
  /\ (found DATA_LINE_ATTR_PATTERN line = true ->
      exists digits,
        hit_group <$> search DATA_LINE_ATTR_PATTERN line = Some (Some digits)
        /\ digits <> [] /\ forallb isdecimal digits = true
        /\ extract_line_number_raises line = (INT_MAX_STR_DIGITS <? length digits)%nat
        /\ (extract_line_number_raises line = false ->
            extract_line_number line = int digits /\ (0 <= extract_line_number line)%Z))
  /\ (digits_well_formed ->
      forall digits rest,
        digits <> [] -> forallb isdecimal digits = true ->
        extract_line_number_raises (canonical digits ++ rest)
        = (INT_MAX_STR_DIGITS <? length digits)%nat).
Proof.
  split; [|split].
  - unfold extract_line_number, extract_line_number_raises, found.
    destruct (search DATA_LINE_ATTR_PATTERN line) as [m|]; [|done].
    intros H. apply bool_decide_eq_false in H. by destruct H.
  - unfold extract_line_number, extract_line_number_raises, found.
    destruct (search DATA_LINE_ATTR_PATTERN line) as [m|] eqn:Hsearch;
      [|by intros ?%bool_decide_eq_true%is_Some_None].
    intros _. destruct (search_Some _ _ _ Hsearch) as (pre & post & rest & _ & Hm).
    apply match_at_sound in Hm as (u & _ & Hd).
    apply derives_DATA_LINE in Hd
      as (ds & (h & w1 & w2 & oq & cq & _ & _ & _ & _ & _ & Hne & Hds & _) & Hg).
    exists ds. unfold group. rewrite Hg. cbn [fmap option_fmap option_map default id].
    split; [by rewrite Hg|]. split; [done|]. split; [done|]. split; [done|].
    intros _. split; [done|apply int_nonneg].
  - intros Hwf digits rest Hne Hds.
    by rewrite (extract_line_number_raises_hit (Some digits) _ rest)
      by by apply match_at_canonical.
Qed.

(** X17. Normalizing a text does not change the identity token read in
    it. *)
Theorem normalize_keeps_line_number (text : str) :
  digits_well_formed ->
  extract_line_number (normalize_data_line_attribute text) = extract_line_number text.
Proof.
  intros Hwf. pattern text. apply (scan_ind DATA_LINE_ATTR_PATTERN); clear text.
  - apply never_empty_DATA_LINE.
  - by rewrite normalize_nil.
  - intros c s Hm IH. rewrite normalize_miss by done.
    rewrite !extract_line_number_miss; [done|done|by apply match_at_normalized_tail].
  - intros g c u rest Hm _.
    change (c :: u ++ rest) with ((c :: u) ++ rest) in *.
    rewrite (normalize_hit g) by done.
    rewrite (extract_line_number_hit g _ rest Hm).
    apply match_at_sound in Hm as (u' & Hu' & Hd).
    apply derives_DATA_LINE in Hd
      as (ds & (h & w1 & w2 & oq & cq & _ & _ & _ & _ & _ & Hne & Hds & _) & ->).
    cbn [default].
    by rewrite (extract_line_number_hit (Some ds) _ (normalize_data_line_attribute rest))
      by by apply match_at_canonical.
Qed.

Lemma extract_line_number_raises_miss c s :
  match_at DATA_LINE_ATTR_PATTERN (c :: s) = None ->
  extract_line_number_raises (c :: s) = extract_line_number_raises s.
Proof. intros H. unfold extract_line_number_raises. cbn [search]. by rewrite H. Qed.

(** X24. Normalizing a text does not change whether reading its identity
    token raises: the digits of the token are kept as they are. *)
Theorem normalize_keeps_raising (text : str) :
  digits_well_formed ->
  extract_line_number_raises (normalize_data_line_attribute text)
  = extract_line_number_raises text.
Proof.
  intros Hwf. pattern text. apply (scan_ind DATA_LINE_ATTR_PATTERN); clear text.
  - apply never_empty_DATA_LINE.
  - by rewrite normalize_nil.
  - intros c s Hm IH. rewrite normalize_miss by done.
    rewrite !extract_line_number_raises_miss; [done|done|by apply match_at_normalized_tail].
  - intros g c u rest Hm _.
    change (c :: u ++ rest) with ((c :: u) ++ rest) in *.
    rewrite (normalize_hit g) by done.
    rewrite (extract_line_number_raises_hit g _ rest Hm).
    apply match_at_sound in Hm as (u' & Hu' & Hd).
    apply derives_DATA_LINE in Hd
      as (ds & (h & w1 & w2 & oq & cq & _ & _ & _ & _ & _ & Hne & Hds & _) & ->).
    cbn [default].
    by rewrite (extract_line_number_raises_hit (Some ds) _
                  (normalize_data_line_attribute rest))
      by by apply match_at_canonical.
Qed.

End Token.

(** An attribute written with escaped quotes and blanks: the token read
    is 42 before and after normalization. *)
Lemma normalize_keeps_line_number_witness :
  @digits_well_formed echo_environment
  /\ @extract_line_number echo_environment
       (@normalize_data_line_attribute echo_environment
          (py "<p DATA-LINE = \'42\'>text</p>")) = 42%Z
  /\ @extract_line_number echo_environment (py "<p DATA-LINE = \'42\'>text</p>") = 42%Z.
Proof.
  split; [exact ascii_digits_well_formed|].
  rewrite (@normalize_keeps_line_number echo_environment _ ascii_digits_well_formed).
  split; by vm_compute.
Defined.

(** A token of 4301 digits in single quotes: reading it raises before
    and after normalization. *)
Lemma normalize_keeps_raising_witness :
  @digits_well_formed echo_environment
  /\ @extract_line_number_raises echo_environment
       (@normalize_data_line_attribute echo_environment
          (py "<p DATA-LINE='" ++ repeat 0x31 4301 ++ py "'>text</p>")) = true
  /\ @extract_line_number_raises echo_environment
       (py "<p DATA-LINE='" ++ repeat 0x31 4301 ++ py "'>text</p>") = true.
Proof.
  split; [exact ascii_digits_well_formed|].
  rewrite (@normalize_keeps_raising echo_environment _ ascii_digits_well_formed).
  split; by vm_compute.
Defined.

(** ** Numbering the lines of a text *)

Section Numbering.
Context {E : environment}.
Hypothesis Hwf : digits_well_formed.
Hypothesis Hread : ascii_digits_read.

Lemma int_uint_codes d : forall acc,
  fold_left (fun acc c => (10 * acc + Z.of_N (default 0%N (decimal c)))%Z)
    (uint_codes d) (Z.of_nat acc)
  = Z.of_nat (Nat.of_uint_acc d acc).
Proof.
  induction d as [|d IH|d IH|d IH|d IH|d IH|d IH|d IH|d IH|d IH|d IH]; intros acc;
    cbn [uint_codes fold_left Nat.of_uint_acc]; [done|..];
    rewrite Hread by done; cbn [default]; rewrite <- IH; f_equal;
    rewrite Nat.tail_mul_spec; vm_compute (Z.of_N _); lia.
Qed.

Lemma int_str_of_nat n : int (str_of_nat n) = Z.of_nat n.
Proof.
  unfold int, str_of_nat. rewrite (int_uint_codes _ 0).
  f_equal. apply DecimalNat.Unsigned.of_to.
Qed.

Lemma uint_codes_decimal d : forallb isdecimal (uint_codes d) = true.
Proof.
  induction d; cbn [uint_codes forallb]; [done|..];
    rewrite IHd, andb_true_r; apply bool_decide_eq_true; by rewrite Hread.
Qed.

Lemma str_of_nat_not_nil n : str_of_nat n <> [].
Proof.
  unfold str_of_nat. intros H.
  assert (Hnil : Nat.to_uint n = Decimal.Nil) by by destruct (Nat.to_uint n).
  pose proof (DecimalNat.Unsigned.to_of (Nat.to_uint n)) as Hnorm.
  rewrite DecimalNat.Unsigned.of_to, Hnil in Hnorm. discriminate Hnorm.
Qed.

Lemma extract_formatted_line n text :
  extract_line_number (formatted_line n text) = Z.of_nat n.
Proof.
  unfold formatted_line.
  replace (py "<p data-line=" ++ [QUOTE] ++ str_of_nat n ++ [QUOTE] ++ py ">"
           ++ text ++ py "</p>" ++ [LF])
    with (0x3C :: 0x70 :: 0x20 :: canonical (str_of_nat n)
          ++ (py ">" ++ text ++ py "</p>" ++ [LF]))
    by (unfold canonical; by repeat (rewrite <- ?app_assoc; cbn [app])).
  assert (Hmiss : forall c s, d_like c = false ->
            match_at DATA_LINE_ATTR_PATTERN (c :: s) = None).
  { intros c s Hc. destruct (match_at _ (c :: s)) as [[g rest]|] eqn:Hm; [|done].
    apply match_at_DATA_LINE_head in Hm. congruence. }
  rewrite !extract_line_number_miss by by apply Hmiss.
  rewrite (extract_line_number_hit (Some (str_of_nat n)) _
             (py ">" ++ text ++ py "</p>" ++ [LF])).
  - apply int_str_of_nat.
  - apply match_at_canonical; [done|apply str_of_nat_not_nil|apply uint_codes_decimal].
Qed.

Lemma extract_numbered (l : list str) : forall k,
  List.map extract_line_number (imap (fun i s => formatted_line (k + i) s) l)
  = List.map Z.of_nat (seq k (length l)).
Proof.
  induction l as [|s l IH]; intros k; [done|].
  rewrite imap_cons. cbn [List.map length seq].
  rewrite Nat.add_0_r, extract_formatted_line. f_equal.
  rewrite <- IH. f_equal. apply imap_ext. intros i x _. simpl. f_equal. lia.
Qed.

End Numbering.

Lemma number_fold (lines : list str) : forall processed n,
  foldl number_step (processed, n) lines
  = (processed ++ imap (fun i s => formatted_line (n + i) s) (nonblank_lines lines),
     (n + length (nonblank_lines lines))%nat).
Proof.
  unfold nonblank_lines.
  induction lines as [|line lines IH]; intros processed n; cbn [foldl List.map List.filter].
  - cbn. by rewrite app_nil_r, Nat.add_0_r.
  - unfold number_step at 2. destruct (strip line) as [|c s] eqn:Hs.
    + rewrite bool_decide_eq_true_2 by done. cbn [negb]. apply IH.
    + rewrite bool_decide_eq_false_2 by done. cbn [negb]. rewrite IH.
      rewrite imap_cons, <- app_assoc. cbn [app length]. rewrite Nat.add_0_r.
      f_equal; [|lia]. f_equal. f_equal. apply imap_ext. intros i x _. simpl.
      f_equal. lia.
Qed.

(** X18. [process_txt_file] writes one line for each line of the text
    that is not blank, in order, holding the trimmed text; the identity
    tokens that [extract_line_number] reads in the lines written are 1, 2,
    3 and so on without gap. *)
Theorem processed_lines_numbered {E : environment} (lines : list str) :
  digits_well_formed -> ascii_digits_read ->
  processed_lines lines
  = imap (fun i s => formatted_line (S i) s) (nonblank_lines lines)
  /\ List.map extract_line_number (processed_lines lines)
     = List.map Z.of_nat (seq 1 (length (nonblank_lines lines))).
Proof.
  intros Hwf Hread.
  assert (Heq : processed_lines lines
                = imap (fun i s => formatted_line (1 + i) s) (nonblank_lines lines)).
  { unfold processed_lines. by rewrite number_fold. }
  split; [exact Heq|]. rewrite Heq. by apply extract_numbered.
Qed.

Lemma ascii_digits_are_read : @ascii_digits_read echo_environment.
Proof. intros c Hc. simpl. unfold ascii_decimal. by rewrite Hc. Qed.

(** A text of three lines, the second blank: two lines are written, with
    the tokens 1 and 2. *)
Lemma processed_lines_numbered_witness :
  @digits_well_formed echo_environment /\ @ascii_digits_read echo_environment
  /\ processed_lines [py " one " ++ [LF]; [LF]; py "two" ++ [LF]]
     = [ py "<p data-line=" ++ [QUOTE] ++ py "1" ++ [QUOTE] ++ py ">one</p>" ++ [LF];
         py "<p data-line=" ++ [QUOTE] ++ py "2" ++ [QUOTE] ++ py ">two</p>" ++ [LF] ]
  /\ List.map (@extract_line_number echo_environment)
       (processed_lines [py " one " ++ [LF]; [LF]; py "two" ++ [LF]])
     = [1%Z; 2%Z].
Proof.
  destruct (@processed_lines_numbered echo_environment
              [py " one " ++ [LF]; [LF]; py "two" ++ [LF]]
              ascii_digits_well_formed ascii_digits_are_read) as [Heq Htokens].
  split; [exact ascii_digits_well_formed|]. split; [exact ascii_digits_are_read|].
  split; [rewrite Heq; by vm_compute|]. rewrite Htokens. by vm_compute.
Defined.

(** ** The file of numbered lines, read again *)

Lemma forallb_dropwhile (q p : N -> bool) s :
  forallb q s = true -> forallb q (dropwhile p s) = true.
Proof.
  induction s as [|c s IH]; [done|]. cbn [forallb dropwhile].
  intros [Hc Hs]%andb_true_iff. destruct (p c); [by apply IH|].
  cbn [forallb]. by rewrite Hc, Hs.
Qed.

Lemma forallb_rev (q : N -> bool) s : forallb q (rev s) = forallb q s.
Proof.
  induction s as [|c s IH]; [done|]. cbn [rev forallb].
  rewrite forallb_app, IH. cbn [forallb]. rewrite andb_true_r. apply andb_comm.
Qed.

Lemma unbroken_lstrip s : unbroken s = true -> unbroken (lstrip s) = true.
Proof. apply forallb_dropwhile. Qed.

Lemma unbroken_rstrip s : unbroken s = true -> unbroken (rstrip s) = true.
Proof.
  intros Hs. unfold rstrip, unbroken. rewrite forallb_rev.
  apply forallb_dropwhile. by rewrite forallb_rev.
Qed.

Lemma rstrip_LF s : rstrip (s ++ [LF]) = rstrip s.
Proof. unfold rstrip. by rewrite rev_app_distr. Qed.

Lemma lstrip_LF body :
  unbroken body = true ->
  lstrip (body ++ [LF]) = [] \/ exists m, lstrip (body ++ [LF]) = m ++ [LF] /\ unbroken m = true.
Proof.
  unfold lstrip. induction body as [|c body IH]; [by left|].
  cbn [unbroken forallb app dropwhile]. intros [Hc Hb]%andb_true_iff.
  destruct (isspace c); [by apply IH|].
  right. exists (c :: body). split; [done|]. cbn [unbroken forallb]. by rewrite Hc.
Qed.

(** A line of a file, trimmed, holds no line break. *)
Lemma unbroken_strip l :
  line_shaped l \/ last_line_shaped l -> unbroken (strip l) = true.
Proof.
  unfold strip. intros [(body & -> & Hb)|[_ Hb]].
  - destruct (lstrip_LF body Hb) as [->|(m & -> & Hm)]; [done|].
    rewrite rstrip_LF. by apply unbroken_rstrip.
  - by apply unbroken_rstrip, unbroken_lstrip.
Qed.

Lemma readlines_from_shaped s : forall current,
  unbroken current = true ->
  Forall (fun l => line_shaped l \/ last_line_shaped l) (readlines_from current s).
Proof.
  assert (Hline : forall current, unbroken current = true ->
            line_shaped (rev (LF :: current))).
  { intros current Hc. exists (rev current). split; [done|].
    fold (unbroken (rev current)). unfold unbroken. by rewrite forallb_rev. }
  induction s as [|c s IH]; intros current Hc; cbn [readlines_from].
  - destruct current as [|a current]; [constructor|].
    constructor; [|constructor]. right. split.
    + simpl. by destruct (rev current).
    + fold (unbroken (rev (a :: current))). unfold unbroken. by rewrite forallb_rev.
  - destruct (c =? LF) eqn:Hlf.
    { constructor; [left; by apply Hline|by apply IH]. }
    destruct (c =? CR) eqn:Hcr.
    { destruct s as [|c' s].
      - constructor; [left; by apply Hline|constructor].
      - destruct (c' =? LF) eqn:Hlf'.
        + constructor; [left; by apply Hline|].
          specialize (IH [] eq_refl). cbn [readlines_from] in IH. rewrite Hlf' in IH.
          by apply Forall_cons in IH as [_ ?].
        + constructor; [left; by apply Hline|by apply IH]. }
    apply IH. cbn [unbroken forallb]. unfold is_break. by rewrite Hlf, Hcr.
Qed.

Lemma uint_codes_unbroken d : unbroken (uint_codes d) = true.
Proof. induction d; cbn [uint_codes unbroken forallb]; try done; by rewrite IHd. Qed.

Lemma formatted_line_shaped n text :
  unbroken text = true -> line_shaped (formatted_line n text).
Proof.
  intros Ht. unfold formatted_line.
  exists (py "<p data-line=" ++ [QUOTE] ++ str_of_nat n ++ [QUOTE] ++ py ">"
          ++ text ++ py "</p>").
  split; [by repeat (rewrite <- ?app_assoc; cbn [app])|].
  fold (unbroken (py "<p data-line=" ++ [QUOTE] ++ str_of_nat n ++ [QUOTE] ++ py ">"
                  ++ text ++ py "</p>")).
  rewrite !unbroken_app, Ht. unfold str_of_nat. by rewrite uint_codes_unbroken.
Qed.

Lemma lines_shaped_Forall ls : Forall line_shaped ls -> lines_shaped ls.
Proof.
  induction 1 as [|l ls Hl _ IH]; [done|]. destruct ls; [by left|by split].
Qed.

Lemma imap_Forall {A B} (P : B -> Prop) (f : nat -> A -> B) (l : list A) :
  (forall i x, x ∈ l -> P (f i x)) -> Forall P (imap f l).
Proof.
  revert f. induction l as [|x l IH]; intros f Hf; [constructor|].
  rewrite imap_cons. constructor.
  - apply Hf, elem_of_cons. by left.
  - apply IH. intros i y Hy. apply Hf, elem_of_cons. by right.
Qed.

Lemma processed_lines_imap lines :
  processed_lines lines
  = imap (fun i s => formatted_line (1 + i) s) (nonblank_lines lines).
Proof. unfold processed_lines. by rewrite number_fold. Qed.

Lemma nonblank_lines_unbroken content :
  Forall (fun t => unbroken t = true) (nonblank_lines (readlines content)).
Proof.
  apply Forall_forall. intros x Hx.
  unfold nonblank_lines in Hx. apply elem_of_list_filter_bool in Hx as [Hx _].
  apply elem_of_list_map in Hx as (l & -> & Hl). apply unbroken_strip.
  pose proof (readlines_from_shaped content [] eq_refl) as Hshaped.
  rewrite Forall_forall in Hshaped. by apply Hshaped.
Qed.

Lemma readlines_processed content :
  readlines (writelines (processed_lines (readlines content)))
  = processed_lines (readlines content).
Proof.
  apply readlines_writelines. rewrite processed_lines_imap.
  apply lines_shaped_Forall, imap_Forall. intros i x Hx. apply formatted_line_shaped.
  pose proof (nonblank_lines_unbroken content) as Hall.
  rewrite Forall_forall in Hall. by apply Hall.
Qed.

(** X19. The file [process_txt_file] writes, read line by line, gives
    back the lines it numbered: each of them is one line of the file, and
    a file that cannot be read gives no file and the flag False. *)
Theorem process_txt_file_round_trip (content : str) :
  process_txt_file None = (false, None)
  /\ exists written,
       process_txt_file (Some content) = (true, Some written)
       /\ readlines written = processed_lines (readlines content)
       /\ length (readlines written) = length (nonblank_lines (readlines content)).
Proof.
  split; [done|]. eexists. split; [reflexivity|].
  rewrite readlines_processed. split; [done|].
  by rewrite processed_lines_imap, length_imap.
Qed.

(** ** Cleaning the sound dictionary *)

Lemma filter_idempotent {A} (q : A -> bool) (l : list A) :
  List.filter q (List.filter q l) = List.filter q l.
Proof.
  induction l as [|x l IH]; [done|]. cbn [List.filter].
  destruct (q x) eqn:Hq; [|done]. cbn [List.filter]. by rewrite Hq, IH.
Qed.

(** X20. [clean_sound_dictionary] removes exactly the entries whose
    [sound_jp] and [sound_zh] are the same, among them the entries that
    have neither key, keeps the others in order, leaves the file alone
    when there is nothing to remove, and removes nothing from a file it
    has cleaned. *)
Theorem clean_sound_dictionary_removes_equal_pairs (data : list entry) :
  let removed := fst (clean_sound_dictionary data) in
  let written := snd (clean_sound_dictionary data) in
  let kept := List.filter (fun e => negb (same_sound e)) data in
  removed = length (List.filter same_sound data)
  /\ (removed + length kept = length data)%nat
  /\ (written = None <-> kept = data)
  /\ (written <> None -> written = Some kept)
  /\ clean_sound_dictionary kept = (O, None)
  /\ (forall e, e !! KEY_SOUND_JP = None -> e !! KEY_SOUND_ZH = None -> e ∉ kept).
Proof.
  intros removed written kept. subst removed written. unfold clean_sound_dictionary.
  cbn [fst snd]. fold kept.
  pose proof (List.filter_length same_sound data) as Hlen. fold kept in Hlen.
  assert (Hsame : length kept = length data -> kept = data).
  { unfold kept. clear. induction data as [|e data IH]; [done|]. cbn [List.filter].
    destruct (same_sound e); cbn [negb length].
    - intros H. pose proof (sublist_length _ _ (filter_sublist (fun e => negb (same_sound e)) data)).
      lia.
    - intros [= H]. by rewrite IH. }
  split; [lia|]. split; [lia|]. split; [|split; [|split]].
  - destruct (0 <? length data - length kept)%nat eqn:Hr.
    + apply Nat.ltb_lt in Hr. split; [done|]. intros Heq. rewrite Heq in Hr. lia.
    + apply Nat.ltb_ge in Hr. split; [|done]. intros _. apply Hsame. lia.
  - by destruct (0 <? length data - length kept)%nat.
  - unfold kept. rewrite filter_idempotent, Nat.sub_diag. done.
  - intros e Hj Hz [_ He]%elem_of_list_filter_bool.
    unfold same_sound in He. by rewrite Hj, Hz, bool_decide_eq_true_2 in He.
Qed.

(** ** Removing the tags *)

Lemma match_at_TAG s :
  is_Some (match_at TAG_PATTERN s)
  <-> exists u rest, s = 0x3C :: u ++ 0x3E :: rest /\ u <> [] /\ forallb not_gt u = true.
Proof.
  split.
  - intros [[g rest] Hm]. apply match_at_sound in Hm as (u & -> & Hd).
    unfold TAG_PATTERN, Chr in Hd. cbn [derives] in Hd.
    destruct Hd as (v & w & g1 & -> & [(c & -> & Hc) _] & v' & w' & g2 & -> & Hplus
                    & [(c' & -> & Hc') _]).
    fold (Plus not_gt) in Hplus. apply derives_Plus in Hplus as (Hne & Hv' & _).
    apply N.eqb_eq in Hc as <-, Hc' as <-.
    exists v', rest. split; [|done]. by rewrite <- !app_assoc.
  - intros (u & rest & -> & Hne & Hu).
    replace (0x3C :: u ++ 0x3E :: rest) with (([0x3C] ++ u ++ [0x3E]) ++ rest)
      by by rewrite <- !app_assoc.
    apply (match_at_complete _ _ _ None). unfold TAG_PATTERN, Chr. cbn [derives].
    exists [0x3C], (u ++ [0x3E]), None. split; [done|].
    split; [split; [by exists 0x3C|done]|].
    exists u, [0x3E], None. split; [done|]. split; [by apply derives_Plus|].
    split; [by exists 0x3E|done].
Qed.

Lemma never_empty_TAG : never_empty TAG_PATTERN.
Proof.
  intros s g rest H.
  assert (Hsome : is_Some (match_at TAG_PATTERN s)) by eauto.
  apply match_at_sound in H as (u & -> & Hd).
  unfold TAG_PATTERN, Chr in Hd. cbn [derives] in Hd.
  destruct Hd as (v & w & g1 & -> & [(c & -> & Hc) _] & _).
  rewrite !length_app. simpl. lia.
Qed.

Lemma first_closing s :
  existsb (N.eqb 0x3E) s = true ->
  exists u rest, s = u ++ 0x3E :: rest /\ forallb not_gt u = true.
Proof.
  induction s as [|c s IH]; [done|]. cbn [existsb].
  destruct (0x3E =? c) eqn:Hc.
  - intros _. apply N.eqb_eq in Hc as <-. by exists [], s.
  - intros Hs. destruct (IH Hs) as (u & rest & -> & Hu).
    exists (c :: u), rest. split; [done|]. cbn [forallb]. unfold not_gt at 1.
    rewrite N.eqb_sym, Hc. done.
Qed.

Lemma match_at_TAG_None s :
  match_at TAG_PATTERN (0x3C :: s) = None ->
  s = [] \/ (exists s', s = 0x3E :: s') \/ existsb (N.eqb 0x3E) s = false.
Proof.
  intros Hnone. destruct s as [|c s]; [by left|]. right.
  destruct (0x3E =? c) eqn:Hc; [left; apply N.eqb_eq in Hc as <-; by eexists|].
  right. destruct (existsb (N.eqb 0x3E) (c :: s)) eqn:He; [|done]. exfalso.
  apply first_closing in He as (u & rest & Heq & Hu).
  assert (Hsome : is_Some (match_at TAG_PATTERN (0x3C :: c :: s))).
  { apply match_at_TAG. exists u, rest. rewrite Heq. split; [done|]. split; [|done].
    intros ->. simpl in Heq. injection Heq as -> _. by rewrite N.eqb_refl in Hc. }
  rewrite Hnone in Hsome. by destruct Hsome.
Qed.

Lemma found_false r s :
  found r s = false <-> forall pre post, s = pre ++ post -> match_at r post = None.
Proof.
  unfold found. rewrite bool_decide_eq_false, search_is_Some. split.
  - intros Hno pre post Heq. destruct (match_at r post) eqn:Hm; [|done].
    exfalso. apply Hno. exists pre, post. by rewrite Hm.
  - intros Hall (pre & post & Heq & Hsome). rewrite (Hall pre post Heq) in Hsome.
    by destruct Hsome.
Qed.

Lemma found_TAG_false t : found TAG_PATTERN t = false <-> brackets_open t.
Proof.
  rewrite found_false. split.
  - intros Hall pre post Heq. by apply match_at_TAG_None, (Hall pre).
  - intros Hopen pre post Heq.
    destruct (match_at TAG_PATTERN post) as [x|] eqn:Hm; [|done]. exfalso.
    assert (Hsome : is_Some (match_at TAG_PATTERN post)) by eauto.
    apply match_at_TAG in Hsome as (u & rest & -> & Hne & Hu).
    destruct (Hopen pre (u ++ 0x3E :: rest) Heq) as [H|[[post' H]|H]].
    + by destruct u.
    + destruct u as [|c u]; [done|]. simpl in H, Hu. injection H as -> _.
      by rewrite andb_false_l in Hu.
    + rewrite existsb_app in H. cbn [existsb] in H. rewrite N.eqb_refl in H.
      by rewrite orb_true_r in H.
Qed.

Lemma remove_TAG_found s : found TAG_PATTERN (remove TAG_PATTERN s) = false.
Proof.
  unfold remove. pattern s. apply (scan_ind TAG_PATTERN); clear s.
  - apply never_empty_TAG.
  - by rewrite sub_nil by apply never_empty_TAG.
  - intros c s Hm IH. rewrite sub_miss by done. rewrite found_cons, IH.
    destruct (match_at TAG_PATTERN (c :: sub TAG_PATTERN (fun _ => []) s)) eqn:Hm'; [|done].
    exfalso.
    assert (Hsome : is_Some (match_at TAG_PATTERN (c :: sub TAG_PATTERN (fun _ => []) s)))
      by eauto.
    apply match_at_TAG in Hsome as (u & rest & Heq & Hne & Hu).
    injection Heq as -> Heq.
    destruct (match_at_TAG_None s Hm) as [->|[[s' ->]|Hs]].
    + rewrite sub_nil in Heq by apply never_empty_TAG. by destruct u.
    + rewrite sub_miss in Heq by done.
      destruct u as [|c u]; [done|]. simpl in Heq, Hu. injection Heq as <- _.
      by rewrite andb_false_l in Hu.
    + apply (remove_existsb _ TAG_PATTERN) in Hs. unfold remove in Hs.
      rewrite Heq, existsb_app in Hs. cbn [existsb] in Hs.
      rewrite N.eqb_refl in Hs. by rewrite orb_true_r in Hs.
  - intros g c u rest Hm IH. by rewrite (sub_hit _ _ g).
Qed.

Lemma filter_split {A} (q : A -> bool) (l : list A) : forall a x b,
  List.filter q l = a ++ x :: b ->
  exists a' b', l = a' ++ x :: b' /\ List.filter q a' = a /\ List.filter q b' = b.
Proof.
  induction l as [|y l IH]; intros a x b Heq; [by destruct a|].
  cbn [List.filter] in Heq. destruct (q y) eqn:Hq.
  - destruct a as [|y' a]; simpl in Heq; injection Heq as -> Heq.
    + exists [], l. by repeat split.
    + destruct (IH _ _ _ Heq) as (a' & b' & -> & <- & <-).
      exists (y' :: a'), b'. split; [done|]. split; [|done]. cbn [List.filter]. by rewrite Hq.
  - destruct (IH _ _ _ Heq) as (a' & b' & -> & <- & <-).
    exists (y :: a'), b'. split; [done|]. split; [|done]. cbn [List.filter]. by rewrite Hq.
Qed.

Lemma existsb_filter {A} (p q : A -> bool) (l : list A) :
  existsb p l = false -> existsb p (List.filter q l) = false.
Proof.
  induction l as [|x l IH]; [done|]. cbn [existsb List.filter].
  intros [Hx Hl]%orb_false_iff. destruct (q x); cbn [existsb]; by rewrite ?Hx, IH.
Qed.

Lemma brackets_open_filter (q : N -> bool) t :
  q 0x3E = true -> brackets_open t -> brackets_open (List.filter q t).
Proof.
  intros Hq Hopen pre post Heq.
  apply filter_split in Heq as (a' & b' & -> & _ & <-).
  destruct (Hopen a' b' eq_refl) as [->|[[post' ->]|H]].
  - by left.
  - right. left. cbn [List.filter]. rewrite Hq. by eexists.
  - right. right. by apply existsb_filter.
Qed.

Lemma dropwhile_suffix (p : N -> bool) s : exists pre, s = pre ++ dropwhile p s.
Proof.
  induction s as [|c s [pre IH]]; [by exists []|]. cbn [dropwhile].
  destruct (p c); [|by exists []]. exists (c :: pre). simpl. by rewrite <- IH.
Qed.

Lemma strip_decompose t : exists a b, t = a ++ strip t ++ b.
Proof.
  unfold strip, rstrip, lstrip.
  destruct (dropwhile_suffix isspace t) as [a Ha].
  destruct (dropwhile_suffix isspace (rev (dropwhile isspace t))) as [b Hb].
  exists a, (rev b). rewrite <- rev_app_distr, <- Hb, rev_involutive. exact Ha.
Qed.

Lemma brackets_open_strip t : brackets_open t -> brackets_open (strip t).
Proof.
  intros Hopen pre post Heq. destruct (strip_decompose t) as (a & b & Ht).
  rewrite Heq in Ht.
  destruct post as [|c post]; [by left|]. right.
  destruct (Hopen (a ++ pre) ((c :: post) ++ b)) as [H|[[post' H]|H]].
  - rewrite Ht. by repeat (rewrite <- ?app_assoc; cbn [app]).
  - done.
  - left. simpl in H. injection H as -> _. by eexists.
  - right. rewrite existsb_app in H. by apply orb_false_iff in H as [? _].
Qed.

Lemma dropwhile_snoc_keep (p : N -> bool) l c :
  p c = false -> dropwhile p (l ++ [c]) = dropwhile p l ++ [c].
Proof.
  intros Hc. induction l as [|x l IH]; cbn [app dropwhile]; [by rewrite Hc|].
  by destruct (p x).
Qed.

Lemma dropwhile_idempotent (p : N -> bool) s :
  dropwhile p (dropwhile p s) = dropwhile p s.
Proof.
  induction s as [|c s IH]; [done|]. cbn [dropwhile].
  destruct (p c) eqn:Hc; [done|]. cbn [dropwhile]. by rewrite Hc.
Qed.

Lemma rstrip_idempotent s : rstrip (rstrip s) = rstrip s.
Proof. unfold rstrip. by rewrite rev_involutive, dropwhile_idempotent. Qed.

Lemma rstrip_cons c s : isspace c = false -> rstrip (c :: s) = c :: rstrip s.
Proof.
  intros Hc. unfold rstrip. cbn [rev]. rewrite dropwhile_snoc_keep by done.
  by rewrite rev_app_distr.
Qed.

Lemma strip_idempotent t : strip (strip t) = strip t.
Proof.
  unfold strip at 2 3. unfold lstrip.
  induction t as [|c t IH]; [done|]. cbn [dropwhile].
  destruct (isspace c) eqn:Hc; [done|].
  rewrite rstrip_cons by done. unfold strip, lstrip. cbn [dropwhile]. rewrite Hc.
  by rewrite rstrip_cons, rstrip_idempotent.
Qed.

Lemma sub_nothing r f s : found r s = false -> sub r f s = s.
Proof.
  intros Hfound. rewrite found_false in Hfound.
  assert (Hall : forall post, (exists pre, s = pre ++ post) -> sub r f post = post).
  { induction post as [|c post IH]; intros [pre Heq].
    - unfold sub. rewrite scan_nil; [done|]. by apply (Hfound pre).
    - rewrite sub_miss by by apply (Hfound pre). f_equal. apply IH.
      exists (pre ++ [c]). by rewrite <- app_assoc. }
  apply Hall. by exists [].
Qed.

Lemma filter_nothing {A} (q : A -> bool) (l : list A) :
  forallb q l = true -> List.filter q l = l.
Proof.
  induction l as [|x l IH]; [done|]. cbn [forallb List.filter].
  intros [-> Hl]%andb_true_iff. by rewrite IH.
Qed.

Lemma forallb_filter_self {A} (q : A -> bool) (l : list A) :
  forallb q (List.filter q l) = true.
Proof.
  induction l as [|x l IH]; [done|]. cbn [List.filter].
  destruct (q x) eqn:Hq; [|done]. cbn [forallb]. by rewrite Hq.
Qed.

Lemma forallb_filter_keep {A} (p q : A -> bool) (l : list A) :
  forallb p l = true -> forallb p (List.filter q l) = true.
Proof.
  induction l as [|x l IH]; [done|]. cbn [forallb List.filter].
  intros [Hx Hl]%andb_true_iff. destruct (q x); cbn [forallb]; by rewrite ?Hx, IH.
Qed.

Lemma forallb_strip (q : N -> bool) s : forallb q s = true -> forallb q (strip s) = true.
Proof.
  intros Hs. unfold strip, rstrip, lstrip. rewrite forallb_rev.
  apply forallb_dropwhile. rewrite forallb_rev. by apply forallb_dropwhile.
Qed.

(** X21. What [remove_html_tags] returns holds no line break, has no
    blank at either end, and holds no tag any more: the pattern of tags
    finds nothing in it, and removing the tags a second time changes
    nothing. *)
Theorem remove_html_tags_clean (text : str) :
  unbroken (remove_html_tags text) = true
  /\ strip (remove_html_tags text) = remove_html_tags text
  /\ found TAG_PATTERN (remove_html_tags text) = false
  /\ remove_html_tags (remove_html_tags text) = remove_html_tags text.
Proof.
  assert (Hlf : forallb (fun c => negb (c =? LF)) (remove_html_tags text) = true).
  { unfold remove_html_tags. apply forallb_strip, forallb_filter_keep, forallb_filter_self. }
  assert (Hcr : forallb (fun c => negb (c =? CR)) (remove_html_tags text) = true).
  { unfold remove_html_tags. apply forallb_strip, forallb_filter_self. }
  assert (Hstrip : strip (remove_html_tags text) = remove_html_tags text).
  { unfold remove_html_tags. apply strip_idempotent. }
  assert (Hfound : found TAG_PATTERN (remove_html_tags text) = false).
  { apply found_TAG_false. unfold remove_html_tags.
    apply brackets_open_strip. do 2 (apply brackets_open_filter; [done|]).
    apply found_TAG_false, remove_TAG_found. }
  split; [|split; [done|split; [done|]]].
  - unfold unbroken, is_break.
    rewrite forallb_forall in *. intros c Hc.
    specialize (Hlf c Hc). specialize (Hcr c Hc).
    apply negb_true_iff in Hlf, Hcr. by rewrite Hlf, Hcr.
  - unfold remove_html_tags at 1. unfold remove.
    rewrite (sub_nothing _ _ _ Hfound), (filter_nothing _ _ Hlf), (filter_nothing _ _ Hcr).
    exact Hstrip.
Qed.

(** ** The plain text of a numbered file *)

Lemma match_at_TAG_hit u rest :
  u <> [] -> forallb not_gt u = true ->
  match_at TAG_PATTERN (0x3C :: u ++ 0x3E :: rest) = Some (None, rest).
Proof.
  intros Hne Hu. destruct u as [|c u]; [done|].
  cbn [forallb] in Hu. apply andb_true_iff in Hu as [Hc Hu].
  unfold match_at, TAG_PATTERN, Plus, Chr. cbn [run app]. rewrite N.eqb_refl, Hc.
  apply star_greedy; [done| |].
  - by intros c' t [= <- _].
  - cbn [run]. by rewrite N.eqb_refl.
Qed.

Lemma uint_codes_not_gt d : forallb not_gt (uint_codes d) = true.
Proof. induction d; cbn [uint_codes forallb]; try done; by rewrite IHd. Qed.

Lemma match_at_TAG_other c s : c <> 0x3C -> match_at TAG_PATTERN (c :: s) = None.
Proof.
  intros Hc. unfold match_at, TAG_PATTERN, Chr. cbn [run].
  destruct (0x3C =? c) eqn:Heq; [|done]. by apply N.eqb_eq in Heq.
Qed.

Lemma remove_TAG_plain t rest :
  forallb (fun c => negb (c =? 0x3C)) t = true ->
  remove TAG_PATTERN (t ++ rest) = t ++ remove TAG_PATTERN rest.
Proof.
  induction t as [|c t IH]; [done|]. cbn [forallb app].
  intros [Hc Ht]%andb_true_iff. unfold remove in *.
  rewrite sub_miss; [by rewrite IH|].
  apply match_at_TAG_other. intros ->. done.
Qed.

Lemma remove_TAG_formatted n t :
  forallb (fun c => negb (c =? 0x3C)) t = true ->
  remove TAG_PATTERN (formatted_line n t) = t ++ [LF].
Proof.
  intros Ht. unfold formatted_line.
  replace (py "<p data-line=" ++ [QUOTE] ++ str_of_nat n ++ [QUOTE] ++ py ">"
           ++ t ++ py "</p>" ++ [LF])
    with (0x3C :: ((py "p data-line=" ++ [QUOTE] ++ str_of_nat n ++ [QUOTE]) ++ [0x3E])
          ++ (t ++ py "</p>" ++ [LF]))
    by by repeat (rewrite <- ?app_assoc; cbn [app]).
  unfold remove at 1. rewrite (sub_hit _ _ None).
  - cbn [app]. fold (remove TAG_PATTERN (t ++ py "</p>" ++ [LF])).
    rewrite remove_TAG_plain by done. by f_equal.
  - rewrite <- app_assoc. apply match_at_TAG_hit; [done|].
    rewrite !forallb_app. unfold str_of_nat. by rewrite uint_codes_not_gt.
Qed.

Lemma remove_html_tags_formatted n t :
  forallb (fun c => negb (c =? 0x3C)) t = true ->
  unbroken t = true -> strip t = t ->
  remove_html_tags (formatted_line n t) = t.
Proof.
  intros Ht Hb Hs. unfold remove_html_tags. cbn zeta.
  rewrite remove_TAG_formatted by done.
  assert (Hlf : forallb (fun c => negb (c =? LF)) t = true
                /\ forallb (fun c => negb (c =? CR)) t = true).
  { unfold unbroken, is_break in Hb. rewrite !forallb_forall in *.
    split; intros c Hc; specialize (Hb c Hc);
      apply negb_true_iff, orb_false_iff in Hb as [H1 H2]; by rewrite ?H1, ?H2. }
  destruct Hlf as [Hlf Hcr].
  rewrite !List.filter_app, (filter_nothing _ _ Hlf). cbn [List.filter].
  rewrite N.eqb_refl. cbn [negb app]. rewrite app_nil_r.
  by rewrite (filter_nothing _ _ Hcr).
Qed.

Lemma readlines_from_chars (q : N -> bool) s : forall current,
  q LF = true -> forallb q current = true -> forallb q s = true ->
  Forall (fun l => forallb q l = true) (readlines_from current s).
Proof.
  intros current Hq.
  assert (Hline : forall current, forallb q current = true ->
            forallb q (rev (LF :: current)) = true).
  { intros cur Hc. rewrite forallb_rev. cbn [forallb]. by rewrite Hq, Hc. }
  revert current. induction s as [|c s IH]; intros current Hc Hs; cbn [readlines_from].
  - destruct current as [|a current]; [constructor|].
    constructor; [|constructor]. by rewrite forallb_rev.
  - cbn [forallb] in Hs. apply andb_true_iff in Hs as [Hqc Hs].
    destruct (c =? LF) eqn:Hlf.
    { constructor; [by apply Hline|by apply IH]. }
    destruct (c =? CR) eqn:Hcr.
    { destruct s as [|c' s].
      - constructor; [by apply Hline|constructor].
      - destruct (c' =? LF) eqn:Hlf'.
        + constructor; [by apply Hline|].
          specialize (IH [] eq_refl Hs). cbn [readlines_from] in IH. rewrite Hlf' in IH.
          by apply Forall_cons in IH as [_ ?].
        + constructor; [by apply Hline|by apply IH]. }
    apply IH; [|done]. cbn [forallb]. by rewrite Hqc, Hc.
Qed.

Lemma map_imap_back {A} (P : A -> Prop) (f : A -> A) (g : nat -> A -> A) (l : list A) :
  forall k,
  Forall P l -> (forall i x, P x -> f (g i x) = x) ->
  List.map f (imap (fun i => g (k + i)%nat) l) = l.
Proof.
  induction l as [|x l IH]; intros k Hall Hback; [done|].
  apply Forall_cons in Hall as [Hx Hall].
  rewrite imap_cons. cbn [List.map]. rewrite Hback by done. f_equal.
  rewrite <- (IH (S k) Hall Hback) at 2. f_equal. apply imap_ext.
  intros i y _. simpl. f_equal. lia.
Qed.

(** X22. A text without opening bracket, numbered by [process_txt_file]
    and exported by [convert_to_plain_text], comes back as its lines that
    are not blank, trimmed and separated by an empty line. *)
Theorem plain_text_of_numbered_file (content : str) :
  forallb (fun c => negb (c =? 0x3C)) content = true ->
  exists written,
    process_txt_file (Some content) = (true, Some written)
    /\ convert_to_plain_text written
       = join [LF; LF] (nonblank_lines (readlines content)).
Proof.
  intros Hno. eexists. split; [reflexivity|].
  unfold convert_to_plain_text. cbn zeta.
  rewrite readlines_processed, processed_lines_imap.
  rewrite (map_imap_back
             (fun t => forallb (fun c => negb (c =? 0x3C)) t = true
                       /\ unbroken t = true /\ strip t = t)
             remove_html_tags formatted_line _ 1).
  - unfold nonblank_lines. by rewrite filter_idempotent.
  - pose proof (nonblank_lines_unbroken content) as Hb.
    pose proof (readlines_from_chars _ content [] eq_refl eq_refl Hno) as Hc.
    rewrite Forall_forall in Hb, Hc. apply Forall_forall. intros t Ht.
    split; [|split; [by apply Hb|]];
      unfold nonblank_lines in Ht; apply elem_of_list_filter_bool in Ht as [Ht _];
      apply elem_of_list_map in Ht as (l & -> & Hl).
    + by apply forallb_strip, Hc.
    + apply strip_idempotent.
  - intros i t (H1 & H2 & H3). by apply remove_html_tags_formatted.
Qed.

Lemma plain_text_of_numbered_file_witness :
  let content := py "one" ++ [LF; LF] ++ py "  two > 1 " ++ [CR; LF] in
  forallb (fun c => negb (c =? 0x3C)) content = true
  /\ exists written,
       process_txt_file (Some content) = (true, Some written)
       /\ convert_to_plain_text written = py "one" ++ [LF; LF] ++ py "two > 1".
Proof.
  intros content. split; [by vm_compute|].
  destruct (plain_text_of_numbered_file content ltac:(by vm_compute))
    as (written & Hw & Hp).
  exists written. split; [done|]. rewrite Hp. by vm_compute.
Defined.

(** ** The text of a numbered line *)

Lemma is_prefix_app l s : is_prefix l (l ++ s) = true.
Proof. induction l as [|a l IH]; [done|]. cbn [app is_prefix]. by rewrite N.eqb_refl. Qed.

Lemma run_Lit l : forall k s g,
  run (Lit l) k s g = if is_prefix l s then k (drop (length l) s) g else None.
Proof.
  induction l as [|a l IH]; intros k s g; [done|].
  cbn [Lit foldr run]. destruct s as [|c s]; [done|].
  cbn [is_prefix length drop]. unfold Chr at 1. cbn [run].
  destruct (a =? c); [apply IH|done].
Qed.

Lemma lazy_first (K : list N -> capture -> outcome) p g x z : forall u,
  forallb p u = true ->
  (forall u1 u2, u = u1 ++ u2 -> u2 <> [] -> K (u2 ++ z) g = None) ->
  K z g = Some x ->
  lazy K p (u ++ z) g = Some x.
Proof.
  induction u as [|c u IH]; intros Hu Hnone Hz.
  - destruct z; simpl; by rewrite Hz.
  - pose proof (Hnone [] (c :: u) eq_refl ltac:(done)) as Hhere.
    cbn [app] in Hhere |- *. cbn [lazy]. rewrite Hhere.
    cbn [forallb] in Hu. apply andb_true_iff in Hu as [-> Hu].
    apply IH; [done| |done]. intros u1 u2 -> Hne. by apply (Hnone (c :: u1)).
Qed.

Lemma contains_false needle u1 : forall u2,
  contains needle (u1 ++ u2) = false -> is_prefix needle u2 = false.
Proof.
  induction u1 as [|c u1 IH]; intros u2 H.
  - destruct u2; simpl in H; by apply orb_false_iff in H as [? _].
  - cbn [app contains] in H. apply orb_false_iff in H as [_ H]. by apply IH.
Qed.

(** The closing tag cannot start inside a text that does not hold it. *)
Lemma closing_tag_not_before text tail :
  contains (py "</p>") text = false ->
  forall u1 u2, text = u1 ++ u2 -> u2 <> [] ->
    is_prefix (py "</p>") (u2 ++ py "</p>" ++ tail) = false.
Proof.
  intros Hno u1 u2 -> Hne. apply contains_false in Hno.
  destruct u2 as [|a [|b [|c [|d u]]]]; [done|..]; simpl in *;
    rewrite ?andb_false_r; done.
Qed.

Lemma match_at_P_TEXT attrs text tail :
  forallb not_gt attrs = true ->
  contains (py "</p>") text = false ->
  match_at P_TEXT_PATTERN (py "<p" ++ attrs ++ [0x3E] ++ text ++ py "</p>" ++ tail)
  = Some (Some text, tail).
Proof.
  intros Hattrs Hno. unfold match_at, P_TEXT_PATTERN. cbn [run].
  rewrite run_Lit, is_prefix_app, drop_app_length.
  apply star_greedy; [done|by intros c t [= <- _]|].
  cbn [app]. unfold Chr at 1. cbn [run]. rewrite N.eqb_refl.
  apply lazy_first; [by apply forallb_forall| |].
  - intros u1 u2 Heq Hne. rewrite run_Lit.
    by rewrite (closing_tag_not_before text tail Hno u1 u2).
  - rewrite run_Lit, is_prefix_app, drop_app_length, take_consumed. done.
Qed.

Lemma extract_text_formatted n text :
  contains (py "</p>") text = false ->
  extract_text_from_tags (formatted_line n text) = text.
Proof.
  intros Hno. unfold extract_text_from_tags, formatted_line.
  replace (py "<p data-line=" ++ [QUOTE] ++ str_of_nat n ++ [QUOTE] ++ py ">"
           ++ text ++ py "</p>" ++ [LF])
    with (py "<p" ++ (py " data-line=" ++ [QUOTE] ++ str_of_nat n ++ [QUOTE])
          ++ [0x3E] ++ text ++ py "</p>" ++ [LF])
    by by repeat (rewrite <- ?app_assoc; cbn [app]).
  pose proof (match_at_P_TEXT (py " data-line=" ++ [QUOTE] ++ str_of_nat n ++ [QUOTE])
                text [LF]) as Hm.
  rewrite !forallb_app in Hm. unfold str_of_nat in Hm at 1.
  rewrite uint_codes_not_gt in Hm. specialize (Hm eq_refl Hno).
  destruct (py "<p" ++ _) eqn:Hline; cbn [search]; by rewrite Hm.
Qed.

(** X23. In a line written by [process_txt_file] whose text does not hold
    the closing tag, [extract_text_from_tags] reads the text back; and
    when the text is not blank either program selects the line for
    translation exactly when its language test holds of the text. *)
Theorem formatted_line_text (n : nat) (text : str) :
  contains (py "</p>") text = false ->
  extract_text_from_tags (formatted_line n text) = text
  /\ (strip text <> [] ->
      JP.needs_translation (formatted_line n text) = JP.source_detected text
      /\ EN.needs_translation (formatted_line n text) = EN.contains_english text).
Proof.
  intros Hno. split; [by apply extract_text_formatted|].
  intros Hne. unfold JP.needs_translation, EN.needs_translation.
  rewrite extract_text_formatted by done.
  destruct text as [|c text]; [done|]. by destruct (strip (c :: text)).
Qed.

Lemma formatted_line_text_witness :
  contains (py "</p>") (py "a > b") = false
  /\ extract_text_from_tags (formatted_line 7 (py "a > b")) = py "a > b"
  /\ EN.needs_translation (formatted_line 7 (py "hello world")) = true.
Proof.
  split; [by vm_compute|]. split.
  - apply (formatted_line_text 7 (py "a > b")). by vm_compute.
  - destruct (formatted_line_text 7 (py "hello world") ltac:(by vm_compute)) as [_ H].
    destruct (H ltac:(by vm_compute)) as [_ ->]. by vm_compute.
Defined.
